(** * Route generator: graph routing, cleanup, resampling and stop matching

    A shallow embedding of [scripts/generate-route.mjs], the batch script
    that turns an OpenStreetMap extract into the bus game's route data.

    JavaScript numbers are modelled as mathematical reals: [+ - * /],
    [Math.hypot], [Math.sqrt], [Math.round], [Math.floor] and the
    comparisons are the exact operations, so IEEE-754 rounding error is
    abstracted away.  [Infinity], used by the script only as the initial
    value of a running minimum, is modelled by [None] in an [option];
    node identifiers are integers; arrays are lists; [Map] and [Set] are
    [gmap] and [gset]. *)

From Stdlib Require Import Reals Lra Lia ZArith List String Ascii.
From stdpp Require Import gmap list strings sorting pretty.

Local Open Scope R_scope.

(** ** Numbers *)

#[global] Instance Rlt_decision : RelDecision Rlt := Rlt_dec.
#[global] Instance Rle_decision : RelDecision Rle := Rle_dec.
#[global] Instance Req_decision : EqDecision R := Req_dec_T.

(** [Math.hypot(a, b)]. *)
Definition hypot (a b : R) : R := sqrt (a * a + b * b).

(** [Math.floor] and [Math.round]; the latter rounds half up. *)
Definition floor (x : R) : R := IZR (Int_part x).
Definition round (x : R) : R := floor (x + / 2).

(** [Math.round(v * 10) / 10]: one decimal place. *)
Definition round1 (v : R) : R := round (v * 10) / 10.

(** A planar point, the two-element array [[x, z]]. *)
Definition point : Type := (R * R)%type.

(** [route[i]] for an index the script keeps in range. *)
Definition at_index (route : list point) (i : nat) : point := nth i route (0, 0).

Definition dist2d (ax az bx bz : R) : R := hypot (ax - bx) (az - bz).

Definition pdist (p q : point) : R := dist2d p.1 p.2 q.1 q.2.

(** ** Configuration constants *)

Definition TARGET_SPAN : R := 500.
Definition MIN_STOP_SPACING : R := 40.
Definition STOP_MATCH_RADIUS : R := 30.
Definition BOUNDS_PADDING : R := 100.
Definition SAMPLE_INTERVAL : R := 25.

(** ** Stop matching *)

(** A bus stop after projection: the fields of [gameStops] entries that
    [matchBusStops] reads. *)
Record GameStop := {
  gs_lat : R;
  gs_lon : R;
  gs_name : option string;
  gs_gamePos : point
}.

(** A candidate [{ idx, dist, name, lat, lon }]. *)
Record Candidate := {
  c_idx : nat;
  c_dist : R;
  c_name : option string;
  c_lat : R;
  c_lon : R
}.

(** JavaScript truthiness of a name: [null] and the empty string are falsy. *)
Definition truthy (n : option string) : bool :=
  match n with
  | Some s => negb (String.eqb s "")
  | None => false
  end.

(** The scan for the nearest route point.  The pair [(bestDist, bestIdx)]
    starts at [(Infinity, -1)], which is [None] here. *)
Fixpoint nearest_from (px pz : R) (route : list point) (i : nat)
    (best : option (nat * R)) : option (nat * R) :=
  match route with
  | [] => best
  | q :: rest =>
      let d := dist2d px pz q.1 q.2 in
      let best' :=
        match best with
        | None => Some (i, d)
        | Some (_, bd) => if decide (d < bd) then Some (i, d) else best
        end in
      nearest_from px pz rest (S i) best'
  end.

Definition nearest (px pz : R) (route : list point) : option (nat * R) :=
  nearest_from px pz route 0 None.

Definition candidate_of (route : list point) (matchRadius : R) (stop : GameStop)
    : option Candidate :=
  match nearest (gs_gamePos stop).1 (gs_gamePos stop).2 route with
  | Some (bestIdx, bestDist) =>
      if decide (bestDist <= matchRadius)
      then Some {| c_idx := bestIdx; c_dist := bestDist; c_name := gs_name stop;
                   c_lat := gs_lat stop; c_lon := gs_lon stop |}
      else None
  | None => None
  end.

Definition collect_candidates (route : list point) (gameStops : list GameStop)
    (matchRadius : R) : list Candidate :=
  omap (candidate_of route matchRadius) gameStops.

(** [Array.prototype.sort] with the comparator [a.idx - b.idx]: a stable
    sort on the key, written as an insertion sort. *)
Section StableSort.
Context {A : Type} (key : A → nat).

Fixpoint insert_by (x : A) (l : list A) : list A :=
  match l with
  | [] => [x]
  | y :: l' => if (key x <=? key y)%nat then x :: y :: l' else y :: insert_by x l'
  end.

Definition sort_by (l : list A) : list A := foldr insert_by [] l.
End StableSort.

Definition DEDUP_WINDOW : Z := 3.

Definition near_idx (c d : Candidate) : Prop :=
  (Z.abs (Z.of_nat (c_idx d) - Z.of_nat (c_idx c)) < DEDUP_WINDOW)%Z.

#[global] Instance near_idx_dec c d : Decision (near_idx c d).
Proof. unfold near_idx. apply _. Defined.

(** One iteration of the dedup loop for candidate [c]. *)
Definition dedup_step (deduped : list Candidate) (c : Candidate) : list Candidate :=
  match list_find (near_idx c) deduped with
  | Some (i, nearby) =>
      if negb (truthy (c_name nearby)) && truthy (c_name c) then <[i := c]> deduped
      else if truthy (c_name nearby) && truthy (c_name c)
              && bool_decide (c_dist c < c_dist nearby)
           then <[i := c]> deduped
      else deduped
  | None => deduped ++ [c]
  end.

Definition dedup (candidates : list Candidate) : list Candidate :=
  fold_left dedup_step candidates [].

(** One iteration of a minimum-spacing loop over entries carrying a route
    index: the entry is kept when [selected] is empty or when it lies at
    least [MIN_STOP_SPACING] from the last kept entry. *)
Definition spacing_step {A : Type} (idx : A → nat) (route : list point)
    (selected : list A) (c : A) : list A :=
  match last selected with
  | None => selected ++ [c]
  | Some l =>
      let spacing := pdist (at_index route (idx c)) (at_index route (idx l)) in
      if decide (MIN_STOP_SPACING <= spacing) then selected ++ [c] else selected
  end.

Definition matchBusStops (route : list point) (gameStops : list GameStop)
    (matchRadius : R) : list Candidate :=
  let candidates := sort_by c_idx (collect_candidates route gameStops matchRadius) in
  let deduped := dedup candidates in
  let selected := fold_left (spacing_step c_idx route) deduped [] in
  take 10 selected.

(** ** Topology cleanup (step 5a of [main]) *)

(** The test applied to an interior point [b] with neighbours [a] and [c]:
    either adjacent segment is shorter than 0.01, or the cosine of the angle
    between the incoming and the outgoing segment is negative. *)
Definition is_backtrack (a b c : point) : bool :=
  let abx := b.1 - a.1 in
  let abz := b.2 - a.2 in
  let bcx := c.1 - b.1 in
  let bcz := c.2 - b.2 in
  let dot := abx * bcx + abz * bcz in
  let magAB := hypot abx abz in
  let magBC := hypot bcx bcz in
  if bool_decide (magAB < 0.01) || bool_decide (magBC < 0.01) then true
  else
    let cosAngle := dot / (magAB * magBC) in
    bool_decide (cosAngle < 0).

(** The body of the inner [for] loop at index [i]; the state is the set
    [toRemove] and the flag [cleanPass]. *)
Definition scan_step (route : list point) (st : gset nat * bool) (i : nat)
    : gset nat * bool :=
  if decide (i ∈ st.1) then st
  else if is_backtrack (at_index route (i - 1)) (at_index route i) (at_index route (i + 1))
       then ({[ i ]} ∪ st.1, true)
       else st.

(** [for (let i = 1; i < cleanRoute.length - 1; i++)]. *)
Definition scan (route : list point) : gset nat * bool :=
  fold_left (scan_step route) (seq 1 (length route - 2)) (∅, false).

(** [arr.filter((_, i) => !toRemove.has(i))], counting indices from [i]. *)
Fixpoint filter_out {A : Type} (toRemove : gset nat) (i : nat) (l : list A) : list A :=
  match l with
  | [] => []
  | x :: rest =>
      if decide (i ∈ toRemove) then filter_out toRemove (S i) rest
      else x :: filter_out toRemove (S i) rest
  end.

(** One turn of the [while (cleanPass)] loop: the new route, the new labels
    and the value of [cleanPass] at the end of the turn. *)
Definition clean_pass (route : list point) (labels : list string)
    : list point * list string * bool :=
  let '(toRemove, cleanPass) := scan route in
  if decide (0 < size toRemove)%nat
  then (filter_out toRemove 0 route, filter_out toRemove 0 labels, cleanPass)
  else (route, labels, cleanPass).

(** The [while (cleanPass)] loop, with [fuel] bounding the number of turns;
    [None] means the bound was reached with [cleanPass] still set. *)
Fixpoint clean_loop (fuel : nat) (route : list point) (labels : list string)
    : option (list point * list string) :=
  match fuel with
  | O => None
  | S fuel' =>
      let '(route', labels', cleanPass) := clean_pass route labels in
      if cleanPass then clean_loop fuel' route' labels' else Some (route', labels')
  end.

(** The loop body of "Also remove duplicate consecutive points": [deduped]
    and [dedupedLabels] grow together. *)
Definition collapse_step (st : list point * list string) (pl : point * string)
    : list point * list string :=
  match last st.1 with
  | Some q =>
      if decide (0.5 < hypot (pl.1.1 - q.1) (pl.1.2 - q.2))
      then (st.1 ++ [pl.1], st.2 ++ [pl.2])
      else st
  | None => st
  end.

(** Labels are read by position; a missing label is [undefined], which every
    reader replaces by ['Unknown'] exactly as it does the empty string. *)
Definition label_index (labels : list string) (i : nat) : string := nth i labels "".

Definition with_labels (route : list point) (labels : list string)
    : list (point * string) :=
  imap (λ i p, (p, label_index labels i)) route.

(** The collapse of consecutive points at most 0.5 apart.  The script
    starts from [[cleanRoute[0]]]; the route is never empty here. *)
Definition collapse (route : list point) (labels : list string)
    : list point * list string :=
  match with_labels route labels with
  | [] => ([], [])
  | (p0, l0) :: rest => fold_left collapse_step rest ([p0], [l0])
  end.

(** Step 5a as a whole. *)
Definition cleanRoute (gameRoute : list point) (rawStreetLabels : list string)
    : option (list point * list string) :=
  '(r, l) ← clean_loop (S (length gameRoute)) gameRoute rawStreetLabels;
  Some (collapse r l).

(** ** Arc-length resampling (step 5b of [main]) *)

Fixpoint cumLen_from (prev : point) (acc : R) (rest : list point) : list R :=
  match rest with
  | [] => []
  | p :: rest' =>
      let c := acc + hypot (p.1 - prev.1) (p.2 - prev.2) in
      c :: cumLen_from p c rest'
  end.

(** [cumLen[i]] is the length of the polyline up to point [i]. *)
Definition cumLen (route : list point) : list R :=
  match route with
  | [] => [0]
  | p :: rest => 0 :: cumLen_from p 0 rest
  end.

Definition cum_at (cum : list R) (i : nat) : R := nth i cum 0.

Definition totalLen (route : list point) : R :=
  cum_at (cumLen route) (length (cumLen route) - 1).

(** [while (segIdx < cleanRoute.length - 2 && cumLen[segIdx + 1] < dist) segIdx++],
    by recursion on the number of segments left. *)
Fixpoint advance (left : nat) (cum : list R) (n : nat) (dist : R) (segIdx : nat) : nat :=
  match left with
  | O => segIdx
  | S left' =>
      if bool_decide (segIdx + 2 < n)%nat && bool_decide (cum_at cum (segIdx + 1) < dist)
      then advance left' cum n dist (S segIdx)
      else segIdx
  end.

Definition find_segment (cum : list R) (n : nat) (dist : R) (segIdx : nat) : nat :=
  advance (n - segIdx) cum n dist segIdx.

(** The point pushed for arc length [dist] inside segment [segIdx]. *)
Definition interpolate (route : list point) (cum : list R) (segIdx : nat) (dist : R)
    : point :=
  let segStart := cum_at cum segIdx in
  let segEnd := cum_at cum (segIdx + 1) in
  let segLen := segEnd - segStart in
  let t := if decide (0 < segLen) then (dist - segStart) / segLen else 0 in
  let a := at_index route segIdx in
  let b := at_index route (segIdx + 1) in
  (round1 (a.1 + t * (b.1 - a.1)), round1 (a.2 + t * (b.2 - a.2))).

(** [for (let dist = SAMPLE_INTERVAL; dist < totalLen; dist += SAMPLE_INTERVAL)];
    [None] when [fuel] turns were not enough. *)
Fixpoint sample_loop (fuel : nat) (route : list point) (cum : list R) (total : R)
    (dist : R) (segIdx : nat) (finalRoute : list point) : option (list point) :=
  if decide (dist < total) then
    match fuel with
    | O => None
    | S fuel' =>
        let segIdx' := find_segment cum (length route) dist segIdx in
        sample_loop fuel' route cum total (dist + SAMPLE_INTERVAL) segIdx'
          (finalRoute ++ [interpolate route cum segIdx' dist])
    end
  else Some finalRoute.

(** The number of turns the sampling loop can take. *)
Definition sample_fuel (total : R) : nat := Z.to_nat (up (total / SAMPLE_INTERVAL)).

(** "Always include the last point". *)
Definition include_last (route finalRoute : list point) : list point :=
  let lastFull := at_index route (length route - 1) in
  let lastSampled := at_index finalRoute (length finalRoute - 1) in
  if decide (1 < hypot (lastFull.1 - lastSampled.1) (lastFull.2 - lastSampled.2))
  then finalRoute ++ [lastFull]
  else finalRoute.

Definition resample (route : list point) : option (list point) :=
  let cum := cumLen route in
  let total := totalLen route in
  sampled ← sample_loop (sample_fuel total) route cum total SAMPLE_INTERVAL 0
              [at_index route 0];
  Some (include_last route sampled).


(** ** Loop closure *)

Definition closeLoop (route : list point) : list point :=
  let first := at_index route 0 in
  let last := at_index route (length route - 1) in
  let gap := hypot (first.1 - last.1) (first.2 - last.2) in
  if decide (5 < gap) then route ++ [(first.1, first.2)] else route.

(** ** Naming and synthesis of stops (step 7 of [main]) *)

(** What the rest of [main] reads of a stop object: [idx] and [name].  The
    other fields of a candidate are not read after [matchBusStops]. *)
Record Stop := {
  s_idx : nat;
  s_name : option string
}.

Definition stop_of_candidate (c : Candidate) : Stop :=
  {| s_idx := c_idx c; s_name := c_name c |}.

(** [label || 'Unknown'] for
    [streetLabels[Math.min(stop.idx, streetLabels.length - 1)]]. *)
Definition street_label (streetLabels : list string) (idx : nat) : string :=
  match streetLabels !! (idx `min` (length streetLabels - 1))%nat with
  | Some l => if String.eqb l "" then "Unknown"%string else l
  | None => "Unknown"%string
  end.

Definition keeps_name (n : option string) : bool :=
  match n with
  | Some s => negb (String.eqb s "") && negb (String.prefix "Stop " s)
  | None => false
  end.

Definition assignStreetNames (stops : list Stop) (streetLabels : list string) : list Stop :=
  map (λ stop,
         if keeps_name (s_name stop) then stop
         else {| s_idx := s_idx stop;
                 s_name := Some (street_label streetLabels (s_idx stop)) |})
      stops.

(** [for (let i = 0; i < routeLen - 1; i += interval) synthetic.push(...)];
    [None] when [fuel] turns were not enough. *)
Fixpoint synthetic_loop (fuel : nat) (routeLen interval i : nat) (synthetic : list Stop)
    : option (list Stop) :=
  if decide (i + 1 < routeLen)%nat then
    match fuel with
    | O => None
    | S fuel' =>
        synthetic_loop fuel' routeLen interval (i + interval)
          (synthetic ++ [ {| s_idx := i; s_name := Some ("Stop " +:+ pretty i) |} ])
    end
  else Some synthetic.

(** The loop over [synthetic] that pushes the stops whose index is new. *)
Definition merge_step (st : list Stop * gset nat) (s : Stop) : list Stop * gset nat :=
  if decide (s_idx s ∈ st.2) then st else (st.1 ++ [s], {[ s_idx s ]} ∪ st.2).

(** How the stop stage of a run ends. *)
Inductive stage_result (A : Type) : Type :=
  | Done (a : A)
  | TypeError
  | LoopsForever.
Arguments Done {A} a.
Arguments TypeError {A}.
Arguments LoopsForever {A}.

(** The [if (matchedStops.length < 6)] block.  With [interval = 0] the
    [for] loop never advances [i]; it is left at once when [routeLen <= 1]
    and never otherwise.  [spaced] starts as [[matchedStops[0]]]: on an
    empty list that is [[undefined]], on which [deduplicateStopNames]
    throws. *)
Definition synthesize (finalRoute : list point) (labels : list string)
    (matchedStops : list Stop) : stage_result (list Stop) :=
  let routeLen := length finalRoute in
  let interval := (routeLen / 8)%nat in
  if decide (interval = 0 ∧ 1 < routeLen)%nat then LoopsForever
  else
    match synthetic_loop routeLen routeLen interval 0 [] with
    | None => LoopsForever
    | Some synthetic =>
        let synthetic := assignStreetNames synthetic labels in
        let allIndices : gset nat := list_to_set (map s_idx matchedStops) in
        let merged := (fold_left merge_step synthetic (matchedStops, allIndices)).1 in
        let sorted := sort_by s_idx merged in
        match sorted with
        | [] => TypeError
        | first :: rest =>
            Done (take 10 (fold_left (spacing_step s_idx finalRoute) rest [first]))
        end
    end.

(** [deduplicateStopNames]: the second and later bearers of a name get a
    suffix chosen by how often the name was seen. *)
Definition suffixes : list string :=
  ["North"; "South"; "East"; "West"; "Central"]%string.

(** The text of [s.name] inside a template literal. *)
Definition stop_text (s : Stop) : string := default "null"%string (s_name s).

Definition dedup_name_step (st : list Stop * gmap (option string) nat) (s : Stop)
    : list Stop * gmap (option string) nat :=
  let count := (default 0%nat (st.2 !! s_name s) + 1)%nat in
  let seen := <[ s_name s := count ]> st.2 in
  if decide (1 < count)%nat
  then (st.1 ++ [ {| s_idx := s_idx s;
                     s_name := Some (stop_text s +:+ " " +:+
                                 nth ((count - 2) `mod` length suffixes) suffixes "") |} ],
        seen)
  else (st.1 ++ [s], seen).

Definition deduplicateStopNames (stops : list Stop) : list Stop :=
  (fold_left dedup_name_step stops ([], ∅)).1.

(** Steps 7 of [main]: match, name, synthesize when fewer than six stops
    matched, and make the names unique. *)
Definition stop_stage (finalRoute : list point) (gameStops : list GameStop)
    (labels : list string) : stage_result (list Stop) :=
  let matchedStops :=
    assignStreetNames
      (map stop_of_candidate (matchBusStops finalRoute gameStops STOP_MATCH_RADIUS))
      labels in
  if decide (length matchedStops < 6)%nat then
    match synthesize finalRoute labels matchedStops with
    | Done stops => Done (deduplicateStopNames stops)
    | TypeError => TypeError
    | LoopsForever => LoopsForever
    end
  else Done (deduplicateStopNames matchedStops).

(** ** The road graph *)

(** [Math.atan2(y, x)]. *)
Definition atan2 (y x : R) : R :=
  if decide (0 < x) then atan (y / x)
  else if decide (x < 0) then
    (if decide (0 <= y) then atan (y / x) + PI else atan (y / x) - PI)
  else if decide (0 < y) then PI / 2
  else if decide (y < 0) then - (PI / 2)
  else 0.

(** Great-circle distance in metres. *)
Definition haversineM (lat1 lon1 lat2 lon2 : R) : R :=
  let R0 := 6371000 in
  let dLat := ((lat2 - lat1) * PI) / 180 in
  let dLon := ((lon2 - lon1) * PI) / 180 in
  let a :=
    (sin (dLat / 2)) ^ 2 +
    cos ((lat1 * PI) / 180) * cos ((lat2 * PI) / 180) * (sin (dLon / 2)) ^ 2 in
  R0 * 2 * atan2 (sqrt a) (sqrt (1 - a)).

(** An adjacency entry [{ to, dist, name }]. *)
Record Edge := {
  e_to : Z;
  e_dist : R;
  e_name : option string
}.

(** A driveable way kept by [buildGraph]. *)
Record Way := {
  w_nodes : list Z;
  w_name : option string;
  w_highway : string
}.

(** The [Map] [adj]: its entries, and its keys in insertion order, which is
    the order in which [for (const [id] of adj)] visits them. *)
Record AdjacencyList := {
  adj_edges : gmap Z (list Edge);
  adj_order : list Z
}.

Definition empty_adjacency : AdjacencyList := {| adj_edges := ∅; adj_order := [] |}.

Definition addEdge (adj : AdjacencyList) (from to : Z) (dist : R) (name : option string)
    : AdjacencyList :=
  let adj' :=
    match adj_edges adj !! from with
    | Some _ => adj
    | None => {| adj_edges := <[from := []]> (adj_edges adj);
                 adj_order := adj_order adj ++ [from] |}
    end in
  {| adj_edges :=
       alter (λ edges, edges ++ [ {| e_to := to; e_dist := dist; e_name := name |} ])
             from (adj_edges adj');
     adj_order := adj_order adj' |}.

(** The body of the loop over the consecutive node pairs of a way. *)
Definition add_segment (nodes : gmap Z (R * R)) (name : option string)
    (adj : AdjacencyList) (ab : Z * Z) : AdjacencyList :=
  match nodes !! ab.1, nodes !! ab.2 with
  | Some na, Some nb =>
      let dist := haversineM na.1 na.2 nb.1 nb.2 in
      addEdge (addEdge adj ab.1 ab.2 dist name) ab.2 ab.1 dist name
  | _, _ => adj
  end.

(** The pairs [(l[i], l[i + 1])]. *)
Definition consecutive {A : Type} (l : list A) : list (A * A) := zip l (tail l).

Definition add_way (nodes : gmap Z (R * R)) (adj : AdjacencyList) (way : Way)
    : AdjacencyList :=
  fold_left (add_segment nodes (w_name way)) (consecutive (w_nodes way)) adj.

(** The adjacency list that [buildGraph] makes of the driveable ways. *)
Definition build_adjacency (nodes : gmap Z (R * R)) (ways : list Way) : AdjacencyList :=
  fold_left (add_way nodes) ways empty_adjacency.

(** ** Dijkstra's shortest path *)

(** The variables of [dijkstra]: [dist], [prev], [visited] and the queue
    [pq] of entries [{ id, d }]. *)
Record SearchState := {
  st_dist : gmap Z R;
  st_prev : gmap Z Z;
  st_visited : gset Z;
  st_pq : list (Z * R)
}.

(** "Extract minimum": the scan keeps the first entry of least [d]. *)
Fixpoint scan_min (rest : list (Z * R)) (i minIdx : nat) (minD : R) : nat :=
  match rest with
  | [] => minIdx
  | (_, d) :: rest' =>
      if decide (d < minD) then scan_min rest' (S i) i d
      else scan_min rest' (S i) minIdx minD
  end.

Definition min_index (pq : list (Z * R)) : nat :=
  match pq with
  | [] => O
  | (_, d0) :: rest => scan_min rest 1 0 d0
  end.

(** The body of the loop over the edges of [u], reached at distance [du]. *)
Definition relax (u : Z) (du : R) (st : SearchState) (e : Edge) : SearchState :=
  let v := e_to e in
  if decide (v ∈ st_visited st) then st
  else
    let newDist := du + e_dist e in
    let improves :=
      match st_dist st !! v with
      | Some dv => bool_decide (newDist < dv)
      | None => true
      end in
    if improves
    then {| st_dist := <[v := newDist]> (st_dist st);
            st_prev := <[v := u]> (st_prev st);
            st_visited := st_visited st;
            st_pq := st_pq st ++ [(v, newDist)] |}
    else st.

(** The [while (pq.length > 0)] loop; [None] when [fuel] turns were not
    enough. *)
Fixpoint search_loop (fuel : nat) (adj : gmap Z (list Edge)) (endId : Z)
    (st : SearchState) : option SearchState :=
  match st_pq st !! min_index (st_pq st) with
  | None => Some st
  | Some (u, du) =>
      match fuel with
      | O => None
      | S fuel' =>
          let st1 := {| st_dist := st_dist st; st_prev := st_prev st;
                        st_visited := st_visited st;
                        st_pq := delete (min_index (st_pq st)) (st_pq st) |} in
          if decide (u ∈ st_visited st) then search_loop fuel' adj endId st1
          else
            let st2 := {| st_dist := st_dist st1; st_prev := st_prev st1;
                          st_visited := {[ u ]} ∪ st_visited st1;
                          st_pq := st_pq st1 |} in
            if decide (u = endId) then Some st2
            else
              match adj !! u with
              | None => search_loop fuel' adj endId st2
              | Some edges => search_loop fuel' adj endId (fold_left (relax u du) edges st2)
              end
      end
  end.

(** "Reconstruct path": [path.unshift(cur)] while [cur] is defined. *)
Fixpoint unwind (fuel : nat) (prev : gmap Z Z) (cur : Z) (path : list Z)
    : option (list Z) :=
  match fuel with
  | O => None
  | S fuel' =>
      match prev !! cur with
      | Some p => unwind fuel' prev p (cur :: path)
      | None => Some (cur :: path)
      end
  end.

Definition initial_state (startId : Z) : SearchState :=
  {| st_dist := {[ startId := 0 ]}; st_prev := ∅; st_visited := ∅;
     st_pq := [(startId, 0)] |}.

(** The number of edge records in the adjacency list. *)
Definition edge_count (adj : gmap Z (list Edge)) : nat :=
  sum_list (map (λ kv, length kv.2) (map_to_list adj)).

(** [dijkstra] with its two loops bounded: the outer [None] means that
    a bound was reached, the inner [None] is the script's [null]. *)
Definition search (adj : gmap Z (list Edge)) (startId endId : Z)
    : option (option (list Z)) :=
  st ← search_loop (S (edge_count adj)) adj endId (initial_state startId);
  if decide (st_prev st !! endId = None ∧ startId ≠ endId) then Some None
  else path ← unwind (S (size (st_prev st))) (st_prev st) endId [];
       Some (Some path).

Definition dijkstra (adj : gmap Z (list Edge)) (startId endId : Z) : option (list Z) :=
  default None (search adj startId endId).

(** ** Reading the OSM extract *)

Inductive Element :=
  | OsmNode (id : Z) (lat lon : R) (tags : option (gmap string string))
  | OsmWay (nodes : list Z) (tags : option (gmap string string))
  | OsmOther.

(** A bus stop as pushed by [buildGraph]. *)
Record BusStop := {
  bs_lat : R;
  bs_lon : R;
  bs_name : option string
}.

Definition DRIVEABLE_TYPES : gset string :=
  list_to_set
    [ "motorway"; "trunk"; "primary"; "secondary"; "tertiary";
      "residential"; "unclassified"; "motorway_link"; "trunk_link";
      "primary_link"; "secondary_link"; "tertiary_link" ]%string.

(** [tags.key] as a truthy string. *)
Definition tag (tags : option (gmap string string)) (key : string) : option string :=
  t ← tags; v ← t !! key; if String.eqb v "" then None else Some v.

Definition read_nodes (elements : list Element) : gmap Z (R * R) :=
  fold_left (λ nodes el,
               match el with
               | OsmNode id lat lon _ => <[id := (lat, lon)]> nodes
               | _ => nodes
               end) elements ∅.

Definition read_busStops (elements : list Element) : list BusStop :=
  omap (λ el,
          match el with
          | OsmNode _ lat lon (Some t) =>
              if bool_decide (t !! "highway"%string = Some "bus_stop"%string)
                 || bool_decide (t !! "public_transport"%string = Some "platform"%string)
              then Some {| bs_lat := lat; bs_lon := lon;
                           bs_name := match tag (Some t) "name" with
                                      | Some n => Some n
                                      | None => tag (Some t) "description"
                                      end |}
              else None
          | _ => None
          end) elements.

Definition read_ways (elements : list Element) : list Way :=
  omap (λ el,
          match el with
          | OsmWay nodes tags =>
              match tag tags "highway" with
              | Some h =>
                  if decide (h ∈ DRIVEABLE_TYPES)
                  then Some {| w_nodes := nodes; w_name := tag tags "name"; w_highway := h |}
                  else None
              | None => None
              end
          | _ => None
          end) elements.

Definition buildGraph (elements : list Element)
    : gmap Z (R * R) * AdjacencyList * list BusStop :=
  let nodes := read_nodes elements in
  (nodes, build_adjacency nodes (read_ways elements), read_busStops elements).

(** ** Routing through the waypoints *)

Record Waypoint := {
  wp_lat : R;
  wp_lon : R;
  wp_name : string
}.

Definition LOOP_WAYPOINTS : list Waypoint :=
  [ {| wp_lat := 51.5007; wp_lon := -0.1218; wp_name := "Westminster Bridge (south)" |};
    {| wp_lat := 51.5013; wp_lon := -0.1220; wp_name := "Westminster Bridge (north)" |};
    {| wp_lat := 51.5044; wp_lon := -0.1231; wp_name := "Victoria Embankment (midpoint)" |};
    {| wp_lat := 51.5075; wp_lon := -0.1238; wp_name := "Victoria Embankment (north)" |};
    {| wp_lat := 51.5073; wp_lon := -0.1270; wp_name := "Northumberland Avenue (top)" |};
    {| wp_lat := 51.5062; wp_lon := -0.1283; wp_name := "Northumberland Avenue (bottom)" |};
    {| wp_lat := 51.5065; wp_lon := -0.1290; wp_name := "Cockspur Street (east)" |};
    {| wp_lat := 51.5058; wp_lon := -0.1310; wp_name := "Cockspur Street (west)" |};
    {| wp_lat := 51.5050; wp_lon := -0.1340; wp_name := "The Mall (east)" |};
    {| wp_lat := 51.5020; wp_lon := -0.1410;
       wp_name := "The Mall (west) / Buckingham Palace" |};
    {| wp_lat := 51.5008; wp_lon := -0.1370; wp_name := "Birdcage Walk (west)" |};
    {| wp_lat := 51.5009; wp_lon := -0.1290; wp_name := "Birdcage Walk (east)" |};
    {| wp_lat := 51.5006; wp_lon := -0.1264; wp_name := "Great George Street" |};
    {| wp_lat := 51.5005; wp_lon := -0.1247; wp_name := "Parliament Square (south)" |};
    {| wp_lat := 51.5007; wp_lon := -0.1225;
       wp_name := "Bridge Street → Westminster Bridge" |} ].

(** The body of the scan of [findNearestNode]; [None] is the initial
    [{ id: null, dist: Infinity }]. *)
Definition nearer (nodes : gmap Z (R * R)) (lat lon : R) (best : option (Z * R)) (id : Z)
    : option (Z * R) :=
  match nodes !! id with
  | None => best
  | Some n =>
      let d := haversineM lat lon n.1 n.2 in
      match best with
      | None => Some (id, d)
      | Some (_, bestDist) => if decide (d < bestDist) then Some (id, d) else best
      end
  end.

Definition findNearestNode (nodes : gmap Z (R * R)) (adj : AdjacencyList) (lat lon : R)
    : option (Z * R) :=
  fold_left (nearer nodes lat lon) (adj_order adj) None.

(** A waypoint with the graph node it was mapped to. *)
Record GraphWaypoint := {
  gw_name : string;
  gw_nodeId : Z
}.

(** [name.split(' (')[0]]. *)
Definition base_name (name : string) : string :=
  match String.index 0 " (" name with
  | Some n => String.substring 0 n name
  | None => name
  end.

(** [edge?.name || fallback] for the first edge from [a] to [b]. *)
Definition edge_label (adj : gmap Z (list Edge)) (a b : Z) (fallback : string) : string :=
  match list_find (λ e, e_to e = b) (default [] (adj !! a)) with
  | Some (_, e) =>
      match e_name e with
      | Some n => if String.eqb n "" then fallback else n
      | None => fallback
      end
  | None => fallback
  end.

(** What [buildRoute] accumulates: [fullNodePath], [streetLabels], and the
    waypoint pairs for which it printed an error. *)
Record RouteBuild := {
  rb_path : list Z;
  rb_labels : list string;
  rb_errors : list (string * string)
}.

(** The body of the loop "Append path" at index [j]. *)
Definition push_node (adj : gmap Z (list Edge)) (fromName : string) (path : list Z)
    (startIdx : nat) (st : list Z * list string) (j : nat) : list Z * list string :=
  let fullNodePath := st.1 ++ [nth j path 0%Z] in
  let fallback := base_name fromName in
  if decide (0 < j)%nat
  then (fullNodePath,
        st.2 ++ [edge_label adj (nth (j - 1) path 0%Z) (nth j path 0%Z) fallback])
  else if decide (startIdx = 0)%nat then (fullNodePath, st.2 ++ [fallback])
  else (fullNodePath, st.2).

(** One turn of the loop over the waypoint pairs. *)
Definition route_step (adj : gmap Z (list Edge)) (rb : RouteBuild)
    (pair : GraphWaypoint * GraphWaypoint) : RouteBuild :=
  let '(from, to) := pair in
  match dijkstra adj (gw_nodeId from) (gw_nodeId to) with
  | None =>
      {| rb_path := rb_path rb; rb_labels := rb_labels rb;
         rb_errors := rb_errors rb ++ [(gw_name from, gw_name to)] |}
  | Some path =>
      let startIdx :=
        match last (rb_path rb), path !! 0%nat with
        | Some l, Some p0 => if decide (p0 = l) then 1%nat else 0%nat
        | _, _ => 0%nat
        end in
      let '(fullNodePath, streetLabels) :=
        fold_left (push_node adj (gw_name from) path startIdx)
                  (seq startIdx (length path - startIdx)) (rb_path rb, rb_labels rb) in
      {| rb_path := fullNodePath; rb_labels := streetLabels; rb_errors := rb_errors rb |}
  end.

(** Each waypoint paired with its successor, the last with the first. *)
Definition waypoint_pairs (gws : list GraphWaypoint)
    : list (GraphWaypoint * GraphWaypoint) :=
  zip gws (rotate 1 gws).

(** The stitching loop of [buildRoute]. *)
Definition stitch (adj : gmap Z (list Edge)) (gws : list GraphWaypoint) : RouteBuild :=
  fold_left (route_step adj) (waypoint_pairs gws)
            {| rb_path := []; rb_labels := []; rb_errors := [] |}.

(** The mapping of the waypoints to graph nodes; [None] when the adjacency
    list has no usable node, in which case every [nodeId] is [null]. *)
Definition map_waypoints (nodes : gmap Z (R * R)) (adj : AdjacencyList)
    (wps : list Waypoint) : option (list GraphWaypoint) :=
  mapM (λ wp, '(id, _) ← findNearestNode nodes adj (wp_lat wp) (wp_lon wp);
              Some {| gw_name := wp_name wp; gw_nodeId := id |}) wps.

Definition buildRoute (nodes : gmap Z (R * R)) (adj : AdjacencyList)
    : option RouteBuild :=
  gws ← map_waypoints nodes adj LOOP_WAYPOINTS;
  Some (stitch (adj_edges adj) gws).

(** ** Projection to game coordinates *)

(** [reduce((s, v) => s + v, 0) / length]. *)
Definition mean (l : list R) : R := fold_left Rplus l 0 / INR (length l).

(** The running minimum and maximum kept by the bounding-box loops.  They
    start at [Infinity] and [-Infinity]; on the non-empty routes that reach
    these loops that is the same as starting from the first element. *)
Definition list_min (l : list R) : R :=
  fold_left (λ m x, if decide (x < m) then x else m) (tail l) (hd 0 l).
Definition list_max (l : list R) : R :=
  fold_left (λ m x, if decide (m < x) then x else m) (tail l) (hd 0 l).

Record Projection := {
  pr_gameRoute : list point;
  pr_gameStops : list GameStop;
  pr_scale : R;
  pr_cx : R;
  pr_cz : R;
  pr_cosLat : R;
  pr_lat0 : R;
  pr_lng0 : R
}.

Definition project (lat0 lng0 cosLat : R) (lat lon : R) : point :=
  ((lon - lng0) * cosLat * 111320, - (lat - lat0) * 111320).

Definition to_game (cx cz scale : R) (p : point) : point :=
  (round1 ((p.1 - cx) * scale), round1 ((p.2 - cz) * scale)).

Definition projectToGameCoords (routeLatLng : list (R * R)) (busStopsLatLng : list BusStop)
    : Projection :=
  let lat0 := mean (fst <$> routeLatLng) in
  let lng0 := mean (snd <$> routeLatLng) in
  let cosLat := cos ((lat0 * PI) / 180) in
  let rawRoute := (λ p, project lat0 lng0 cosLat p.1 p.2) <$> routeLatLng in
  let minX := list_min (fst <$> rawRoute) in
  let maxX := list_max (fst <$> rawRoute) in
  let minZ := list_min (snd <$> rawRoute) in
  let maxZ := list_max (snd <$> rawRoute) in
  let spanX := maxX - minX in
  let spanZ := maxZ - minZ in
  let maxSpan := Rmax spanX spanZ in
  let scale := TARGET_SPAN / maxSpan in
  let cx := (minX + maxX) / 2 in
  let cz := (minZ + maxZ) / 2 in
  {| pr_gameRoute := to_game cx cz scale <$> rawRoute;
     pr_gameStops :=
       (λ s, {| gs_lat := bs_lat s; gs_lon := bs_lon s; gs_name := bs_name s;
                gs_gamePos :=
                  to_game cx cz scale (project lat0 lng0 cosLat (bs_lat s) (bs_lon s)) |})
         <$> busStopsLatLng;
     pr_scale := scale; pr_cx := cx; pr_cz := cz;
     pr_cosLat := cosLat; pr_lat0 := lat0; pr_lng0 := lng0 |}.

(** ** Junctions and side-road stubs *)

Record Roundabout := {
  ra_name : string;
  ra_lat : R;
  ra_lon : R;
  ra_radiusM : R
}.

Definition MANUAL_ROUNDABOUTS : list Roundabout :=
  [ {| ra_name := "Parliament Square"; ra_lat := 51.5005; ra_lon := -0.1264;
       ra_radiusM := 35 |};
    {| ra_name := "Trafalgar Square"; ra_lat := 51.5063; ra_lon := -0.1285;
       ra_radiusM := 30 |} ].

Record Junction := {
  j_x : R;
  j_z : R;
  j_radius : R;
  j_name : string;
  j_arms : nat
}.

Record SideRoad := {
  sr_x : R;
  sr_z : R;
  sr_angle : R;
  sr_length : R
}.

Definition MIN_STUB_SPACING : R := 15.

(** [a % m] for [a >= 0] and [m > 0]. *)
Definition fmod (a m : R) : R := a - m * floor (a / m).

Definition junction_of (pr : Projection) (rb : Roundabout) : Junction :=
  let raw := project (pr_lat0 pr) (pr_lng0 pr) (pr_cosLat pr) (ra_lat rb) (ra_lon rb) in
  let g := to_game (pr_cx pr) (pr_cz pr) (pr_scale pr) raw in
  {| j_x := g.1; j_z := g.2; j_radius := round1 (ra_radiusM rb * pr_scale pr);
     j_name := ra_name rb; j_arms := 4 |}.

(** The unrounded game position of a node. *)
Definition game_pos (pr : Projection) (n : R * R) : point :=
  let raw := project (pr_lat0 pr) (pr_lng0 pr) (pr_cosLat pr) n.1 n.2 in
  ((raw.1 - pr_cx pr) * pr_scale pr, (raw.2 - pr_cz pr) * pr_scale pr).

(** The body of the loop over the edges of a route node. *)
Definition stub_step (nodes : gmap Z (R * R)) (routeNodeSet : gset Z) (pr : Projection)
    (junctions : list Junction) (routeNode : R * R) (stubs : list SideRoad) (edge : Edge)
    : list SideRoad :=
  if decide (e_to edge ∈ routeNodeSet) then stubs
  else
    match nodes !! e_to edge with
    | None => stubs
    | Some targetNode =>
        let from := game_pos pr routeNode in
        let to := game_pos pr targetNode in
        let sdx := to.1 - from.1 in
        let sdz := to.2 - from.2 in
        let sideLen := hypot sdx sdz in
        if decide (sideLen < 2) then stubs
        else
          let angle := atan2 sdx sdz in
          if existsb (λ existing,
                        bool_decide (hypot (from.1 - sr_x existing) (from.2 - sr_z existing)
                                     < MIN_STUB_SPACING)) stubs
          then stubs
          else if existsb (λ j, bool_decide (hypot (from.1 - j_x j) (from.2 - j_z j)
                                             < j_radius j + 5)) junctions
          then stubs
          else
            let stubLen := 20 + round (fmod (Rabs (from.1 * 7 + from.2 * 13)) 15) in
            stubs ++ [ {| sr_x := round1 from.1; sr_z := round1 from.2;
                          sr_angle := round (angle * 1000) / 1000;
                          sr_length := stubLen |} ]
    end.

Definition detectJunctionsAndStubs (nodes : gmap Z (R * R)) (adj : gmap Z (list Edge))
    (fullNodePath : list Z) (pr : Projection) : list Junction * list SideRoad :=
  let routeNodeSet : gset Z := list_to_set fullNodePath in
  let junctions := junction_of pr <$> MANUAL_ROUNDABOUTS in
  let stubs :=
    fold_left (λ stubs nodeId,
                 match adj !! nodeId, nodes !! nodeId with
                 | Some edges, Some routeNode =>
                     fold_left (stub_step nodes routeNodeSet pr junctions routeNode)
                               edges stubs
                 | _, _ => stubs
                 end) fullNodePath [] in
  (junctions, take 20 stubs).

(** ** The emitted file *)



Definition join_comma (items : list string) : string :=
  match items with
  | [] => ""%string
  | l :: rest => fold_left (λ acc s, acc +:+ ", " +:+ s) rest l
  end.

(** [s.replace(/'/g, "\\'")]. *)
Fixpoint escape_quotes (s : string) : string :=
  match s with
  | EmptyString => EmptyString
  | String c rest =>
      if Ascii.eqb c "'" then String "\" (String "'" (escape_quotes rest))
      else String c (escape_quotes rest)
  end.

(** [route.slice(i, i + 5)] for [i = 0, 5, 10, ...]. *)
Fixpoint chunks5 (fuel : nat) (route : list point) : list (list point) :=
  match fuel, route with
  | S fuel', _ :: _ => take 5 route :: chunks5 fuel' (drop 5 route)
  | _, _ => []
  end.

Section Emit.
(** The conversion of a number to text inside a template literal
    (ECMAScript [Number::toString]), and the text that
    [new Date().toISOString()] returns when the file is written. *)
Variable numToString : R → string.
Variable now : string.

Definition routeLines (route : list point) : list string :=
  (λ chunk, "  " +:+
            join_comma ((λ p, "[" +:+ numToString p.1 +:+ ", " +:+ numToString p.2 +:+ "]")
                          <$> chunk) +:+ ",")
    <$> chunks5 (length route) route.







End Emit.

(** ** The run *)








(** ** Douglas-Peucker simplification *)

(** [perpDist]: the distance from [(px, pz)] to the segment from
    [(ax, az)] to [(bx, bz)]. *)
Definition perpDist (px pz ax az bx bz : R) : R :=
  let dx := bx - ax in
  let dz := bz - az in
  let lenSq := dx * dx + dz * dz in
  if decide (lenSq = 0) then hypot (px - ax) (pz - az)
  else
    let t := ((px - ax) * dx + (pz - az) * dz) / lenSq in
    let t := Rmax 0 (Rmin 1 t) in
    hypot (px - (ax + t * dx)) (pz - (az + t * dz)).

(** The body of the scan for the interior point farthest from the chord;
    the state is [(maxDist, maxIdx)]. *)
Definition farthest_step (points : list point) (st : R * nat) (i : nat) : R * nat :=
  let a := at_index points 0 in
  let b := at_index points (length points - 1) in
  let d := perpDist (at_index points i).1 (at_index points i).2 a.1 a.2 b.1 b.2 in
  if decide (st.1 < d) then (d, i) else st.

(** [for (let i = 1; i < points.length - 1; i++)], from [(0, 0)]. *)
Definition farthest (points : list point) : R * nat :=
  fold_left (farthest_step points) (seq 1 (length points - 2)) (0, 0%nat).

(** [douglasPeucker], with [fuel] bounding the depth of the recursion;
    [None] means that the bound was reached. *)
Fixpoint douglasPeucker (fuel : nat) (points : list point) (epsilon : R)
    : option (list point) :=
  if decide (length points ≤ 2)%nat then Some points
  else
    match fuel with
    | O => None
    | S fuel' =>
        let '(maxDist, maxIdx) := farthest points in
        if decide (epsilon < maxDist) then
          left ← douglasPeucker fuel' (take (maxIdx + 1) points) epsilon;
          right ← douglasPeucker fuel' (drop maxIdx points) epsilon;
          Some (take (length left - 1) left ++ right)
        else Some [at_index points 0; at_index points (length points - 1)]
    end.

(** ** Maximum gap between consecutive waypoints *)

(** The scan of [enforceMaxGap] for the index of the point of [fullRoute]
    closest to [(x, z)]; the state is [(bestIdx, bestDist)], from
    [(0, Infinity)]. *)
Fixpoint closest_from (x z : R) (fullRoute : list point) (j : nat)
    (best : nat * option R) : nat * option R :=
  match fullRoute with
  | [] => best
  | q :: rest =>
      let d := hypot (q.1 - x) (q.2 - z) in
      let best' :=
        match best.2 with
        | None => (j, Some d)
        | Some bestDist => if decide (d < bestDist) then (j, Some d) else best
        end in
      closest_from x z rest (S j) best'
  end.

Definition closest_index (fullRoute : list point) (p : point) : nat :=
  (closest_from p.1 p.2 fullRoute 0 (0%nat, None)).1.

(** The body of the loop that walks [fullRoute] between two simplified
    points; the state is [(result, accum)]. *)
Definition gap_fill_step (fullRoute : list point) (maxGap : R)
    (st : list point * R) (j : nat) : list point * R :=
  let segDist :=
    hypot ((at_index fullRoute j).1 - (at_index fullRoute (j - 1)).1)
          ((at_index fullRoute j).2 - (at_index fullRoute (j - 1)).2) in
  let accum := st.2 + segDist in
  if decide (maxGap * 0.8 <= accum) then (st.1 ++ [at_index fullRoute j], 0)
  else (st.1, accum).

(** The body of the loop over the simplified points, at index [i]. *)
Definition gap_step (simplified : list point) (simToFull : list nat)
    (fullRoute : list point) (maxGap : R) (result : list point) (i : nat) : list point :=
  let prev := at_index result (length result - 1) in
  let curr := at_index simplified i in
  let gap := hypot (curr.1 - prev.1) (curr.2 - prev.2) in
  let result :=
    if decide (maxGap < gap) then
      let fullStart := nth (i - 1) simToFull 0%nat in
      let fullEnd := nth i simToFull 0%nat in
      if decide (fullStart < fullEnd)%nat then
        (fold_left (gap_fill_step fullRoute maxGap)
                   (seq (fullStart + 1) (fullEnd - (fullStart + 1))) (result, 0)).1
      else result
    else result in
  result ++ [curr].

(** [enforceMaxGap].  The result starts as [[simplified[0]]], which on an
    empty [simplified] is the one-element array [[undefined]]: [None]
    stands for that entry. *)
Definition enforceMaxGap (simplified fullRoute : list point) (maxGap : R)
    : list (option point) :=
  match simplified with
  | [] => [None]
  | first :: _ =>
      let simToFull := closest_index fullRoute <$> simplified in
      Some <$> fold_left (gap_step simplified simToFull fullRoute maxGap)
                         (seq 1 (length simplified - 1)) [first]
  end.

(** ** The bounding box written to the file *)

(** [bounds] of [writeRouteData]: the extent of the route padded by
    [BOUNDS_PADDING] and rounded outwards; [Math.ceil x] is
    [- Math.floor (- x)]. *)
Record Bounds := {
  b_minX : R;
  b_maxX : R;
  b_minZ : R;
  b_maxZ : R
}.

Definition bounds (route : list point) : Bounds :=
  let xs := fst <$> route in
  let zs := snd <$> route in
  {| b_minX := floor (list_min xs - BOUNDS_PADDING);
     b_maxX := - floor (- (list_max xs + BOUNDS_PADDING));
     b_minZ := floor (list_min zs - BOUNDS_PADDING);
     b_maxZ := - floor (- (list_max zs + BOUNDS_PADDING)) |}.

(** ** Fetching the extract *)

(** What one call of [fetch] comes to: its promise rejects, or it resolves
    to a response with a [status], whose [json()] resolves to [body] or
    rejects ([None]). *)
Inductive FetchReply (D : Type) : Type :=
  | FetchFails
  | Response (status : Z) (body : option D).
Arguments FetchFails {D}.
Arguments Response {D} status body.

(** [res.ok]: the status is in the range 200 to 299. *)
Definition response_ok (status : Z) : bool :=
  (200 <=? status)%Z && (status <=? 299)%Z.

(** How the promise of [fetchOverpass] settles: it resolves to the parsed
    body, or to [undefined] ([Resolves None]) when the loop runs out, or it
    rejects. *)
Inductive FetchResult (D : Type) : Type :=
  | Resolves (data : option D)
  | Rejects.
Arguments Resolves {D} data.
Arguments Rejects {D}.

(** A run of [fetchOverpass]: how it settles, the number of calls of
    [fetch], and the delays it waited for, in milliseconds. *)
Record FetchRun (D : Type) : Type := {
  fr_result : FetchResult D;
  fr_requests : nat;
  fr_waits : list Z
}.
Arguments fr_result {D} _.
Arguments fr_requests {D} _.
Arguments fr_waits {D} _.

(** [for (let attempt = 1; attempt <= retries; attempt++)], by recursion on
    the number [left] of attempts not yet made; [server attempt] is the
    reply to the request of that attempt.  A status of 429 or 504 waits and
    goes on to the next attempt; an error thrown inside the [try] is
    rethrown on the last attempt and waited out otherwise.  [res.json()] is
    returned without [await], so its rejection is not caught. *)
Fixpoint fetch_attempts {D : Type} (server : nat → FetchReply D) (retries : nat)
    (left attempt : nat) (waits : list Z) : FetchRun D :=
  match left with
  | O => {| fr_result := Resolves None; fr_requests := attempt - 1; fr_waits := waits |}
  | S left' =>
      let caught :=
        if decide (attempt = retries)
        then {| fr_result := Rejects; fr_requests := attempt; fr_waits := waits |}
        else fetch_attempts server retries left' (S attempt)
               (waits ++ [(Z.of_nat attempt * 3000)%Z]) in
      match server attempt with
      | FetchFails => caught
      | Response status body =>
          if decide (status = 429 ∨ status = 504)%Z
          then fetch_attempts server retries left' (S attempt)
                 (waits ++ [(Z.of_nat attempt * 5000)%Z])
          else if response_ok status
          then {| fr_result := match body with
                               | Some data => Resolves (Some data)
                               | None => Rejects
                               end;
                  fr_requests := attempt; fr_waits := waits |}
          else caught
      end
  end.

Definition fetchOverpass {D : Type} (server : nat → FetchReply D) (retries : nat)
    : FetchRun D :=
  fetch_attempts server retries retries 1 [].

(** ** Deciding comparisons on concrete numbers *)

Lemma hypot_nonneg a b : 0 <= hypot a b.
Proof. apply sqrt_pos. Qed.

Lemma hypot_sqr a b : hypot a b * hypot a b = a * a + b * b.
Proof. unfold hypot. apply sqrt_sqrt. nra. Qed.

Lemma hypot_le_iff a b c : 0 <= c → hypot a b <= c ↔ a * a + b * b <= c * c.
Proof.
  intros Hc. pose proof (hypot_nonneg a b). pose proof (hypot_sqr a b). split; intros; nra.
Qed.

Lemma hypot_lt_iff a b c : 0 <= c → hypot a b < c ↔ a * a + b * b < c * c.
Proof.
  intros Hc. pose proof (hypot_nonneg a b). pose proof (hypot_sqr a b). split; intros; nra.
Qed.

Lemma hypot_lt_hypot_iff a b c d :
  hypot a b < hypot c d ↔ a * a + b * b < c * c + d * d.
Proof.
  pose proof (hypot_nonneg a b). pose proof (hypot_sqr a b).
  pose proof (hypot_nonneg c d). pose proof (hypot_sqr c d). split; intros; nra.
Qed.

Lemma hypot_le_hypot_iff a b c d :
  hypot a b <= hypot c d ↔ a * a + b * b <= c * c + d * d.
Proof.
  pose proof (hypot_nonneg a b). pose proof (hypot_sqr a b).
  pose proof (hypot_nonneg c d). pose proof (hypot_sqr c d). split; intros; nra.
Qed.

Lemma lt_hypot_iff a b c : 0 <= c → c < hypot a b ↔ c * c < a * a + b * b.
Proof.
  intros Hc. pose proof (hypot_nonneg a b). pose proof (hypot_sqr a b). split; intros; nra.
Qed.

Lemma le_hypot_iff a b c : 0 <= c → c <= hypot a b ↔ c * c <= a * a + b * b.
Proof.
  intros Hc. pose proof (hypot_nonneg a b). pose proof (hypot_sqr a b). split; intros; nra.
Qed.

Lemma hypot_eq a b c : 0 <= c → a * a + b * b = c * c → hypot a b = c.
Proof.
  intros Hc Heq. pose proof (hypot_nonneg a b). pose proof (hypot_sqr a b). nra.
Qed.

(** Closes a comparison between constants and [hypot]s of constants. *)
Ltac real_cmp_pos :=
  first
    [ lra
    | apply hypot_lt_hypot_iff; lra
    | apply hypot_le_hypot_iff; lra
    | apply hypot_lt_iff; lra
    | apply hypot_le_iff; lra
    | apply lt_hypot_iff; lra
    | apply le_hypot_iff; lra ].

Ltac real_cmp :=
  unfold pdist, dist2d, at_index, MIN_STOP_SPACING, STOP_MATCH_RADIUS, SAMPLE_INTERVAL;
  simpl;
  first
    [ real_cmp_pos
    | apply Rle_not_lt; real_cmp_pos
    | apply Rlt_not_le; real_cmp_pos ].

(** Resolves every [decide] and [bool_decide] on reals in the goal. *)
Ltac real_decide :=
  repeat match goal with
    | |- context [decide ?P] =>
        first [ rewrite (decide_True (P := P)) by real_cmp
              | rewrite (decide_False (P := P)) by real_cmp ]
    | |- context [bool_decide ?P] =>
        first [ rewrite (bool_decide_eq_true_2 P) by real_cmp
              | rewrite (bool_decide_eq_false_2 P) by real_cmp ]
    end.

(** * Properties *)

(** ** Lists: adjacent pairs, stable sorting *)

(** [adjacent P l]: every two neighbours of [l] are related by [P]. *)
Definition adjacent {A : Type} (P : A → A → Prop) (l : list A) : Prop :=
  ∀ i a b, l !! i = Some a → l !! S i = Some b → P a b.

Section Adjacent.
Context {A : Type} (P : A → A → Prop).

Lemma adjacent_nil : adjacent P [].
Proof. intros i a b H. by rewrite lookup_nil in H. Qed.

Lemma adjacent_singleton x : adjacent P [x].
Proof. intros [|i] a b _ H; simpl in H; by rewrite ?lookup_nil in H. Qed.

Lemma adjacent_snoc l x :
  adjacent P l → (∀ a, last l = Some a → P a x) → adjacent P (l ++ [x]).
Proof.
  intros Hl Hx i a b Ha Hb.
  destruct (decide (S i < length l)%nat) as [Hlt|Hge].
  - rewrite lookup_app_l in Ha by lia. rewrite lookup_app_l in Hb by lia. eauto.
  - assert (Hi : S i = length l).
    { apply lookup_lt_Some in Hb. rewrite length_app in Hb. simpl in Hb. lia. }
    rewrite lookup_app_l in Ha by lia.
    rewrite Hi, list_lookup_middle in Hb by done. injection Hb as <-.
    apply Hx. rewrite last_lookup. by replace (pred (length l)) with i by lia.
Qed.

Lemma adjacent_take n l : adjacent P l → adjacent P (take n l).
Proof.
  intros Hl i a b Ha Hb.
  apply lookup_take_Some in Ha as [Ha _]. apply lookup_take_Some in Hb as [Hb _].
  eauto.
Qed.

Lemma adjacent_strongly_sorted l : StronglySorted P l → adjacent P l.
Proof.
  induction 1 as [|x l Hs IH Hx]; [apply adjacent_nil|].
  intros [|i] a b Ha Hb; simpl in *.
  - injection Ha as <-. rewrite Forall_forall in Hx. apply Hx.
    eapply list_elem_of_lookup_2, Hb.
  - eauto.
Qed.
End Adjacent.

Lemma adjacent_fmap {A B : Type} (f : A → B) (P : B → B → Prop) (l : list A) :
  adjacent (λ a b, P (f a) (f b)) l ↔ adjacent P (f <$> l).
Proof.
  split.
  - intros H i a b Ha Hb. rewrite list_lookup_fmap in Ha, Hb.
    destruct (l !! i) as [a'|] eqn:Ea; [|done].
    destruct (l !! S i) as [b'|] eqn:Eb; [|done].
    simpl in *. injection Ha as <-. injection Hb as <-. eauto.
  - intros H i a b Ha Hb. apply (H i); rewrite list_lookup_fmap; by simplify_option_eq.
Qed.

Lemma adjacent_and {A : Type} (P Q : A → A → Prop) (l : list A) :
  adjacent P l → adjacent Q l → adjacent (λ a b, P a b ∧ Q a b) l.
Proof. intros HP HQ i a b Ha Hb. split; eauto. Qed.

Lemma strongly_sorted_sublist {A : Type} (P : A → A → Prop) (l k : list A) :
  l `sublist_of` k → StronglySorted P k → StronglySorted P l.
Proof.
  induction 1 as [|x l k Hsub IH|x l k Hsub IH]; intros Hk.
  - constructor.
  - apply StronglySorted_cons in Hk as [Hx Hk]. apply StronglySorted_cons. split; [|auto].
    rewrite Forall_forall in *. intros y Hy. apply Hx. by eapply elem_of_sublist.
  - apply StronglySorted_cons in Hk as [_ Hk]. auto.
Qed.

Section StableSortFacts.
Context {A : Type} (key : A → nat).

Lemma insert_by_perm x l : insert_by key x l ≡ₚ x :: l.
Proof.
  induction l as [|y l IH]; simpl; [done|].
  case_match; [done|]. rewrite IH. apply Permutation_swap.
Qed.

Lemma sort_by_perm l : sort_by key l ≡ₚ l.
Proof.
  induction l as [|x l IH]; simpl; [done|].
  rewrite insert_by_perm. by rewrite IH.
Qed.

Lemma insert_by_sorted x l :
  StronglySorted (λ a b, key a ≤ key b)%nat l →
  StronglySorted (λ a b, key a ≤ key b)%nat (insert_by key x l).
Proof.
  induction 1 as [|y l Hs IH Hy]; simpl.
  - repeat constructor.
  - rewrite Forall_forall in Hy.
    destruct (key x <=? key y)%nat eqn:E.
    + apply Nat.leb_le in E. constructor; [by constructor; [|apply Forall_forall]|].
      constructor; [done|]. apply Forall_forall. intros z Hz. specialize (Hy z Hz). lia.
    + apply Nat.leb_gt in E. constructor; [done|].
      apply Forall_forall. intros z Hz.
      rewrite insert_by_perm in Hz. apply elem_of_cons in Hz as [->|Hz]; [lia|auto].
Qed.

Lemma sort_by_sorted l : StronglySorted (λ a b, key a ≤ key b)%nat (sort_by key l).
Proof. induction l; simpl; [constructor|by apply insert_by_sorted]. Qed.

(** With pairwise different keys the order is strict. *)
Lemma sort_by_strict l :
  NoDup (key <$> l) → StronglySorted (λ a b, key a < key b)%nat (sort_by key l).
Proof.
  intros Hnd. assert (Hnd' : NoDup (key <$> sort_by key l)) by by rewrite sort_by_perm.
  pose proof (sort_by_sorted l) as Hs.
  induction Hs as [|x k Hs IH Hx]; [constructor|].
  rewrite fmap_cons in Hnd'. apply NoDup_cons in Hnd' as [Hnotin Hnd'].
  constructor; [auto|].
  rewrite Forall_forall in *. intros y Hy. specialize (Hx y Hy).
  assert (key x ≠ key y); [|lia].
  intros Heq. apply Hnotin. rewrite Heq. by apply list_elem_of_fmap_2.
Qed.
End StableSortFacts.

(** ** Stop matching: deduplication *)

(** Survivors of the dedup loop lie at least a window apart. *)
Definition gapped (l : list Candidate) : Prop :=
  StronglySorted (λ a b, c_idx a + 3 ≤ c_idx b)%nat l.

Lemma near_idx_spec c d :
  (c_idx d ≤ c_idx c)%nat → near_idx c d ↔ (c_idx c < c_idx d + 3)%nat.
Proof. unfold near_idx, DEDUP_WINDOW. lia. Qed.

Lemma gapped_replace_near deduped c i nearby :
  gapped deduped →
  Forall (λ d, c_idx d ≤ c_idx c)%nat deduped →
  list_find (near_idx c) deduped = Some (i, nearby) →
  <[i := c]> deduped = take i deduped ++ [c] ∧ gapped (<[i := c]> deduped).
Proof.
  intros Hg Hle Hfind.
  apply list_find_Some in Hfind as (Hi & Hnear & _).
  pose proof (take_drop_middle _ _ _ Hi) as Hsplit.
  assert (Hlen : length (take i deduped) = i).
  { apply length_take_le. apply lookup_lt_Some in Hi. lia. }
  rewrite <- Hsplit in Hg, Hle.
  apply Forall_app in Hle as [_ Hle]. apply Forall_cons in Hle as [Hnb Hle].
  apply near_idx_spec in Hnear; [|done].
  apply StronglySorted_app in Hg as (Hcross & Hg1 & Hg2).
  apply StronglySorted_cons in Hg2 as [Hafter _].
  assert (Hnil : drop (S i) deduped = []).
  { destruct (drop (S i) deduped) as [|d rest]; [done|].
    apply Forall_cons in Hafter as [Hd _]. apply Forall_cons in Hle as [Hd' _]. lia. }
  assert (Heq : <[i := c]> deduped = take i deduped ++ [c]).
  { rewrite <- Hsplit at 1. rewrite Hnil.
    replace i with (length (take i deduped) + 0)%nat at 1 by lia.
    by rewrite insert_app_r. }
  split; [done|]. rewrite Heq. apply StronglySorted_app. split_and!; [|done|repeat constructor].
  intros x1 x2 Hx1 ->%list_elem_of_singleton.
  specialize (Hcross x1 nearby Hx1 ltac:(left)). simpl in Hcross. lia.
Qed.

Lemma dedup_step_gapped deduped c :
  gapped deduped →
  Forall (λ d, c_idx d ≤ c_idx c)%nat deduped →
  gapped (dedup_step deduped c) ∧
  Forall (λ d, c_idx d ≤ c_idx c)%nat (dedup_step deduped c).
Proof.
  intros Hg Hle. unfold dedup_step.
  destruct (list_find (near_idx c) deduped) as [[i nearby]|] eqn:Hfind.
  - destruct (gapped_replace_near _ _ _ _ Hg Hle Hfind) as [Heq Hg'].
    assert (Hle' : Forall (λ d, c_idx d ≤ c_idx c)%nat (<[i := c]> deduped)).
    { rewrite Heq. apply Forall_app. split; [|by repeat constructor].
      apply Forall_take. done. }
    repeat case_match; done.
  - rewrite list_find_None in Hfind. split.
    + apply StronglySorted_app. split_and!; [|done|repeat constructor].
      intros x1 x2 Hx1 ->%list_elem_of_singleton.
      rewrite Forall_forall in Hfind, Hle.
      specialize (Hfind x1 Hx1). specialize (Hle x1 Hx1).
      rewrite near_idx_spec in Hfind by done. lia.
    + apply Forall_app. split; [done|]. by repeat constructor.
Qed.

Lemma dedup_fold_gapped candidates deduped :
  StronglySorted (λ a b, c_idx a ≤ c_idx b)%nat candidates →
  gapped deduped →
  (∀ d c, d ∈ deduped → c ∈ candidates → c_idx d ≤ c_idx c)%nat →
  gapped (fold_left dedup_step candidates deduped).
Proof.
  revert deduped. induction candidates as [|c cs IH]; intros deduped Hs Hg Hle; [done|].
  apply StronglySorted_cons in Hs as [Hc Hs]. simpl.
  destruct (dedup_step_gapped deduped c Hg) as [Hg' Hle'].
  { apply Forall_forall. intros d Hd. apply Hle; [done|left]. }
  apply IH; [done..|].
  intros d c' Hd Hc'. rewrite Forall_forall in Hle', Hc.
  specialize (Hle' d Hd). specialize (Hc c' Hc'). simpl in *. lia.
Qed.

Lemma dedup_gapped candidates :
  StronglySorted (λ a b, c_idx a ≤ c_idx b)%nat candidates → gapped (dedup candidates).
Proof.
  intros Hs. apply dedup_fold_gapped; [done|constructor|].
  intros d c Hd. by apply elem_of_nil in Hd.
Qed.

(** ** Stop matching: minimum spacing *)

(** Route indices [a] then [b] are far enough apart for two stops. *)
Definition spaced (route : list point) (a b : nat) : Prop :=
  MIN_STOP_SPACING <= pdist (at_index route b) (at_index route a).

(** The property of a stop list: indices go up strictly and neighbours are
    at least [MIN_STOP_SPACING] apart on the route. *)
Definition ordered_and_spaced (route : list point) (idxs : list nat) : Prop :=
  adjacent (λ a b, (a < b)%nat ∧ spaced route a b) idxs.

Section Spacing.
Context {A : Type} (idx : A → nat) (route : list point).

Lemma spacing_fold l selected :
  ∃ kept, fold_left (spacing_step idx route) l selected = selected ++ kept ∧
          kept `sublist_of` l.
Proof.
  revert selected. induction l as [|c l IH]; intros selected; simpl.
  - exists []. by rewrite app_nil_r.
  - assert (Hstep : spacing_step idx route selected c = selected ++ [c] ∨
                    spacing_step idx route selected c = selected).
    { unfold spacing_step. repeat case_match; auto. }
    destruct Hstep as [-> | ->].
    + destruct (IH (selected ++ [c])) as (kept & -> & Hsub).
      exists (c :: kept). rewrite <- app_assoc. split; [done|]. by constructor.
    + destruct (IH selected) as (kept & -> & Hsub).
      exists kept. split; [done|]. by constructor.
Qed.

Lemma spacing_step_adjacent selected c :
  adjacent (λ a b, spaced route (idx a) (idx b)) selected →
  adjacent (λ a b, spaced route (idx a) (idx b)) (spacing_step idx route selected c).
Proof.
  intros Hsel. unfold spacing_step.
  destruct (last selected) as [l|] eqn:Hlast.
  - case_decide as Hsp; [|done].
    apply adjacent_snoc; [done|]. intros a Ha. rewrite Hlast in Ha. by injection Ha as <-.
  - apply last_None in Hlast as ->. apply adjacent_singleton.
Qed.

Lemma spacing_fold_adjacent l selected :
  adjacent (λ a b, spaced route (idx a) (idx b)) selected →
  adjacent (λ a b, spaced route (idx a) (idx b))
           (fold_left (spacing_step idx route) l selected).
Proof.
  revert selected. induction l as [|c l IH]; intros selected Hsel; [done|].
  simpl. by apply IH, spacing_step_adjacent.
Qed.

(** From a strictly increasing input the loop selects an ordered and
    spaced list. *)
Lemma spacing_fold_ok first rest n :
  StronglySorted (λ a b, idx a < idx b)%nat (first ++ rest) →
  adjacent (λ a b, spaced route (idx a) (idx b)) first →
  ordered_and_spaced route
    (idx <$> take n (fold_left (spacing_step idx route) rest first)).
Proof.
  intros Hs Hfirst. unfold ordered_and_spaced.
  apply (adjacent_fmap idx (λ a b, (a < b)%nat ∧ spaced route a b)).
  apply adjacent_take, adjacent_and.
  - apply adjacent_strongly_sorted.
    destruct (spacing_fold rest first) as (kept & -> & Hsub).
    eapply strongly_sorted_sublist; [|exact Hs]. by apply sublist_app.
  - by apply spacing_fold_adjacent.
Qed.
End Spacing.

Lemma gapped_strict l : gapped l → StronglySorted (λ a b, c_idx a < c_idx b)%nat l.
Proof.
  induction 1 as [|x l Hs IH Hx]; constructor; [done|].
  eapply Forall_impl; [exact Hx|]. simpl. lia.
Qed.

Lemma matchBusStops_ok route gameStops matchRadius :
  ordered_and_spaced route (c_idx <$> matchBusStops route gameStops matchRadius).
Proof.
  unfold matchBusStops. apply (spacing_fold_ok c_idx route []).
  - simpl. apply gapped_strict, dedup_gapped, sort_by_sorted.
  - apply adjacent_nil.
Qed.

(** ** Stop synthesis *)

(** With a stride of 0 on a route of more than one point the loop that
    synthesizes stops never ends; with a positive stride it ends within
    [routeLen] turns. *)
Lemma synthetic_loop_stuck fuel routeLen synthetic :
  (1 < routeLen)%nat → synthetic_loop fuel routeLen 0 0 synthetic = None.
Proof.
  intros Hlen. revert synthetic.
  induction fuel as [|fuel IH]; intros synthetic; cbn [synthetic_loop];
    (case_decide; [|lia]).
  - done.
  - apply IH.
Qed.

Lemma synthetic_loop_ends fuel routeLen interval i synthetic :
  (0 < interval)%nat → (routeLen ≤ i + 1 + fuel * interval)%nat →
  is_Some (synthetic_loop fuel routeLen interval i synthetic).
Proof.
  intros Hpos. revert i synthetic.
  induction fuel as [|fuel IH]; intros i synthetic Hfuel; cbn [synthetic_loop];
    (case_decide; [|by eauto]).
  - lia.
  - apply IH. lia.
Qed.

Lemma synthesize_hangs_iff finalRoute labels matchedStops :
  synthesize finalRoute labels matchedStops = LoopsForever ↔
  (length finalRoute / 8 = 0 ∧ 1 < length finalRoute)%nat.
Proof.
  unfold synthesize. case_decide as Hzero; [done|]. split; [|done].
  destruct (decide (length finalRoute / 8 = 0)%nat) as [Hz|Hnz].
  - assert (Hshort : (length finalRoute ≤ 1)%nat) by lia.
    assert (synthetic_loop (length finalRoute) (length finalRoute)
              (length finalRoute / 8) 0 [] = Some []) as ->.
    { destruct (length finalRoute) as [|n]; cbn [synthetic_loop];
        (case_decide; [lia|done]). }
    by destruct (sort_by _ _).
  - destruct (synthetic_loop_ends (length finalRoute) (length finalRoute)
                (length finalRoute / 8) 0 []) as [synthetic ->]; [lia|nia|].
    by destruct (sort_by _ _).
Qed.

Lemma assignStreetNames_idx stops labels :
  s_idx <$> assignStreetNames stops labels = s_idx <$> stops.
Proof.
  unfold assignStreetNames. induction stops as [|s stops IH]; [done|].
  rewrite !fmap_cons. f_equal; [|exact IH]. by case_match.
Qed.

Lemma merge_fold_nodup synthetic acc (seen : gset nat) :
  NoDup (s_idx <$> acc) →
  (∀ i, i ∈ seen ↔ i ∈ s_idx <$> acc) →
  NoDup (s_idx <$> (fold_left merge_step synthetic (acc, seen)).1).
Proof.
  revert acc seen. induction synthetic as [|s l IH]; intros acc seen Hnd Hseen; [done|].
  simpl. unfold merge_step at 2. simpl. case_decide as Hin; [by apply IH|].
  apply IH.
  - rewrite fmap_app. simpl. apply NoDup_app. split_and!; [done| |apply NoDup_singleton].
    intros x Hx ->%list_elem_of_singleton. by apply Hin, Hseen.
  - intros i. rewrite fmap_app, elem_of_app, elem_of_union, Hseen. simpl.
    rewrite elem_of_singleton, list_elem_of_singleton. tauto.
Qed.

Lemma strict_nodup (l : list nat) : StronglySorted lt l → NoDup l.
Proof.
  induction 1 as [|x l Hs IH Hx]; constructor; [|done].
  intros Hin. rewrite Forall_forall in Hx. specialize (Hx x Hin). lia.
Qed.

Lemma strongly_sorted_fmap {A B : Type} (f : A → B) (P : B → B → Prop) (l : list A) :
  StronglySorted (λ a b, P (f a) (f b)) l ↔ StronglySorted P (f <$> l).
Proof.
  induction l as [|x l IH]; [split; constructor|].
  rewrite fmap_cons, !StronglySorted_cons, IH, Forall_fmap. done.
Qed.

Lemma synthesize_ok finalRoute labels matchedStops stops :
  NoDup (s_idx <$> matchedStops) →
  synthesize finalRoute labels matchedStops = Done stops →
  ordered_and_spaced finalRoute (s_idx <$> stops).
Proof.
  intros Hnd. unfold synthesize. case_decide; [done|].
  destruct (synthetic_loop _ _ _ _ _) as [synthetic|]; [|done].
  set (merged := (fold_left merge_step _ _).1).
  assert (Hm : NoDup (s_idx <$> merged)).
  { apply merge_fold_nodup; [done|]. intros i. by rewrite elem_of_list_to_set. }
  pose proof (sort_by_strict s_idx merged Hm) as Hs.
  destruct (sort_by s_idx merged) as [|first rest]; [done|].
  intros [= <-]. apply (spacing_fold_ok s_idx finalRoute [first]); [done|].
  apply adjacent_singleton.
Qed.

Lemma deduplicateStopNames_fold stops acc seen :
  s_idx <$> (fold_left dedup_name_step stops (acc, seen)).1 =
  (s_idx <$> acc) ++ (s_idx <$> stops).
Proof.
  revert acc seen. induction stops as [|s l IH]; intros acc seen; simpl.
  - by rewrite app_nil_r.
  - unfold dedup_name_step at 2. simpl. case_decide; rewrite IH, fmap_app, <- app_assoc; done.
Qed.

Lemma deduplicateStopNames_idx stops :
  s_idx <$> deduplicateStopNames stops = s_idx <$> stops.
Proof. unfold deduplicateStopNames. by rewrite deduplicateStopNames_fold. Qed.

Lemma matched_stops_idx route gameStops labels :
  s_idx <$> assignStreetNames
              (map stop_of_candidate (matchBusStops route gameStops STOP_MATCH_RADIUS)) labels
  = c_idx <$> matchBusStops route gameStops STOP_MATCH_RADIUS.
Proof.
  rewrite assignStreetNames_idx.
  change (map stop_of_candidate ?l) with (stop_of_candidate <$> l).
  by rewrite <- list_fmap_compose.
Qed.

Lemma matchBusStops_nodup route gameStops matchRadius :
  NoDup (c_idx <$> matchBusStops route gameStops matchRadius).
Proof.
  apply strict_nodup, (strongly_sorted_fmap c_idx lt).
  unfold matchBusStops.
  destruct (spacing_fold c_idx route
              (dedup (sort_by c_idx (collect_candidates route gameStops matchRadius))) [])
    as (kept & -> & Hsub).
  simpl. apply (strongly_sorted_sublist _ _ _ (transitivity (sublist_take _ _) Hsub)).
  apply gapped_strict, dedup_gapped, sort_by_sorted.
Qed.

(** C2. In the stop list produced by stop matching, both when enough stops
    match directly and when synthesized stops are merged in, route indices
    go up strictly and the route points of neighbouring stops are at least
    [MIN_STOP_SPACING] = 40 game units apart. *)
Theorem stops_ordered_and_spaced (finalRoute : list point) (gameStops : list GameStop)
    (labels : list string) :
  let matched := matchBusStops finalRoute gameStops STOP_MATCH_RADIUS in
  let named := assignStreetNames (map stop_of_candidate matched) labels in
  MIN_STOP_SPACING = 40 ∧
  ordered_and_spaced finalRoute (c_idx <$> matched) ∧
  (∀ stops, synthesize finalRoute labels named = Done stops →
            ordered_and_spaced finalRoute (s_idx <$> stops)) ∧
  (∀ stops, stop_stage finalRoute gameStops labels = Done stops →
            ordered_and_spaced finalRoute (s_idx <$> stops)).
Proof.
  intros matched named.
  assert (Hsyn : ∀ stops, synthesize finalRoute labels named = Done stops →
                          ordered_and_spaced finalRoute (s_idx <$> stops)).
  { intros stops. apply synthesize_ok. unfold named, matched.
    rewrite matched_stops_idx. apply matchBusStops_nodup. }
  split_and!; [done|apply matchBusStops_ok|done|].
  intros stops. unfold stop_stage. fold matched. fold named.
  case_decide.
  - destruct (synthesize finalRoute labels named) as [s| |] eqn:E; [|done..].
    intros [= <-]. rewrite deduplicateStopNames_idx. by apply Hsyn.
  - intros [= <-]. rewrite deduplicateStopNames_idx. unfold named, matched.
    rewrite matched_stops_idx. apply matchBusStops_ok.
Qed.

(** ** Deduplication of candidates: who survives *)

Lemma dedup_pair a b :
  near_idx b a →
  dedup [a; b] =
    [ if negb (truthy (c_name a)) && truthy (c_name b) then b
      else if truthy (c_name a) && truthy (c_name b) && bool_decide (c_dist b < c_dist a)
           then b else a ].
Proof.
  intros Hnear. unfold dedup. simpl. unfold dedup_step at 2. simpl.
  unfold dedup_step. simpl. rewrite decide_True by done. simpl.
  repeat case_match; done.
Qed.

(** C8, as the code has it.  After the dedup loop of [matchBusStops] no two
    surviving candidates have indices less than the window of 3 apart.  Of
    two candidates [a], [b] within the window ([a] first in index order)
    exactly one survives: the named one if only one has a name; the closer
    one if both have names ([a] on a tie); and [a], whatever the distances,
    if neither has a name. *)
Theorem dedup_window (a b : Candidate) (candidates : list Candidate)
    (Hnear : near_idx b a) :
  (∀ i j x y, i ≠ j →
     dedup (sort_by c_idx candidates) !! i = Some x →
     dedup (sort_by c_idx candidates) !! j = Some y →
     (3 ≤ Z.abs (Z.of_nat (c_idx x) - Z.of_nat (c_idx y)))%Z) ∧
  (truthy (c_name a) = false → truthy (c_name b) = true → dedup [a; b] = [b]) ∧
  (truthy (c_name a) = true → truthy (c_name b) = false → dedup [a; b] = [a]) ∧
  (truthy (c_name a) = true → truthy (c_name b) = true →
     dedup [a; b] = [if decide (c_dist b < c_dist a) then b else a]) ∧
  (truthy (c_name a) = false → truthy (c_name b) = false → dedup [a; b] = [a]).
Proof.
  split.
  - pose proof (dedup_gapped _ (sort_by_sorted c_idx candidates)) as Hg.
    set (l := dedup (sort_by c_idx candidates)) in *.
    assert (Hlt : ∀ i j x y, (i < j)%nat → l !! i = Some x → l !! j = Some y →
                             (c_idx x + 3 ≤ c_idx y)%nat).
    { intros i j x y Hij Hx Hy.
      rewrite <- (take_drop_middle _ _ _ Hy) in Hg, Hx.
      assert (length (take j l) = j).
      { apply length_take_le. apply lookup_lt_Some in Hy. lia. }
      rewrite lookup_app_l in Hx by lia.
      apply StronglySorted_app in Hg as (Hcross & _ & _).
      apply (Hcross x y); [by eapply list_elem_of_lookup_2|left]. }
    intros i j x y Hij Hx Hy.
    destruct (decide (i < j)%nat).
    + specialize (Hlt i j x y ltac:(lia) Hx Hy). lia.
    + specialize (Hlt j i y x ltac:(lia) Hy Hx). lia.
  - rewrite (dedup_pair a b Hnear). split_and!; intros -> ->; simpl; try done.
    unfold bool_decide. by destruct (decide_rel Rlt _ _); case_decide.
Qed.

Definition window_a : Candidate :=
  {| c_idx := 4; c_dist := 12; c_name := Some "Whitehall"%string; c_lat := 0; c_lon := 0 |}.
Definition window_b : Candidate :=
  {| c_idx := 5; c_dist := 7; c_name := Some "Horse Guards"%string; c_lat := 0; c_lon := 0 |}.

Lemma dedup_window_witness :
  near_idx window_b window_a ∧ dedup [window_a; window_b] = [window_b].
Proof.
  assert (Hnear : near_idx window_b window_a) by (unfold near_idx, DEDUP_WINDOW; simpl; lia).
  split; [exact Hnear|].
  destruct (dedup_window window_a window_b [] Hnear) as (_ & _ & _ & Hboth & _).
  rewrite Hboth by reflexivity. simpl. rewrite decide_True; [done|lra].
Defined.

(** Two unnamed stops beside a straight piece of route: the first lies 10
    units from route point 0, the second 1 unit from route point 1. *)
Definition straight3 : list point := [(0, 0); (25, 0); (50, 0)].
Definition far_unnamed : GameStop :=
  {| gs_lat := 51.5; gs_lon := -0.12; gs_name := None; gs_gamePos := (0, 10) |}.
Definition close_unnamed : GameStop :=
  {| gs_lat := 51.5; gs_lon := -0.13; gs_name := None; gs_gamePos := (25, 1) |}.
Definition far_candidate : Candidate :=
  {| c_idx := 0; c_dist := dist2d 0 10 0 0; c_name := None;
     c_lat := 51.5; c_lon := -0.12 |}.
Definition close_candidate : Candidate :=
  {| c_idx := 1; c_dist := dist2d 25 1 25 0; c_name := None;
     c_lat := 51.5; c_lon := -0.13 |}.

(** C8 as stated fails: of two unnamed candidates one index apart, the one
    that survives is the first, although the second is closer to its stop. *)
Lemma dedup_keeps_farther_unnamed :
  sort_by c_idx (collect_candidates straight3 [far_unnamed; close_unnamed] STOP_MATCH_RADIUS)
    = [far_candidate; close_candidate] ∧
  near_idx close_candidate far_candidate ∧
  truthy (c_name far_candidate) = false ∧
  truthy (c_name close_candidate) = false ∧
  c_dist close_candidate < c_dist far_candidate ∧
  dedup [far_candidate; close_candidate] = [far_candidate] ∧
  matchBusStops straight3 [far_unnamed; close_unnamed] STOP_MATCH_RADIUS = [far_candidate].
Proof.
  assert (Hcands :
    sort_by c_idx (collect_candidates straight3 [far_unnamed; close_unnamed] STOP_MATCH_RADIUS)
    = [far_candidate; close_candidate]).
  { unfold collect_candidates, straight3, STOP_MATCH_RADIUS. simpl.
    unfold candidate_of, nearest. simpl. real_decide. reflexivity. }
  assert (Hdedup : dedup [far_candidate; close_candidate] = [far_candidate]) by reflexivity.
  split_and!; try done.
  - unfold close_candidate, far_candidate. simpl. real_cmp.
  - unfold matchBusStops. rewrite Hcands, Hdedup. reflexivity.
Qed.

(** ** At most ten stops *)

Definition stage_holds {A : Type} (P : A → Prop) (r : stage_result A) : Prop :=
  match r with
  | Done a => P a
  | _ => True
  end.

(** C10. The stop list never has more than 10 entries: [matchBusStops] and
    the synthesis block both cut their selection to its first 10 elements,
    and making the names unique does not add entries. *)
Theorem at_most_ten_stops (finalRoute : list point) (gameStops : list GameStop)
    (matchRadius : R) (labels : list string) (matchedStops : list Stop) :
  (length (matchBusStops finalRoute gameStops matchRadius) ≤ 10)%nat ∧
  stage_holds (λ stops, length stops ≤ 10)%nat
              (synthesize finalRoute labels matchedStops) ∧
  stage_holds (λ stops, length stops ≤ 10)%nat
              (stop_stage finalRoute gameStops labels).
Proof.
  assert (Hm : ∀ r, (length (matchBusStops finalRoute gameStops r) ≤ 10)%nat).
  { intros r. unfold matchBusStops. rewrite length_take. lia. }
  assert (Hs : ∀ m, stage_holds (λ stops, length stops ≤ 10)%nat
                                (synthesize finalRoute labels m)).
  { intros m. unfold synthesize. case_decide; [done|].
    destruct (synthetic_loop _ _ _ _ _); [|done].
    destruct (sort_by _ _); [done|]. simpl. rewrite length_take. lia. }
  assert (Hd : ∀ stops, length (deduplicateStopNames stops) = length stops).
  { intros stops. rewrite <- (length_fmap s_idx), deduplicateStopNames_idx.
    by rewrite length_fmap. }
  split_and!; [apply Hm|apply Hs|].
  unfold stop_stage. case_decide.
  - specialize (Hs (assignStreetNames
                      (map stop_of_candidate
                           (matchBusStops finalRoute gameStops STOP_MATCH_RADIUS)) labels)).
    destruct (synthesize _ _ _); simpl in *; [|done..]. by rewrite Hd.
  - simpl. rewrite Hd. unfold assignStreetNames. rewrite !length_map. apply Hm.
Qed.

(** ** Topology cleanup *)





(** The interior index [i] of [route] fails the test of the cleanup loop. *)
Definition flagged (route : list point) (i : nat) : Prop :=
  is_backtrack (at_index route (i - 1)) (at_index route i) (at_index route (i + 1)) = true.

Lemma scan_step_cases route s p j :
  (scan_step route (s, p) j = (s, p) ∧ (j ∈ s ∨ ¬ flagged route j)) ∨
  (scan_step route (s, p) j = ({[ j ]} ∪ s, true) ∧ flagged route j).
Proof.
  unfold scan_step, flagged. simpl. case_decide; [auto|].
  destruct (is_backtrack _ _ _); [auto|]. left. split; [done|]. right. congruence.
Qed.

Lemma scan_fold route l s p :
  (p = true ↔ s ≠ ∅) →
  ((fold_left (scan_step route) l (s, p)).2 = true ↔
   (fold_left (scan_step route) l (s, p)).1 ≠ ∅) ∧
  (∀ i, i ∈ (fold_left (scan_step route) l (s, p)).1 ↔ i ∈ s ∨ (i ∈ l ∧ flagged route i)).
Proof.
  revert s p. induction l as [|j l IH]; intros s p Hp; simpl.
  - split; [done|]. intros i. rewrite elem_of_nil. tauto.
  - destruct (scan_step_cases route s p j) as [[-> Hj]|[-> Hj]].
    + destruct (IH s p Hp) as [H1 H2]. split; [done|].
      intros i. rewrite H2, elem_of_cons. split; [intros [?|[? ?]]; auto|].
      intros [?|[[->|?] ?]]; auto. destruct Hj; [auto|done].
    + destruct (IH ({[j]} ∪ s) true) as [H1 H2].
      { split; [intros _|done]. apply (non_empty_inhabited_L j), elem_of_union_l.
        by apply elem_of_singleton. }
      split; [done|]. intros i. rewrite H2, elem_of_union, elem_of_singleton, elem_of_cons.
      split; [intros [[->|?]|[? ?]]; auto|intros [?|[[->|?] ?]]; auto].
Qed.

Lemma scan_spec route :
  ((scan route).2 = true ↔ (scan route).1 ≠ ∅) ∧
  (∀ i, i ∈ (scan route).1 ↔ (1 ≤ i ∧ i + 1 < length route)%nat ∧ flagged route i).
Proof.
  unfold scan. destruct (scan_fold route (seq 1 (length route - 2)) ∅ false) as [H1 H2].
  { split; [done|]. intros H. by destruct H. }
  split; [done|]. intros i. rewrite H2, elem_of_seq, elem_of_empty.
  split; [intros [[]|[? ?]]|intros [? ?]; right]; split; try done; lia.
Qed.

Lemma filter_out_length_le {A : Type} (s : gset nat) (k : nat) (l : list A) :
  (length (filter_out s k l) ≤ length l)%nat.
Proof.
  revert k. induction l as [|x l IH]; intros k; simpl; [done|].
  specialize (IH (S k)). case_decide; simpl; lia.
Qed.

Lemma filter_out_length_lt {A : Type} (s : gset nat) (k i : nat) (l : list A) :
  i ∈ s → (k ≤ i < k + length l)%nat → (length (filter_out s k l) < length l)%nat.
Proof.
  revert k. induction l as [|x l IH]; intros k Hi Hrange; simpl in *; [lia|].
  case_decide as Hk.
  - pose proof (filter_out_length_le s (S k) l). lia.
  - assert (i ≠ k) by congruence. simpl. specialize (IH (S k) Hi). lia.
Qed.

(** What one pass does: with [cleanPass] set it has removed a point, with
    [cleanPass] clear it has changed nothing and no interior point fails the
    test. *)
Lemma clean_pass_spec route labels :
  let '(route', labels', cleanPass) := clean_pass route labels in
  (cleanPass = true → (length route' < length route)%nat) ∧
  (cleanPass = false →
     route' = route ∧ labels' = labels ∧
     ∀ i, (1 ≤ i ∧ i + 1 < length route)%nat → ¬ flagged route i).
Proof.
  unfold clean_pass. destruct (scan_spec route) as [Hflag Hmem].
  destruct (scan route) as [toRemove cleanPass]. simpl in *.
  case_decide as Hsize.
  - assert (Hne : toRemove ≠ ∅).
    { intros ->. rewrite size_empty in Hsize. lia. }
    apply Hflag in Hne as ->. split; [intros _|done].
    apply size_pos_elem_of in Hsize as [i Hi].
    apply (filter_out_length_lt _ _ i); [done|]. apply Hmem in Hi. lia.
  - assert (Hempty : toRemove = ∅).
    { apply leibniz_equiv, size_empty_iff. lia. }
    subst toRemove. split.
    + intros Hp. by apply Hflag in Hp.
    + intros _. split_and!; [done..|]. intros i Hi Hfl.
      apply (not_elem_of_empty (C := gset nat) i), Hmem. done.
Qed.

Lemma clean_loop_terminates fuel route labels :
  (length route < fuel)%nat →
  ∃ route' labels',
    clean_loop fuel route labels = Some (route', labels') ∧
    (length route' ≤ length route)%nat ∧
    clean_pass route' labels' = (route', labels', false).
Proof.
  revert route labels. induction fuel as [|fuel IH]; intros route labels Hlen; [lia|].
  simpl. pose proof (clean_pass_spec route labels) as Hpass.
  destruct (clean_pass route labels) as [[route' labels'] cleanPass] eqn:E.
  destruct Hpass as [Htrue Hfalse]. destruct cleanPass.
  - specialize (Htrue eq_refl).
    destruct (IH route' labels' ltac:(lia)) as (r & l & Hr & Hle & Hfix).
    exists r, l. split_and!; [done|lia|done].
  - destruct (Hfalse eq_refl) as (-> & -> & _). exists route, labels. done.
Qed.

(** C9. The backtrack-removal loop ends on every polyline: a pass that
    leaves [cleanPass] set has removed at least one point, a pass that
    leaves it clear has removed nothing and is the last, and so at most
    [length route + 1] passes run. *)
Theorem backtrack_removal_terminates (route : list point) (labels : list string) :
  (let '(route', labels', cleanPass) := clean_pass route labels in
   if cleanPass then (length route' < length route)%nat
   else route' = route ∧ labels' = labels ∧
        clean_loop 1 route labels = Some (route, labels)) ∧
  ∃ route' labels',
    clean_loop (S (length route)) route labels = Some (route', labels') ∧
    clean_pass route' labels' = (route', labels', false).
Proof.
  split.
  - pose proof (clean_pass_spec route labels) as Hpass. simpl.
    destruct (clean_pass route labels) as [[route' labels'] cleanPass] eqn:E.
    destruct Hpass as [Htrue Hfalse]. destruct cleanPass; [auto|].
    destruct (Hfalse eq_refl) as (-> & -> & _). done.
  - destruct (clean_loop_terminates (S (length route)) route labels ltac:(lia))
      as (r & l & Hr & _ & Hfix).
    eauto.
Qed.

(** Step 5a always returns: the bound on the loop is never reached. *)
Lemma cleanRoute_total gameRoute rawStreetLabels :
  is_Some (cleanRoute gameRoute rawStreetLabels).
Proof.
  unfold cleanRoute.
  destruct (clean_loop_terminates (S (length gameRoute)) gameRoute rawStreetLabels
              ltac:(lia)) as (r & l & -> & _).
  simpl. eauto.
Qed.





(** A route of ten points with a small kink after its fourth point: the
    fifth point lies 0.3 from the fourth, the sixth 1 to the left of it. *)
Definition kinked : list point :=
  [ (-250, -75); (-150, -75); (-50, -75); (50, -75); (50, -74.7); (49, -74.6);
    (48, -25); (48, 75); (148, 75); (250, 75) ].
Definition kinked_labels : list string := replicate 10 "Whitehall"%string.








(** ** Arc-length resampling *)

Lemma pdist_triangle a b c : pdist a c <= pdist a b + pdist b c.
Proof.
  unfold pdist, dist2d, hypot.
  pose proof (triangle a.1 a.2 c.1 c.2 b.1 b.2) as H.
  unfold dist_euc, Rsqr in H. exact H.
Qed.

Lemma pdist_nonneg a b : 0 <= pdist a b.
Proof. apply hypot_nonneg. Qed.

Lemma pdist_sym a b : pdist a b = pdist b a.
Proof. unfold pdist, dist2d, hypot. f_equal. ring. Qed.

Lemma pdist_refl a : pdist a a = 0.
Proof. unfold pdist, dist2d. apply hypot_eq; [lra|ring]. Qed.

Lemma hypot_scale c x y : hypot (c * x) (c * y) = Rabs c * hypot x y.
Proof.
  unfold hypot.
  replace (c * x * (c * x) + c * y * (c * y)) with (c² * (x * x + y * y))
    by (unfold Rsqr; ring).
  rewrite sqrt_mult_alt by apply Rle_0_sqr. by rewrite sqrt_Rsqr_abs.
Qed.

(** The point at parameter [t] of the segment from [a] to [b]. *)
Definition lerp (a b : point) (t : R) : point :=
  (a.1 + t * (b.1 - a.1), a.2 + t * (b.2 - a.2)).

Lemma pdist_lerp a b t t' : pdist (lerp a b t) (lerp a b t') = Rabs (t - t') * pdist b a.
Proof.
  unfold pdist, dist2d, lerp. simpl. rewrite <- hypot_scale. f_equal; ring.
Qed.

Lemma pdist_lerp_start a b t : 0 <= t → pdist a (lerp a b t) = t * pdist a b.
Proof.
  intros Ht. replace a with (lerp a b 0) at 1 by (unfold lerp; destruct a; simpl; f_equal; ring).
  rewrite pdist_lerp, (pdist_sym b a), Rminus_0_l, Rabs_Ropp, Rabs_pos_eq; done.
Qed.

Lemma pdist_lerp_end a b t : t <= 1 → pdist (lerp a b t) b = (1 - t) * pdist a b.
Proof.
  intros Ht. replace b with (lerp a b 1) at 2 by (unfold lerp; destruct b; simpl; f_equal; ring).
  rewrite pdist_lerp, (pdist_sym b a), <- Rabs_Ropp, Rabs_pos_eq; [f_equal; ring|lra].
Qed.

(** *** Cumulative lengths *)

Lemma cumLen_from_step prev acc rest i :
  (i < length rest)%nat →
  nth (S i) (acc :: cumLen_from prev acc rest) 0 =
  nth i (acc :: cumLen_from prev acc rest) 0 +
  pdist (nth i (prev :: rest) (0, 0)) (nth (S i) (prev :: rest) (0, 0)).
Proof.
  revert prev acc i. induction rest as [|p rest IH]; intros prev acc i Hi; simpl in Hi; [lia|].
  destruct i as [|i].
  - simpl. f_equal. rewrite pdist_sym. reflexivity.
  - specialize (IH p (acc + hypot (p.1 - prev.1) (p.2 - prev.2)) i ltac:(lia)).
    exact IH.
Qed.

Lemma cumLen_step route i :
  (i + 1 < length route)%nat →
  cum_at (cumLen route) (S i) =
  cum_at (cumLen route) i + pdist (at_index route i) (at_index route (S i)).
Proof.
  intros Hi. destruct route as [|p rest]; simpl in Hi; [lia|].
  unfold cum_at, at_index, cumLen. apply cumLen_from_step. lia.
Qed.

Lemma cumLen_length route : length (cumLen route) = (length route `max` 1)%nat.
Proof.
  destruct route as [|p rest]; [done|]. simpl.
  assert (H : ∀ prev acc, length (cumLen_from prev acc rest) = length rest).
  { induction rest as [|q rest IH]; intros prev acc; simpl; [done|]. by rewrite IH. }
  rewrite H. lia.
Qed.

Lemma cum_at_zero route : cum_at (cumLen route) 0 = 0.
Proof. by destruct route. Qed.

Lemma totalLen_eq route : totalLen route = cum_at (cumLen route) (length route - 1).
Proof. unfold totalLen. rewrite cumLen_length. f_equal. lia. Qed.

(** The straight line between two vertices is no longer than the path. *)
Lemma cum_between route i j :
  (i ≤ j)%nat → (j < length route)%nat →
  pdist (at_index route i) (at_index route j) <=
  cum_at (cumLen route) j - cum_at (cumLen route) i.
Proof.
  intros Hij Hj. induction Hij as [|j Hij IH].
  - rewrite pdist_refl. lra.
  - specialize (IH ltac:(lia)).
    pose proof (pdist_triangle (at_index route i) (at_index route j) (at_index route (S j))).
    rewrite (cumLen_step route j) by lia. lra.
Qed.

Lemma cum_mono route i j :
  (i ≤ j)%nat → (j < length route)%nat →
  cum_at (cumLen route) i <= cum_at (cumLen route) j.
Proof.
  intros Hij Hj. pose proof (cum_between route i j Hij Hj).
  pose proof (pdist_nonneg (at_index route i) (at_index route j)). lra.
Qed.

(** *** Points at a given arc length *)

(** [x] lies on segment [k] of [route], at arc length [s] from the start. *)
Definition at_arc (route : list point) (k : nat) (s : R) (x : point) : Prop :=
  (k + 1 < length route)%nat ∧
  ∃ t, 0 <= t <= 1 ∧
       x = lerp (at_index route k) (at_index route (S k)) t ∧
       s = cum_at (cumLen route) k + t * pdist (at_index route k) (at_index route (S k)).

Lemma at_arc_to_start route k s x :
  at_arc route k s x → pdist (at_index route k) x = s - cum_at (cumLen route) k.
Proof. intros (_ & t & Ht & -> & ->). rewrite pdist_lerp_start by lra. lra. Qed.

Lemma at_arc_to_end route k s x :
  at_arc route k s x → pdist x (at_index route (S k)) = cum_at (cumLen route) (S k) - s.
Proof.
  intros (Hk & t & Ht & -> & ->). rewrite pdist_lerp_end by lra.
  rewrite (cumLen_step route k) by lia. lra.
Qed.

Lemma at_arc_range route k s x :
  at_arc route k s x →
  cum_at (cumLen route) k <= s <= cum_at (cumLen route) (S k).
Proof.
  intros H. pose proof (at_arc_to_start _ _ _ _ H). pose proof (at_arc_to_end _ _ _ _ H).
  pose proof (pdist_nonneg (at_index route k) x).
  pose proof (pdist_nonneg x (at_index route (S k))). lra.
Qed.

(** Two points on the path are no farther apart than their arc lengths. *)
Lemma at_arc_lipschitz route k s x k' s' x' :
  at_arc route k s x → at_arc route k' s' x' → s <= s' → pdist x x' <= s' - s.
Proof.
  intros Hx Hx' Hs.
  destruct (lt_eq_lt_dec k k') as [[Hlt|Heq]|Hgt].
  - pose proof (at_arc_to_end _ _ _ _ Hx). pose proof (at_arc_to_start _ _ _ _ Hx').
    pose proof (cum_between route (S k) k' ltac:(lia) ltac:(destruct Hx'; lia)).
    pose proof (pdist_triangle x (at_index route (S k)) x').
    pose proof (pdist_triangle (at_index route (S k)) (at_index route k') x'). lra.
  - subst k'. destruct Hx as (_ & t & Ht & -> & ->). destruct Hx' as (_ & t' & Ht' & -> & ->).
    rewrite pdist_lerp, (pdist_sym (at_index route (S k))).
    pose proof (pdist_nonneg (at_index route k) (at_index route (S k))) as Hd.
    assert (Habs : Rabs (t - t') * pdist (at_index route k) (at_index route (S k))
                   = Rabs ((t - t') * pdist (at_index route k) (at_index route (S k)))).
    { by rewrite Rabs_mult, (Rabs_pos_eq (pdist _ _)). }
    rewrite Habs. apply Rabs_le. lra.
  - pose proof (at_arc_range _ _ _ _ Hx). pose proof (at_arc_range _ _ _ _ Hx').
    pose proof (cum_mono route (S k') k ltac:(lia) ltac:(destruct Hx; lia)).
    pose proof (at_arc_to_start _ _ _ _ Hx). pose proof (at_arc_to_end _ _ _ _ Hx').
    pose proof (cum_between route (S k') k ltac:(lia) ltac:(destruct Hx; lia)).
    pose proof (pdist_triangle x (at_index route k) x').
    pose proof (pdist_triangle (at_index route k) (at_index route (S k')) x').
    rewrite (pdist_sym x (at_index route k)) in *.
    rewrite (pdist_sym (at_index route k) (at_index route (S k'))) in *.
    rewrite (pdist_sym (at_index route (S k')) x') in *. lra.
Qed.

Lemma at_arc_vertex route i :
  (i + 1 < length route)%nat → at_arc route i (cum_at (cumLen route) i) (at_index route i).
Proof.
  intros Hi. split; [done|]. exists 0. split_and!; try lra.
  unfold lerp. destruct (at_index route i). simpl. f_equal; ring.
Qed.

Lemma at_arc_last route :
  (2 ≤ length route)%nat →
  at_arc route (length route - 2) (totalLen route) (at_index route (length route - 1)).
Proof.
  intros Hn. split; [lia|]. exists 1. replace (S (length route - 2)) with (length route - 1)%nat by lia.
  split_and!; try lra.
  - unfold lerp. destruct (at_index route (length route - 1)). simpl. f_equal; ring.
  - rewrite totalLen_eq. replace (length route - 1)%nat with (S (length route - 2)) by lia.
    rewrite cumLen_step by lia. lra.
Qed.

(** *** Rounding to one decimal place *)

Lemma round1_close v : -0.05 <= round1 v - v <= 0.05.
Proof.
  unfold round1, round, floor.
  destruct (base_Int_part (v * 10 + / 2)) as [H1 H2]. lra.
Qed.

(** What the rounding of both coordinates of two points can add to their
    distance. *)
Definition ROUND_SLACK : R := 2 * hypot 0.05 0.05.

Lemma ROUND_SLACK_small : ROUND_SLACK < 0.15.
Proof.
  unfold ROUND_SLACK. assert (hypot 0.05 0.05 < 0.075); [|lra].
  apply hypot_lt_iff; lra.
Qed.

(** [e] is, up to the rounding of its coordinates, the point of the route
    at arc length [s]. *)
Definition near_path (route : list point) (s : R) (e : point) : Prop :=
  ∃ k x, at_arc route k s x ∧
         -0.05 <= e.1 - x.1 <= 0.05 ∧ -0.05 <= e.2 - x.2 <= 0.05.

Lemma pdist_rounded e x :
  -0.05 <= e.1 - x.1 <= 0.05 → -0.05 <= e.2 - x.2 <= 0.05 → pdist e x <= hypot 0.05 0.05.
Proof. intros H1 H2. unfold pdist, dist2d. apply hypot_le_hypot_iff. nra. Qed.

Lemma near_path_gap route s e s' e' :
  near_path route s e → near_path route s' e' → s <= s' →
  pdist e e' <= (s' - s) + ROUND_SLACK.
Proof.
  intros (k & x & Hx & H1 & H2) (k' & x' & Hx' & H1' & H2') Hs.
  pose proof (at_arc_lipschitz _ _ _ _ _ _ _ Hx Hx' Hs).
  pose proof (pdist_rounded e x H1 H2). pose proof (pdist_rounded e' x' H1' H2').
  pose proof (pdist_triangle e x e'). pose proof (pdist_triangle x x' e').
  rewrite (pdist_sym x' e') in *. unfold ROUND_SLACK. lra.
Qed.

Lemma near_path_exact route k s x : at_arc route k s x → near_path route s x.
Proof. intros H. exists k, x. split; [done|]. lra. Qed.

(** *** The segment search *)

Lemma advance_spec left cum n d k :
  (n ≤ k + 2 + left)%nat →
  (k ≤ advance left cum n d k)%nat ∧
  ((k + 2 ≤ n)%nat → (advance left cum n d k + 2 ≤ n)%nat) ∧
  (cum_at cum k <= d → cum_at cum (advance left cum n d k) <= d) ∧
  ¬ ((advance left cum n d k + 2 < n)%nat ∧ cum_at cum (advance left cum n d k + 1) < d).
Proof.
  revert k. induction left as [|left IH]; intros k Hfuel; simpl.
  - split_and!; [done..|]. lia.
  - destruct (bool_decide (k + 2 < n)%nat) eqn:E1; simpl.
    + apply bool_decide_eq_true in E1.
      destruct (bool_decide (cum_at cum (k + 1) < d)) eqn:E2.
      * apply bool_decide_eq_true in E2.
        destruct (IH (S k) ltac:(lia)) as (H1 & H2 & H3 & H4).
        split_and!; [lia|intros _; apply H2; lia| |done].
        intros _. apply H3. replace (S k) with (k + 1)%nat by lia. lra.
      * apply bool_decide_eq_false in E2. split_and!; [done..|]. tauto.
    + apply bool_decide_eq_false in E1. split_and!; [done..|]. tauto.
Qed.

Lemma interpolate_near route d k :
  (k + 2 ≤ length route)%nat →
  cum_at (cumLen route) k <= d <= cum_at (cumLen route) (k + 1) →
  near_path route d (interpolate route (cumLen route) k d).
Proof.
  intros Hk [Hlo Hhi].
  pose proof (cumLen_step route k ltac:(lia)) as Hstep.
  pose proof (pdist_nonneg (at_index route k) (at_index route (S k))) as Hnn.
  replace (k + 1)%nat with (S k) in * by lia.
  unfold interpolate. replace (k + 1)%nat with (S k) by lia.
  set (segLen := cum_at (cumLen route) (S k) - cum_at (cumLen route) k).
  set (t := if decide (0 < segLen) then (d - cum_at (cumLen route) k) / segLen else 0).
  assert (HsegLen : segLen = pdist (at_index route k) (at_index route (S k))).
  { unfold segLen. lra. }
  assert (Ht : 0 <= t <= 1 ∧ t * segLen = d - cum_at (cumLen route) k).
  { unfold t. case_decide as Hpos.
    - split; [split|].
      + apply Rmult_le_pos; [lra|]. left. by apply Rinv_0_lt_compat.
      + apply (Rmult_le_reg_r segLen); [done|].
        unfold Rdiv. rewrite Rmult_assoc, Rinv_l by lra. unfold segLen. lra.
      + unfold Rdiv. rewrite Rmult_assoc, Rinv_l by lra. lra.
    - split; [lra|]. unfold segLen in *. lra. }
  destruct Ht as [Ht Htl].
  exists k, (lerp (at_index route k) (at_index route (S k)) t).
  split; [|split; simpl; apply round1_close].
  split; [lia|]. exists t. split_and!; [lra..|done|]. rewrite <- HsegLen. lra.
Qed.

(** *** The sampling loop *)

Definition within_interval (a b : point) : Prop :=
  pdist a b <= SAMPLE_INTERVAL + ROUND_SLACK.

Lemma sample_loop_spec route fuel d k acc e_last :
  (2 ≤ length route)%nat →
  totalLen route < d + SAMPLE_INTERVAL * INR fuel →
  last acc = Some e_last →
  near_path route (d - SAMPLE_INTERVAL) e_last →
  d - SAMPLE_INTERVAL <= totalLen route →
  (k + 2 ≤ length route)%nat →
  cum_at (cumLen route) k <= d →
  adjacent within_interval acc →
  ∃ out s e,
    sample_loop fuel route (cumLen route) (totalLen route) d k acc = Some out ∧
    last out = Some e ∧ near_path route s e ∧
    s <= totalLen route <= s + SAMPLE_INTERVAL ∧
    adjacent within_interval out.
Proof.
  intros Hn. revert d k acc e_last.
  induction fuel as [|fuel IH]; intros d k acc e_last Hfuel Hlast Hnear Hprev Hk Hcum Hadj.
  - simpl in *. rewrite decide_False by lra.
    exists acc, (d - SAMPLE_INTERVAL), e_last. split_and!; try done. lra.
  - simpl. case_decide as Hd.
    + rewrite S_INR in Hfuel.
      set (k' := find_segment (cumLen route) (length route) d k).
      destruct (advance_spec (length route - k) (cumLen route) (length route) d k
                  ltac:(lia)) as (Hle & Hk' & Hcum' & Hexit).
      fold (find_segment (cumLen route) (length route) d k) in Hle, Hk', Hcum', Hexit.
      fold k' in Hle, Hk', Hcum', Hexit.
      specialize (Hk' Hk). specialize (Hcum' Hcum).
      assert (Hhi : d <= cum_at (cumLen route) (k' + 1)).
      { destruct (decide (k' + 2 < length route)%nat) as [Hlt|Hge].
        - apply Rnot_lt_le. tauto.
        - rewrite totalLen_eq in Hd.
          replace (k' + 1)%nat with (length route - 1)%nat by lia. lra. }
      pose proof (interpolate_near route d k' Hk' (conj Hcum' Hhi)) as Hnew.
      apply (IH (d + SAMPLE_INTERVAL) k' _ (interpolate route (cumLen route) k' d)).
      * lra.
      * apply last_snoc.
      * by replace (d + SAMPLE_INTERVAL - SAMPLE_INTERVAL) with d by lra.
      * lra.
      * done.
      * unfold SAMPLE_INTERVAL. lra.
      * apply adjacent_snoc; [done|]. intros a Ha. rewrite Hlast in Ha. injection Ha as <-.
        unfold within_interval.
        pose proof (near_path_gap _ _ _ _ _ Hnear Hnew ltac:(unfold SAMPLE_INTERVAL; lra)).
        lra.
    + exists acc, (d - SAMPLE_INTERVAL), e_last. split_and!; try done; lra.
Qed.

Lemma sample_fuel_enough total :
  total < SAMPLE_INTERVAL + SAMPLE_INTERVAL * INR (sample_fuel total).
Proof.
  unfold sample_fuel, SAMPLE_INTERVAL.
  destruct (archimed (total / 25)) as [Hup _].
  assert (Hi : IZR (up (total / 25)) <= INR (Z.to_nat (up (total / 25))) + 0).
  { destruct (Z_lt_le_dec (up (total / 25)) 0) as [Hneg|Hpos].
    - rewrite Z2Nat.nonpos by lia. simpl. apply IZR_lt in Hneg. lra.
    - rewrite INR_IZR_INZ, Z2Nat.id by done. lra. }
  assert (total / 25 * 25 = total) by (field).
  nra.
Qed.

(** C1. The resampling stage returns a polyline in which every two
    consecutive points, the final pair included, are at most the sample
    interval of 25 apart, up to the rounding of the coordinates of each
    emitted point to one decimal place (which can add at most
    [ROUND_SLACK], less than 0.15, to a distance). *)
Theorem resample_max_gap (route : list point) :
  SAMPLE_INTERVAL = 25 ∧ ROUND_SLACK < 0.15 ∧
  ∃ finalRoute,
    resample route = Some finalRoute ∧
    ∀ i a b, finalRoute !! i = Some a → finalRoute !! S i = Some b →
             pdist a b <= SAMPLE_INTERVAL + ROUND_SLACK.
Proof.
  split; [done|]. split; [apply ROUND_SLACK_small|].
  change (∃ finalRoute, resample route = Some finalRoute ∧ adjacent within_interval finalRoute).
  unfold resample.
  destruct (decide (2 ≤ length route)%nat) as [Hn|Hn].
  - destruct (sample_loop_spec route (sample_fuel (totalLen route)) SAMPLE_INTERVAL 0
                [at_index route 0] (at_index route 0) Hn) as (out & s & e & -> & Hlast & Hnear & Hs & Hadj).
    + apply sample_fuel_enough.
    + done.
    + replace (SAMPLE_INTERVAL - SAMPLE_INTERVAL) with (cum_at (cumLen route) 0)
        by (rewrite cum_at_zero; lra).
      apply (near_path_exact _ 0), at_arc_vertex. lia.
    + rewrite totalLen_eq.
      pose proof (cum_mono route 0 (length route - 1) ltac:(lia) ltac:(lia)).
      rewrite cum_at_zero in *. lra.
    + lia.
    + rewrite cum_at_zero. unfold SAMPLE_INTERVAL. lra.
    + apply adjacent_singleton.
    + simpl. eexists. split; [done|]. unfold include_last. case_decide; [|done].
      apply adjacent_snoc; [done|]. intros a Ha. rewrite Hlast in Ha. injection Ha as <-.
      pose proof (near_path_gap _ _ _ _ _ Hnear
                    (near_path_exact _ _ _ _ (at_arc_last route Hn)) ltac:(lra)).
      unfold within_interval. lra.
  - assert (Htotal : totalLen route = 0).
    { unfold totalLen. destruct route as [|p [|q rest]]; simpl in *; [done..|lia]. }
    rewrite Htotal. unfold sample_fuel, SAMPLE_INTERVAL.
    assert (Hloop : ∀ fuel, sample_loop fuel route (cumLen route) 0 25 0 [at_index route 0]
                            = Some [at_index route 0]).
    { intros [|fuel]; simpl; by rewrite decide_False by lra. }
    rewrite Hloop. simpl. eexists. split; [done|]. unfold include_last. simpl.
    replace (at_index route (length route - 1)) with (at_index route 0).
    + rewrite decide_False; [apply adjacent_singleton|].
      rewrite !Rminus_diag. apply Rle_not_lt. apply hypot_le_iff; lra.
    + destruct route as [|p [|q rest]]; simpl in *; [done..|lia].
Qed.

(** ** Shortest paths *)

(** [e] is one of the edge records stored for node [u]. *)
Definition edge_in (adj : gmap Z (list Edge)) (u : Z) (e : Edge) : Prop :=
  ∃ es, adj !! u = Some es ∧ e ∈ es.

(** [walk adj u v nodes W]: [nodes] lists the nodes of a walk from [u] to
    [v] along edges of [adj] whose weights add up to [W]. *)
Inductive walk (adj : gmap Z (list Edge)) (u : Z) : Z → list Z → R → Prop :=
  | walk_start : walk adj u u [u] 0
  | walk_snoc v nodes W e :
      walk adj u v nodes W → edge_in adj v e →
      walk adj u (e_to e) (nodes ++ [e_to e]) (W + e_dist e).

Definition nonneg_weights (adj : gmap Z (list Edge)) : Prop :=
  ∀ u e, edge_in adj u e → 0 <= e_dist e.

Lemma walk_nonneg adj u v nodes W :
  nonneg_weights adj → walk adj u v nodes W → 0 <= W.
Proof.
  intros Hnn. induction 1 as [|v nodes W e Hw IH He]; [lra|].
  specialize (Hnn _ _ He). lra.
Qed.

Lemma walk_ends adj u v nodes W :
  walk adj u v nodes W → head nodes = Some u ∧ last nodes = Some v.
Proof.
  induction 1 as [|v nodes W e Hw [IH1 IH2] He]; [done|].
  split; [|apply last_snoc]. destruct nodes; [done|]. exact IH1.
Qed.

Lemma walk_edges adj u v nodes W :
  walk adj u v nodes W →
  adjacent (λ a b, ∃ e, edge_in adj a e ∧ e_to e = b) nodes.
Proof.
  induction 1 as [|v nodes W e Hw IH He]; [apply adjacent_singleton|].
  apply adjacent_snoc; [done|]. intros a Ha.
  destruct (walk_ends _ _ _ _ _ Hw) as [_ Hlast]. rewrite Hlast in Ha.
  injection Ha as <-. eauto.
Qed.

(** *** Extracting the minimum *)

Lemma scan_min_spec pre rest minIdx minU minD :
  (pre ++ rest) !! minIdx = Some (minU, minD) →
  (∀ v d, (v, d) ∈ pre → minD <= d) →
  ∃ u du,
    (pre ++ rest) !! scan_min rest (length pre) minIdx minD = Some (u, du) ∧
    ∀ v d, (v, d) ∈ pre ++ rest → du <= d.
Proof.
  revert pre minIdx minU minD. induction rest as [|[x dx] rest IH];
    intros pre minIdx minU minD Hmin Hpre; simpl.
  - exists minU, minD. split; [done|]. rewrite app_nil_r. done.
  - replace (pre ++ (x, dx) :: rest) with ((pre ++ [(x, dx)]) ++ rest) in *
      by by rewrite <- app_assoc.
    replace (S (length pre)) with (length (pre ++ [(x, dx)]))
      by (rewrite length_app; simpl; lia).
    case_decide as Hlt.
    + apply (IH (pre ++ [(x, dx)]) (length pre) x dx).
      * rewrite lookup_app_l by (rewrite length_app; simpl; lia).
        by rewrite list_lookup_middle.
      * intros v d [Hin|Hin%list_elem_of_singleton]%elem_of_app.
        -- specialize (Hpre v d Hin). lra.
        -- injection Hin as -> ->. lra.
    + apply (IH (pre ++ [(x, dx)]) minIdx minU minD); [done|].
      intros v d [Hin|Hin%list_elem_of_singleton]%elem_of_app; [by eapply Hpre|].
      injection Hin as -> ->. lra.
Qed.

Lemma min_index_spec pq :
  pq ≠ [] →
  ∃ u du, pq !! min_index pq = Some (u, du) ∧ ∀ v d, (v, d) ∈ pq → du <= d.
Proof.
  destruct pq as [|[u0 d0] rest]; [done|]. intros _. unfold min_index.
  apply (scan_min_spec [(u0, d0)] rest 0 u0 d0); [done|].
  intros v d Hin%list_elem_of_singleton. injection Hin as -> ->. lra.
Qed.

Lemma min_index_None pq : pq !! min_index pq = None → pq = [].
Proof.
  intros H. destruct pq as [|x rest]; [done|].
  destruct (min_index_spec (x :: rest) ltac:(done)) as (u & du & Hsome & _). congruence.
Qed.

Lemma elem_of_delete_ne {A : Type} (l : list A) i x y :
  x ∈ l → l !! i = Some y → x ≠ y → x ∈ delete i l.
Proof.
  intros Hx Hi Hne. rewrite <- (take_drop_middle _ _ _ Hi) in Hx.
  rewrite delete_take_drop.
  apply elem_of_app in Hx as [Hx|Hx]; [apply elem_of_app; by left|].
  apply elem_of_cons in Hx as [->|Hx]; [done|]. apply elem_of_app. by right.
Qed.

(** *** The chain of predecessors *)

(** [prev_path prev v nodes]: following [prev] back from [v] visits the
    nodes of [nodes] in reverse and stops at the first of them. *)
Inductive prev_path (prev : gmap Z Z) : Z → list Z → Prop :=
  | prev_root v : prev !! v = None → prev_path prev v [v]
  | prev_step v u nodes :
      prev !! v = Some u → prev_path prev u nodes → prev_path prev v (nodes ++ [v]).

Lemma prev_path_insert prev v nodes x y :
  x ∉ nodes → prev_path prev v nodes → prev_path (<[x := y]> prev) v nodes.
Proof.
  intros Hx Hp. induction Hp as [v Hv|v u nodes Hv Hp IH].
  - apply prev_root. rewrite lookup_insert_ne; [done|].
    intros ->. apply Hx. by left.
  - apply not_elem_of_app in Hx as [Hx1 Hx2]. apply (prev_step _ _ u); [|auto].
    rewrite lookup_insert_ne; [done|]. intros ->. apply Hx2. by left.
Qed.

Lemma prev_path_unwind prev v nodes fuel acc :
  prev_path prev v nodes → (length nodes ≤ fuel)%nat →
  unwind fuel prev v acc = Some (nodes ++ acc).
Proof.
  intros Hp. revert fuel acc. induction Hp as [v Hv|v u nodes Hv Hp IH]; intros fuel acc Hlen.
  - destruct fuel as [|fuel]; simpl in *; [lia|]. by rewrite Hv.
  - rewrite length_app in Hlen. simpl in Hlen.
    destruct fuel as [|fuel]; [lia|]. simpl. rewrite Hv.
    rewrite IH by lia. by rewrite <- app_assoc.
Qed.

Lemma prev_path_tail_dom prev v nodes :
  prev_path prev v nodes → ∀ x, x ∈ tail nodes → is_Some (prev !! x).
Proof.
  induction 1 as [v Hv|v u nodes Hv Hp IH]; intros x Hx; simpl in Hx.
  - by apply elem_of_nil in Hx.
  - destruct nodes as [|n nodes]; simpl in Hx.
    + by apply elem_of_nil in Hx.
    + apply elem_of_app in Hx as [Hx|Hx%list_elem_of_singleton]; [by apply IH|].
      subst x. eauto.
Qed.

Lemma prev_path_length prev v nodes :
  prev_path prev v nodes → NoDup nodes → (length nodes ≤ S (size prev))%nat.
Proof.
  intros Hp Hnd. pose proof (prev_path_tail_dom _ _ _ Hp) as Hdom.
  destruct nodes as [|n nodes]; simpl in *; [lia|].
  apply NoDup_cons in Hnd as [_ Hnd].
  assert (Hsub : nodes ⊆+ elements (dom prev)).
  { apply NoDup_submseteq; [done|]. intros x Hx.
    apply elem_of_elements, elem_of_dom. auto. }
  apply submseteq_length in Hsub.
  rewrite <- size_dom. unfold size at 1, set_size. simpl. lia.
Qed.

(** *** Invariants of the search *)

Section Search.
Variable adj : gmap Z (list Edge).
Variable startId : Z.
Hypothesis Hnonneg : nonneg_weights adj.

(** Every recorded distance is the weight of a walk that the chain of
    predecessors spells out; all of its nodes but the last are settled. *)
Definition chain_ok (st : SearchState) : Prop :=
  ∀ v d, st_dist st !! v = Some d →
    ∃ nodes, walk adj startId v nodes d ∧ prev_path (st_prev st) v nodes ∧
             NoDup nodes ∧ ∀ x, x ∈ nodes → x ∈ st_visited st ∨ x = v.

(** The distance of a settled node is a lower bound for every walk. *)
Definition lower_bound (st : SearchState) : Prop :=
  ∀ x d, x ∈ st_visited st → st_dist st !! x = Some d →
    ∀ nodes W, walk adj startId x nodes W → d <= W.

(** The edges [es] out of [x] have been relaxed. *)
Definition relaxed (st : SearchState) (x : Z) (es : list Edge) : Prop :=
  ∀ e, e ∈ es →
    ∃ dx dv, st_dist st !! x = Some dx ∧ st_dist st !! e_to e = Some dv ∧
             dv <= dx + e_dist e.

Record base (st : SearchState) : Prop := {
  b_start : st_dist st !! startId = Some 0;
  b_prev_start : st_prev st !! startId = None;
  b_prev_dist : ∀ v u, st_prev st !! v = Some u → is_Some (st_dist st !! v);
  b_dist_prev :
    ∀ v d, st_dist st !! v = Some d → v ≠ startId → is_Some (st_prev st !! v);
  b_chain : chain_ok st;
  b_lower : lower_bound st;
  b_vis : ∀ x, x ∈ st_visited st → is_Some (st_dist st !! x);
  b_pq_complete :
    ∀ v d, v ∉ st_visited st → st_dist st !! v = Some d → (v, d) ∈ st_pq st;
  b_pq_sound :
    ∀ v d, (v, d) ∈ st_pq st → ∃ d', st_dist st !! v = Some d' ∧ d' <= d
}.

(** At the head of the [while] loop. *)
Definition inv_head (st : SearchState) : Prop :=
  base st ∧
  (startId ∈ st_visited st ∨ st_pq st = [(startId, 0)]) ∧
  ∀ x es, x ∈ st_visited st → adj !! x = Some es → relaxed st x es.

(** Inside the loop over the edges of [u], of which [processed] are done. *)
Definition inv_mid (u : Z) (du : R) (processed : list Edge) (st : SearchState) : Prop :=
  base st ∧ startId ∈ st_visited st ∧ u ∈ st_visited st ∧
  st_dist st !! u = Some du ∧
  (∀ x es, x ∈ st_visited st → x ≠ u → adj !! x = Some es → relaxed st x es) ∧
  relaxed st u processed.

Lemma relax_visited u du st e : st_visited (relax u du st e) = st_visited st.
Proof. unfold relax. repeat case_match; done. Qed.

Lemma relax_pq_length u du st e :
  (length (st_pq (relax u du st e)) ≤ S (length (st_pq st)))%nat.
Proof.
  unfold relax. repeat case_match; simpl; rewrite ?length_app; simpl; lia.
Qed.

Lemma relaxed_app st x es1 es2 :
  relaxed st x es1 → relaxed st x es2 → relaxed st x (es1 ++ es2).
Proof. intros H1 H2 e [?|?]%elem_of_app; auto. Qed.

(** The state after an improving relaxation of the edge to [v]. *)
Definition improved (st : SearchState) (u v : Z) (nd : R) : SearchState :=
  {| st_dist := <[v := nd]> (st_dist st);
     st_prev := <[v := u]> (st_prev st);
     st_visited := st_visited st;
     st_pq := st_pq st ++ [(v, nd)] |}.

Lemma improved_dist_le st u v nd y dy :
  (∀ dv, st_dist st !! v = Some dv → nd < dv) →
  st_dist st !! y = Some dy →
  ∃ dy', st_dist (improved st u v nd) !! y = Some dy' ∧ dy' <= dy.
Proof.
  intros Himp Hy. simpl. destruct (decide (v = y)) as [->|Hne].
  - rewrite lookup_insert_eq. exists nd. split; [done|]. specialize (Himp _ Hy). lra.
  - rewrite lookup_insert_ne by done. exists dy. split; [done|lra].
Qed.

Lemma improved_relaxed st u v nd x es :
  (∀ dv, st_dist st !! v = Some dv → nd < dv) →
  x ≠ v → relaxed st x es → relaxed (improved st u v nd) x es.
Proof.
  intros Himp Hx Hrel e He. destruct (Hrel e He) as (dx & dv & Hdx & Hdv & Hle).
  destruct (improved_dist_le st u v nd _ _ Himp Hdv) as (dv' & Hdv' & Hle').
  exists dx, dv'. split_and!; [|done|lra]. simpl. by rewrite lookup_insert_ne.
Qed.

Lemma improved_base st u du e :
  base st → startId ∈ st_visited st → u ∈ st_visited st →
  st_dist st !! u = Some du → edge_in adj u e →
  e_to e ∉ st_visited st →
  (∀ dv, st_dist st !! e_to e = Some dv → du + e_dist e < dv) →
  base (improved st u (e_to e) (du + e_dist e)).
Proof.
  intros Hb Hstart Hu Hdu He Hv Himp.
  set (v := e_to e) in *. set (nd := du + e_dist e) in *.
  assert (Hvs : v ≠ startId) by (intros Heq; apply Hv; by rewrite Heq).
  assert (Hvu : v ≠ u) by (intros Heq; apply Hv; by rewrite Heq).
  destruct (b_chain st Hb u du Hdu) as (nodes_u & Hwalk_u & Hpath_u & Hnd_u & Hvis_u).
  assert (Hall_u : ∀ x, x ∈ nodes_u → x ∈ st_visited st).
  { intros x Hx. destruct (Hvis_u x Hx) as [? | ->]; done. }
  assert (Hv_u : v ∉ nodes_u) by (intros Hin; by apply Hv, Hall_u).
  split; simpl.
  - rewrite lookup_insert_ne by done. apply Hb.
  - rewrite lookup_insert_ne by done. apply Hb.
  - intros y p Hy. simpl in *. destruct (decide (v = y)) as [<-|Hne].
    + rewrite lookup_insert_eq. eauto.
    + rewrite lookup_insert_ne in Hy by done. rewrite lookup_insert_ne by done.
      by eapply b_prev_dist.
  - intros y d Hy Hys. simpl in *. destruct (decide (v = y)) as [<-|Hne].
    + rewrite lookup_insert_eq. eauto.
    + rewrite lookup_insert_ne in Hy by done. rewrite lookup_insert_ne by done.
      by eapply b_dist_prev.
  - intros y d Hy. simpl in *. destruct (decide (v = y)) as [<-|Hne].
    + rewrite lookup_insert_eq in Hy. injection Hy as <-.
      exists (nodes_u ++ [v]). split_and!.
      * by apply (walk_snoc _ _ u).
      * apply (prev_step _ _ u); [apply lookup_insert_eq|].
        by apply prev_path_insert.
      * apply NoDup_app. split_and!; [done| |apply NoDup_singleton].
        intros x Hx ->%list_elem_of_singleton. done.
      * intros x [Hx|Hx%list_elem_of_singleton]%elem_of_app; auto.
    + rewrite lookup_insert_ne in Hy by done.
      destruct (b_chain st Hb y d Hy) as (nodes & Hwalk & Hpath & Hnd & Hvis).
      exists nodes. split_and!; [done| |done..].
      apply prev_path_insert; [|done]. intros Hin.
      destruct (Hvis v Hin) as [?|?]; done.
  - intros x d Hx Hd. simpl in *.
    rewrite lookup_insert_ne in Hd by (intros ->; done).
    by eapply b_lower.
  - intros x Hx. simpl in *. rewrite lookup_insert_ne by (intros ->; done).
    by apply b_vis.
  - intros y d Hy Hd. simpl in *. apply elem_of_app.
    destruct (decide (v = y)) as [<-|Hne].
    + rewrite lookup_insert_eq in Hd. injection Hd as <-. right. by left.
    + rewrite lookup_insert_ne in Hd by done. left. by apply b_pq_complete.
  - simpl. intros y d [Hin|Hin%list_elem_of_singleton]%elem_of_app.
    + destruct (b_pq_sound st Hb y d Hin) as (d' & Hd' & Hle).
      destruct (improved_dist_le st u v nd _ _ Himp Hd') as (d'' & Hd'' & Hle').
      exists d''. split; [done|lra].
    + injection Hin as -> ->. exists nd. rewrite lookup_insert_eq. split; [done|lra].
Qed.

Lemma relax_inv u du processed st e :
  inv_mid u du processed st → edge_in adj u e →
  inv_mid u du (processed ++ [e]) (relax u du st e).
Proof.
  intros (Hb & Hstart & Hu & Hdu & Hclosed & Hproc) He.
  unfold relax. case_decide as Hv.
  - (* the far end is settled: its distance is already a lower bound *)
    split_and!; try done. apply relaxed_app; [done|].
    intros e' ->%list_elem_of_singleton.
    destruct (b_vis st Hb _ Hv) as [dv Hdv].
    destruct (b_chain st Hb u du Hdu) as (nodes_u & Hwalk_u & _).
    exists du, dv. split_and!; [done..|].
    eapply (b_lower st Hb); [done..|]. by apply (walk_snoc _ _ u).
  - destruct (st_dist st !! e_to e) as [dv|] eqn:Hdv.
    + destruct (bool_decide (du + e_dist e < dv)) eqn:Hlt.
      * apply bool_decide_eq_true in Hlt.
        assert (Himp : ∀ dv', st_dist st !! e_to e = Some dv' → du + e_dist e < dv').
        { intros dv'. rewrite Hdv. by intros [= <-]. }
        fold (improved st u (e_to e) (du + e_dist e)).
        split_and!; try done.
        -- by apply improved_base.
        -- simpl. rewrite lookup_insert_ne; [done|]. by intros <-.
        -- intros x es Hx Hxu Hes. apply improved_relaxed; [done| |by eapply Hclosed].
           by intros ->.
        -- apply relaxed_app.
           ++ apply improved_relaxed; [done| |done]. by intros ->.
           ++ intros e' ->%list_elem_of_singleton. exists du, (du + e_dist e). simpl.
              rewrite lookup_insert_eq, lookup_insert_ne by (by intros <-).
              split_and!; [done..|lra].
      * apply bool_decide_eq_false in Hlt.
        split_and!; try done. apply relaxed_app; [done|].
        intros e' ->%list_elem_of_singleton. exists du, dv. split_and!; [done..|lra].
    + assert (Himp : ∀ dv', st_dist st !! e_to e = Some dv' → du + e_dist e < dv').
      { intros dv'. by rewrite Hdv. }
      fold (improved st u (e_to e) (du + e_dist e)).
      split_and!; try done.
      * by apply improved_base.
      * simpl. rewrite lookup_insert_ne; [done|]. by intros <-.
      * intros x es Hx Hxu Hes. apply improved_relaxed; [done| |by eapply Hclosed].
        by intros ->.
      * apply relaxed_app.
        -- apply improved_relaxed; [done| |done]. by intros ->.
        -- intros e' ->%list_elem_of_singleton. exists du, (du + e_dist e). simpl.
           rewrite lookup_insert_eq, lookup_insert_ne by (by intros <-).
           split_and!; [done..|lra].
Qed.

Lemma relax_fold_inv u du es processed st :
  inv_mid u du processed st → (∀ e, e ∈ es → edge_in adj u e) →
  inv_mid u du (processed ++ es) (fold_left (relax u du) es st).
Proof.
  revert processed st. induction es as [|e es IH]; intros processed st Hinv Hes; simpl.
  - by rewrite app_nil_r.
  - replace (processed ++ e :: es) with ((processed ++ [e]) ++ es)
      by by rewrite <- app_assoc.
    apply IH; [|intros e' He'; apply Hes; by right].
    apply relax_inv; [done|]. apply Hes. by left.
Qed.

Lemma relax_fold_visited u du es st :
  st_visited (fold_left (relax u du) es st) = st_visited st.
Proof.
  revert st. induction es as [|e es IH]; intros st; simpl; [done|].
  by rewrite IH, relax_visited.
Qed.

Lemma relax_fold_pq_length u du es st :
  (length (st_pq (fold_left (relax u du) es st)) ≤ length (st_pq st) + length es)%nat.
Proof.
  revert st. induction es as [|e es IH]; intros st; simpl; [lia|].
  specialize (IH (relax u du st e)). pose proof (relax_pq_length u du st e). lia.
Qed.
End Search.

(** *** Termination measure: queue length plus edges of unsettled nodes *)

Definition pending_in (entries : list (Z * list Edge)) (visited : gset Z) : nat :=
  sum_list (map (λ kv, if decide (kv.1 ∈ visited) then 0%nat else length kv.2) entries).

Definition pending (adj : gmap Z (list Edge)) (visited : gset Z) : nat :=
  pending_in (map_to_list adj) visited.

Lemma pending_in_mono entries visited u :
  (pending_in entries ({[ u ]} ∪ visited) ≤ pending_in entries visited)%nat.
Proof.
  induction entries as [|[k es] entries IH]; simpl; [done|].
  unfold pending_in in *. simpl.
  destruct (decide (k ∈ visited)) as [Hin|Hnot].
  - rewrite decide_True by (apply elem_of_union; by right). lia.
  - case_decide; lia.
Qed.

Lemma pending_in_visit entries visited u es :
  (u, es) ∈ entries → u ∉ visited →
  (pending_in entries ({[ u ]} ∪ visited) + length es ≤ pending_in entries visited)%nat.
Proof.
  intros Hin Hu. induction entries as [|[k es'] entries IH]; [by apply elem_of_nil in Hin|].
  apply elem_of_cons in Hin as [Heq|Hin].
  - injection Heq as <- <-. unfold pending_in. simpl.
    rewrite decide_True by (apply elem_of_union; left; by apply elem_of_singleton).
    rewrite decide_False by done.
    pose proof (pending_in_mono entries visited u) as Hm. unfold pending_in in Hm. lia.
  - specialize (IH Hin). unfold pending_in in *. simpl.
    destruct (decide (k ∈ visited)) as [Hk|Hk].
    + rewrite decide_True by (apply elem_of_union; by right). lia.
    + case_decide; lia.
Qed.

Lemma pending_visit adj visited u es :
  adj !! u = Some es → u ∉ visited →
  (pending adj ({[ u ]} ∪ visited) + length es ≤ pending adj visited)%nat.
Proof. intros Hu. apply pending_in_visit. by apply elem_of_map_to_list. Qed.

Lemma pending_empty adj : pending adj ∅ = edge_count adj.
Proof.
  unfold pending, edge_count, pending_in.
  induction (map_to_list adj) as [|kv l IH]; simpl; [done|].
  rewrite decide_False by apply not_elem_of_empty. by rewrite IH.
Qed.

Section SearchLoop.
Variable adj : gmap Z (list Edge).
Variable startId : Z.
Hypothesis Hnonneg : nonneg_weights adj.

(** A walk either ends at a settled node within its weight, or the queue
    holds an entry of at most its weight. *)
Lemma walk_frontier st y nodes W :
  inv_head adj startId st → walk adj startId y nodes W →
  (y ∈ st_visited st ∧ ∃ d, st_dist st !! y = Some d ∧ d <= W) ∨
  (∃ z d, (z, d) ∈ st_pq st ∧ d <= W).
Proof.
  intros (Hb & Hstart & Hclosed) Hw.
  induction Hw as [|v nodes W e Hw IH He].
  - destruct (decide (startId ∈ st_visited st)) as [Hin|Hnot].
    + left. split; [done|]. exists 0. split; [apply Hb|lra].
    + right. exists startId, 0. split; [|lra]. apply Hb; [done|]. apply Hb.
  - pose proof (Hnonneg _ _ He) as Hw0.
    destruct IH as [(Hv & d & Hd & Hle)|(z & d & Hz & Hle)].
    + destruct He as (es & Hes & Hin).
      destruct (Hclosed v es Hv Hes e Hin) as (dx & dv & Hdx & Hdv & Hrel).
      assert (dx = d) as -> by congruence.
      destruct (decide (e_to e ∈ st_visited st)) as [Hin'|Hnot].
      * left. split; [done|]. exists dv. split; [done|lra].
      * right. exists (e_to e), dv. split; [|lra]. by apply Hb.
    + right. exists z, d. split; [done|lra].
Qed.

(** Popping an entry of a node that is already settled. *)
Lemma pop_stale st i u du :
  inv_head adj startId st → st_pq st !! i = Some (u, du) → u ∈ st_visited st →
  inv_head adj startId
    {| st_dist := st_dist st; st_prev := st_prev st; st_visited := st_visited st;
       st_pq := delete i (st_pq st) |}.
Proof.
  intros (Hb & Hstart & Hclosed) Hi Hu. split_and!.
  - split; simpl; try apply Hb.
    + intros v d Hv Hd. apply (elem_of_delete_ne _ _ _ (u, du)); [by apply Hb|done|].
      intros [= -> ->]. done.
    + intros v d Hin%list_elem_of_delete_inv. by apply Hb.
  - simpl. left. destruct Hstart as [?|Hpq]; [done|].
    rewrite Hpq in Hi. destruct i; simpl in Hi; [|by rewrite lookup_nil in Hi].
    by injection Hi as <- <-.
  - done.
Qed.

(** Popping the least entry, of a node [u] not yet settled: [u] is
    settled with its final distance. *)
Lemma pop_fresh st i u du :
  inv_head adj startId st → st_pq st !! i = Some (u, du) →
  (∀ v d, (v, d) ∈ st_pq st → du <= d) → u ∉ st_visited st →
  inv_mid adj startId u du []
    {| st_dist := st_dist st; st_prev := st_prev st;
       st_visited := {[ u ]} ∪ st_visited st;
       st_pq := delete i (st_pq st) |}.
Proof.
  intros Hinv Hi Hmin Hu. pose proof Hinv as (Hb & Hstart & Hclosed).
  assert (Hdu : st_dist st !! u = Some du).
  { destruct (b_pq_sound _ _ st Hb u du) as (d' & Hd' & Hle).
    { by eapply list_elem_of_lookup_2. }
    pose proof (b_pq_complete _ _ st Hb u d' Hu Hd') as Hin.
    specialize (Hmin _ _ Hin). rewrite Hd'. f_equal. lra. }
  split_and!; simpl.
  - split; simpl; try apply Hb.
    + intros v d Hv. destruct (b_chain _ _ st Hb v d Hv) as (nodes & ? & ? & ? & Hvis).
      exists nodes. split_and!; [done..|]. intros x Hx.
      destruct (Hvis x Hx) as [?|?]; [left; apply elem_of_union; by right|by right].
    + intros x d [->%elem_of_singleton|Hx]%elem_of_union Hd nodes W Hw; simpl in *.
      * assert (d = du) as -> by congruence.
        destruct (walk_frontier st u nodes W Hinv Hw) as [[? _]|(z & dz & Hz & Hle)];
          [done|].
        specialize (Hmin _ _ Hz). lra.
      * by eapply (b_lower _ _ st Hb).
    + intros x [->%elem_of_singleton|Hx]%elem_of_union; [eauto|by apply Hb].
    + intros v d Hv Hd. apply not_elem_of_union in Hv as [Hvu%not_elem_of_singleton Hv].
      apply (elem_of_delete_ne _ _ _ (u, du)); [by apply Hb|done|].
      intros [= -> ->]. done.
    + intros v d Hin%list_elem_of_delete_inv. by apply Hb.
  - apply elem_of_union. destruct Hstart as [?|Hpq]; [by right|left].
    rewrite Hpq in Hi. destruct i; simpl in Hi; [|by rewrite lookup_nil in Hi].
    injection Hi as <- <-. by apply elem_of_singleton.
  - apply elem_of_union. left. by apply elem_of_singleton.
  - done.
  - intros x es [->%elem_of_singleton|Hx]%elem_of_union Hxu Hes; [done|].
    by apply Hclosed.
  - intros e He. by apply elem_of_nil in He.
Qed.

Lemma mid_to_head u du st :
  inv_mid adj startId u du (default [] (adj !! u)) st → inv_head adj startId st.
Proof.
  intros (Hb & Hstart & Hu & Hdu & Hclosed & Hproc). split_and!; [done|by left|].
  intros x es Hx Hes. destruct (decide (x = u)) as [->|Hne]; [|by eapply Hclosed].
  by rewrite Hes in Hproc.
Qed.

(** What the loop leaves behind: the bookkeeping is sound, and either the
    target is settled or every node that was reached is. *)
Definition search_post (endId : Z) (st : SearchState) : Prop :=
  base adj startId st ∧
  (endId ∈ st_visited st ∨ (inv_head adj startId st ∧ st_pq st = [])).

Lemma search_loop_spec fuel endId st :
  (length (st_pq st) + pending adj (st_visited st) ≤ fuel)%nat →
  inv_head adj startId st →
  ∃ st', search_loop fuel adj endId st = Some st' ∧ search_post endId st'.
Proof.
  revert st. induction fuel as [|fuel IH]; intros st Hfuel Hinv.
  - assert (Hpq : st_pq st = []) by (apply nil_length_inv; lia).
    exists st. split.
    + simpl. by rewrite Hpq.
    + split; [apply Hinv|]. by right.
  - simpl. destruct (st_pq st !! min_index (st_pq st)) as [[u du]|] eqn:Hpop.
    + assert (Hne : st_pq st ≠ []) by (intros E; by rewrite E in Hpop).
      destruct (min_index_spec _ Hne) as (u' & du' & Hpop' & Hmin).
      rewrite Hpop in Hpop'. injection Hpop' as <- <-.
      assert (Hlen : length (delete (min_index (st_pq st)) (st_pq st))
                     = pred (length (st_pq st))).
      { rewrite length_delete; [lia|eauto]. }
      assert (0 < length (st_pq st))%nat by (destruct (st_pq st); simpl; [done|lia]).
      case_decide as Hu.
      * apply IH; [simpl; lia|]. by eapply pop_stale.
      * pose proof (pop_fresh st _ u du Hinv Hpop Hmin Hu) as Hmid.
        case_decide as Hend.
        -- eexists. split; [done|]. split; [apply Hmid|]. left. subst u.
           simpl. apply elem_of_union. left. by apply elem_of_singleton.
        -- destruct (adj !! u) as [es|] eqn:Hes.
           ++ apply IH.
              ** rewrite relax_fold_visited. simpl.
                 pose proof (relax_fold_pq_length u du es
                   {| st_dist := st_dist st; st_prev := st_prev st;
                      st_visited := {[u]} ∪ st_visited st;
                      st_pq := delete (min_index (st_pq st)) (st_pq st) |}) as Hl.
                 simpl in Hl. pose proof (pending_visit adj _ u es Hes Hu). lia.
              ** apply (mid_to_head u du). rewrite Hes. simpl.
                 apply (relax_fold_inv adj startId u du es []); [done|].
                 intros e He. by exists es.
           ++ apply IH.
              ** simpl. pose proof (pending_in_mono (map_to_list adj) (st_visited st) u).
                 unfold pending in *. lia.
              ** apply (mid_to_head u du). by rewrite Hes.
    + apply min_index_None in Hpop. exists st. split; [done|].
      split; [apply Hinv|]. by right.
Qed.

Lemma initial_inv : inv_head adj startId (initial_state startId).
Proof.
  split_and!; [|by right|].
  - split; simpl.
    + apply lookup_singleton_eq.
    + apply lookup_empty.
    + intros v u Hv. by rewrite lookup_empty in Hv.
    + intros v d Hv Hne. simpl in Hv. by apply lookup_singleton_Some in Hv as [<- _].
    + intros v d Hv. simpl in Hv. apply lookup_singleton_Some in Hv as [<- <-].
      exists [startId]. split_and!; [constructor| |apply NoDup_singleton|].
      * apply prev_root, lookup_empty.
      * intros x ->%list_elem_of_singleton. by right.
    + intros x d Hx. simpl in Hx. by apply not_elem_of_empty in Hx.
    + intros x Hx. by apply not_elem_of_empty in Hx.
    + intros v d _ Hv. apply lookup_singleton_Some in Hv as [<- <-]. by left.
    + intros v d Hin%list_elem_of_singleton. injection Hin as -> ->.
      exists 0. split; [apply lookup_singleton_eq|lra].
  - intros x es Hx. simpl in Hx. by apply not_elem_of_empty in Hx.
Qed.

(** The search always returns: [null] only when no walk leads from
    [startId] to [endId], and otherwise such a walk of least weight. *)
Lemma search_spec endId :
  ∃ result, search adj startId endId = Some result ∧
    match result with
    | None => startId ≠ endId ∧ ∀ nodes W, ¬ walk adj startId endId nodes W
    | Some path =>
        ∃ W, walk adj startId endId path W ∧
             ∀ nodes' W', walk adj startId endId nodes' W' → W <= W'
    end.
Proof.
  unfold search.
  destruct (search_loop_spec (S (edge_count adj)) endId (initial_state startId))
    as (st & -> & Hb & Hdone).
  { simpl. rewrite pending_empty. lia. }
  { apply initial_inv. }
  cbn -[unwind size]. case_decide as Hnull.
  - destruct Hnull as [Hprev Hne]. eexists. split; [done|]. split; [done|].
    assert (Hnodist : st_dist st !! endId = None).
    { destruct (st_dist st !! endId) as [d|] eqn:Hd; [|done].
      destruct (b_dist_prev _ _ st Hb endId d Hd) as [p Hp]; [done|congruence]. }
    intros nodes W Hw. destruct Hdone as [Hvis|[Hinv Hpq]].
    + destruct (b_vis _ _ st Hb endId Hvis) as [d Hd]. congruence.
    + destruct (walk_frontier st endId nodes W Hinv Hw)
        as [(Hvis & _)|(z & d & Hz & _)].
      * destruct (b_vis _ _ st Hb endId Hvis) as [d Hd]. congruence.
      * rewrite Hpq in Hz. by apply elem_of_nil in Hz.
  - assert (Hsome : is_Some (st_dist st !! endId)).
    { destruct (decide (startId = endId)) as [<-|Hne].
      - rewrite (b_start _ _ st Hb). eauto.
      - destruct (st_prev st !! endId) as [p|] eqn:Hp; [|by destruct Hnull].
        by eapply b_prev_dist. }
    destruct Hsome as [d Hd].
    assert (Hvis : endId ∈ st_visited st).
    { destruct Hdone as [?|[Hinv Hpq]]; [done|].
      destruct (decide (endId ∈ st_visited st)) as [|Hv]; [done|].
      pose proof (b_pq_complete _ _ st Hb endId d Hv Hd) as Hin.
      rewrite Hpq in Hin. by apply elem_of_nil in Hin. }
    destruct (b_chain _ _ st Hb endId d Hd) as (nodes & Hwalk & Hpath & Hnd & _).
    rewrite (prev_path_unwind _ _ nodes _ [] Hpath)
      by by apply (prev_path_length _ endId).
    cbn. rewrite app_nil_r. eexists. split; [done|].
    exists d. split; [done|]. intros nodes' W' Hw'.
    by eapply (b_lower _ _ st Hb).
Qed.

(** The bounds on the two loops of [search] are never reached. *)
Lemma dijkstra_total endId :
  search adj startId endId = Some (dijkstra adj startId endId).
Proof.
  unfold dijkstra. destruct (search_spec endId) as (r & -> & _). done.
Qed.

Lemma dijkstra_sound endId path :
  dijkstra adj startId endId = Some path →
  ∃ W, walk adj startId endId path W ∧
       ∀ nodes' W', walk adj startId endId nodes' W' → W <= W'.
Proof.
  unfold dijkstra. destruct (search_spec endId) as (r & -> & Hr).
  simpl. intros ->. exact Hr.
Qed.

Lemma dijkstra_complete endId :
  dijkstra adj startId endId = None →
  startId ≠ endId ∧ ∀ nodes W, ¬ walk adj startId endId nodes W.
Proof.
  unfold dijkstra. destruct (search_spec endId) as (r & -> & Hr).
  simpl. intros ->. exact Hr.
Qed.
End SearchLoop.

(** ** The adjacency list built from the ways *)

Lemma atan2_nonneg y x : 0 <= y → 0 <= x → 0 <= atan2 y x.
Proof.
  intros Hy Hx. unfold atan2. repeat case_decide; try lra.
  - assert (Hq : 0 <= y / x).
    { apply Rmult_le_pos; [done|]. left. by apply Rinv_0_lt_compat. }
    destruct Hq as [Hq|<-]; [|rewrite atan_0; lra].
    left. rewrite <- atan_0. by apply atan_increasing.
  - pose proof PI_RGT_0. lra.
Qed.

Lemma haversineM_nonneg lat1 lon1 lat2 lon2 : 0 <= haversineM lat1 lon1 lat2 lon2.
Proof.
  unfold haversineM.
  apply Rmult_le_pos; [lra|]. apply atan2_nonneg; apply sqrt_pos.
Qed.

(** The edge record stored for the way back along [e] from [u]. *)
Definition reverse_edge (u : Z) (e : Edge) : Edge :=
  {| e_to := u; e_dist := e_dist e; e_name := e_name e |}.

(** Every edge record has its reverse, of the same length and name. *)
Definition bidirectional (adj : gmap Z (list Edge)) : Prop :=
  ∀ u e, edge_in adj u e → edge_in adj (e_to e) (reverse_edge u e).

Lemma addEdge_edge_in adj from to dist name u e :
  edge_in (adj_edges (addEdge adj from to dist name)) u e ↔
  edge_in (adj_edges adj) u e ∨
  (u = from ∧ e = {| e_to := to; e_dist := dist; e_name := name |}).
Proof.
  unfold addEdge, edge_in. simpl.
  destruct (adj_edges adj !! from) as [es0|] eqn:Hfrom; simpl.
  - destruct (decide (u = from)) as [->|Hne].
    + rewrite lookup_alter_eq, Hfrom. simpl. split.
      * intros (es & [= <-] & [Hin|Hin%list_elem_of_singleton]%elem_of_app); eauto.
      * intros [(es & Hes & Hin)|[_ ->]].
        -- injection Hes as <-. eexists. split; [done|].
           apply elem_of_app. by left.
        -- eexists. split; [done|]. apply elem_of_app. right. by left.
    + rewrite lookup_alter_ne by done. split; [eauto|]. intros [?|[? _]]; done.
  - destruct (decide (u = from)) as [->|Hne].
    + rewrite lookup_alter_eq, lookup_insert_eq, Hfrom. simpl. split.
      * intros (es & [= <-] & Hin%list_elem_of_singleton). eauto.
      * intros [(es & Hes & Hin)|[_ ->]]; [done|].
        eexists. split; [done|]. by left.
    + rewrite lookup_alter_ne, lookup_insert_ne by done. split; [eauto|].
      intros [?|[? _]]; done.
Qed.

Lemma add_segment_edge_in nodes name adj ab u e :
  edge_in (adj_edges (add_segment nodes name adj ab)) u e →
  edge_in (adj_edges adj) u e ∨
  ∃ na nb, nodes !! ab.1 = Some na ∧ nodes !! ab.2 = Some nb ∧
           ((u = ab.1 ∧ e = {| e_to := ab.2; e_dist := haversineM na.1 na.2 nb.1 nb.2;
                               e_name := name |}) ∨
            (u = ab.2 ∧ e = {| e_to := ab.1; e_dist := haversineM na.1 na.2 nb.1 nb.2;
                               e_name := name |})).
Proof.
  unfold add_segment.
  destruct (nodes !! ab.1) as [na|] eqn:Ha; [|by left].
  destruct (nodes !! ab.2) as [nb|] eqn:Hb; [|by left].
  rewrite !addEdge_edge_in. intros [[?|?]|?]; [by left|right..]; exists na, nb; auto.
Qed.

Lemma add_segment_keeps nodes name adj ab u e :
  edge_in (adj_edges adj) u e → edge_in (adj_edges (add_segment nodes name adj ab)) u e.
Proof.
  intros He. unfold add_segment. repeat case_match; [|done..].
  rewrite !addEdge_edge_in. auto.
Qed.

Lemma add_segment_adds nodes name adj ab na nb :
  nodes !! ab.1 = Some na → nodes !! ab.2 = Some nb →
  edge_in (adj_edges (add_segment nodes name adj ab)) ab.1
          {| e_to := ab.2; e_dist := haversineM na.1 na.2 nb.1 nb.2; e_name := name |} ∧
  edge_in (adj_edges (add_segment nodes name adj ab)) ab.2
          {| e_to := ab.1; e_dist := haversineM na.1 na.2 nb.1 nb.2; e_name := name |}.
Proof.
  intros Ha Hb. unfold add_segment. rewrite Ha, Hb. cbn -[addEdge].
  rewrite !addEdge_edge_in. auto.
Qed.

Definition well_formed (adj : gmap Z (list Edge)) : Prop :=
  bidirectional adj ∧ nonneg_weights adj.

Lemma add_segment_well_formed nodes name adj ab :
  well_formed (adj_edges adj) → well_formed (adj_edges (add_segment nodes name adj ab)).
Proof.
  intros [Hbi Hnn]. split.
  - intros u e He. apply add_segment_edge_in in He as [He|(na & nb & Ha & Hb & He)].
    + by apply add_segment_keeps, Hbi.
    + destruct (add_segment_adds nodes name adj ab na nb Ha Hb) as [H1 H2].
      destruct He as [[-> ->]|[-> ->]]; done.
  - intros u e He. apply add_segment_edge_in in He as [He|(na & nb & Ha & Hb & He)].
    + by eapply Hnn.
    + destruct He as [[-> ->]|[-> ->]]; apply haversineM_nonneg.
Qed.

Lemma build_adjacency_well_formed nodes ways :
  well_formed (adj_edges (build_adjacency nodes ways)).
Proof.
  unfold build_adjacency.
  assert (Hways : ∀ adj, well_formed (adj_edges adj) →
                         well_formed (adj_edges (fold_left (add_way nodes) ways adj))).
  { induction ways as [|way ways IH]; intros adj Hadj; [done|]. simpl. apply IH.
    unfold add_way. generalize (consecutive (w_nodes way)). intros l. revert adj Hadj.
    induction l as [|ab l IHl]; intros adj Hadj; [done|]. simpl.
    by apply IHl, add_segment_well_formed. }
  apply Hways. split; intros u e (es & Hes & _); simpl in Hes; by rewrite lookup_empty in Hes.
Qed.

(** On the adjacency list of [buildGraph] the bounds on the loops of
    [dijkstra] are never reached. *)
Lemma dijkstra_total_built nodes ways startId endId :
  search (adj_edges (build_adjacency nodes ways)) startId endId =
  Some (dijkstra (adj_edges (build_adjacency nodes ways)) startId endId).
Proof.
  apply dijkstra_total. apply build_adjacency_well_formed.
Qed.

(** C3. On the adjacency list built from the ways, a path that [dijkstra]
    returns for two nodes starts at the first and ends at the second; each
    two consecutive nodes of it are joined by an edge record in both
    directions; all edge weights are non-negative; and the path is a walk
    whose weight is least among all walks between the two nodes. *)
Theorem dijkstra_shortest_path (nodes : gmap Z (R * R)) (ways : list Way)
    (startId endId : Z) (path : list Z) :
  let adj := adj_edges (build_adjacency nodes ways) in
  dijkstra adj startId endId = Some path →
  head path = Some startId ∧ last path = Some endId ∧
  (∀ i a b, path !! i = Some a → path !! S i = Some b →
     (∃ e, edge_in adj a e ∧ e_to e = b) ∧ (∃ e, edge_in adj b e ∧ e_to e = a)) ∧
  (∀ u e, edge_in adj u e → 0 <= e_dist e) ∧
  ∃ W, walk adj startId endId path W ∧
       ∀ nodes' W', walk adj startId endId nodes' W' → W <= W'.
Proof.
  intros adj Hpath.
  destruct (build_adjacency_well_formed nodes ways) as [Hbi Hnn]. fold adj in Hbi, Hnn.
  destruct (dijkstra_sound adj startId Hnn endId path Hpath) as (W & Hwalk & Hmin).
  destruct (walk_ends _ _ _ _ _ Hwalk) as [Hhead Hlast].
  split_and!; [done..| |done|by exists W].
  intros i a b Ha Hb.
  destruct (walk_edges _ _ _ _ _ Hwalk i a b Ha Hb) as (e & He & <-).
  split; [by exists e|]. exists (reverse_edge a e). split; [by apply Hbi|done].
Qed.

(** A bridge of two nodes joined by one way. *)
Definition two_nodes : gmap Z (R * R) :=
  {[ 1%Z := (51.5007, -0.1218); 2%Z := (51.5013, -0.1220) ]}.
Definition one_way : list Way :=
  [ {| w_nodes := [1%Z; 2%Z]; w_name := Some "Westminster Bridge"%string;
       w_highway := "primary" |} ].

(** Replaces the great-circle distances in the goal by variables, so that
    the rest of the goal can be computed. *)
Ltac abstract_distances :=
  repeat match goal with
    | |- context [haversineM ?a ?b ?c ?d] =>
        let w := fresh "w" in generalize (haversineM a b c d); intros w
    end.

Lemma dijkstra_two_nodes :
  dijkstra (adj_edges (build_adjacency two_nodes one_way)) 1 2 = Some [1%Z; 2%Z].
Proof.
  unfold build_adjacency, one_way, add_way, consecutive. cbn -[add_segment two_nodes].
  unfold add_segment. cbn [fst snd].
  replace (two_nodes !! 1%Z) with (Some (51.5007, -0.1218)) by reflexivity.
  replace (two_nodes !! 2%Z) with (Some (51.5013, -0.1220)) by reflexivity.
  cbn [fst snd]. abstract_distances. vm_compute. reflexivity.
Defined.

Lemma dijkstra_shortest_path_witness :
  dijkstra (adj_edges (build_adjacency two_nodes one_way)) 1 2 = Some [1%Z; 2%Z] ∧
  ∃ W, walk (adj_edges (build_adjacency two_nodes one_way)) 1 2 [1%Z; 2%Z] W ∧
       ∀ nodes' W', walk (adj_edges (build_adjacency two_nodes one_way)) 1 2 nodes' W' →
                    W <= W'.
Proof.
  split; [exact dijkstra_two_nodes|].
  apply (dijkstra_shortest_path two_nodes one_way 1 2 [1%Z; 2%Z] dijkstra_two_nodes).
Defined.

(** ** Stitching the waypoint paths *)



(** No path joins the two nodes. *)
Definition unreachable (adj : gmap Z (list Edge)) (a b : Z) : Prop :=
  ∀ nodes W, ¬ walk adj a b nodes W.


(** [dijkstra] returns [null] for exactly the unreachable pairs. *)
Lemma dijkstra_null_iff adj a b :
  nonneg_weights adj → dijkstra adj a b = None ↔ unreachable adj a b.
Proof.
  intros Hnn. split.
  - intros Hnull. by destruct (dijkstra_complete adj a Hnn b Hnull) as [_ Hno].
  - intros Hno. destruct (dijkstra adj a b) as [path|] eqn:Hd; [|done].
    destruct (dijkstra_sound adj a Hnn b path Hd) as (W & Hwalk & _).
    by destruct (Hno path W).
Qed.




Lemma route_step_errors adj rb pair :
  ∀ err, err ∈ rb_errors rb → err ∈ rb_errors (route_step adj rb pair).
Proof.
  intros err Herr. destruct pair as [from to]. unfold route_step.
  destruct (dijkstra adj (gw_nodeId from) (gw_nodeId to)) as [path|].
  - by destruct (fold_left _ _ _).
  - simpl. apply elem_of_app. by left.
Qed.

Lemma stitch_errors adj pairs rb :
  ∀ err, err ∈ rb_errors rb → err ∈ rb_errors (fold_left (route_step adj) pairs rb).
Proof.
  revert rb. induction pairs as [|pair pairs IH]; intros rb err Herr; [done|].
  simpl. by apply IH, route_step_errors.
Qed.










(** ** A run on a straight street *)

Lemma round1_int v n : v = IZR n → round1 v = IZR n.
Proof.
  intros ->. unfold round1, round, floor.
  rewrite <- (Int_part_spec (IZR n * 10 + / 2) (n * 10)).
  - rewrite mult_IZR. field.
  - rewrite mult_IZR. lra.
Qed.



Lemma sample_loop_stop fuel route cum total d k acc :
  ¬ d < total → sample_loop fuel route cum total d k acc = Some acc.
Proof. intros Hd. destruct fuel; simpl; by rewrite decide_False. Qed.




(** Ten points, 20 apart, on a straight street. *)
Definition straight : list point :=
  [ (0, 0); (20, 0); (40, 0); (60, 0); (80, 0); (100, 0); (120, 0); (140, 0);
    (160, 0); (180, 0) ].
Definition straight_labels : list string := replicate 10 "Whitehall"%string.















(** ** The run: what is fatal, and what is written *)







(** ** Two runs on the same data *)







(** * Further properties of the script *)

(** ** Great-circle distance *)

Lemma atan2_quadrant y x : 0 <= y → 0 <= x → atan2 y x <= PI / 2.
Proof.
  intros Hy Hx. pose proof PI_RGT_0 as Hpi. unfold atan2. repeat case_decide; try lra.
  left. apply atan_bound.
Qed.

Lemma sin_sqr_half_sym x y :
  sin ((x - y) * PI / 180 / 2) ^ 2 = sin ((y - x) * PI / 180 / 2) ^ 2.
Proof.
  replace ((x - y) * PI / 180 / 2) with (- ((y - x) * PI / 180 / 2)) by lra.
  rewrite sin_neg. ring.
Qed.

Lemma haversineM_sym lat1 lon1 lat2 lon2 :
  haversineM lat1 lon1 lat2 lon2 = haversineM lat2 lon2 lat1 lon1.
Proof.
  unfold haversineM.
  rewrite (sin_sqr_half_sym lat2 lat1), (sin_sqr_half_sym lon2 lon1).
  by rewrite (Rmult_comm (cos (lat1 * PI / 180)) (cos (lat2 * PI / 180))).
Qed.

(** X1. The great-circle distance is symmetric in its two points, is 0
    from a point to itself, and always lies between 0 and half the
    circumference of the sphere of radius 6371000. *)
Theorem haversineM_distance (lat1 lon1 lat2 lon2 : R) :
  haversineM lat1 lon1 lat2 lon2 = haversineM lat2 lon2 lat1 lon1 ∧
  haversineM lat1 lon1 lat1 lon1 = 0 ∧
  0 <= haversineM lat1 lon1 lat2 lon2 <= 6371000 * PI.
Proof.
  split_and!.
  - apply haversineM_sym.
  - unfold haversineM.
    replace ((lat1 - lat1) * PI / 180 / 2) with 0 by lra.
    replace ((lon1 - lon1) * PI / 180 / 2) with 0 by lra.
    rewrite sin_0.
    replace (0 ^ 2 + cos (lat1 * PI / 180) * cos (lat1 * PI / 180) * 0 ^ 2) with 0 by ring.
    rewrite Rminus_0_r, sqrt_0, sqrt_1. unfold atan2.
    rewrite decide_True by lra.
    replace (0 / 1) with 0 by lra. rewrite atan_0. lra.
  - apply haversineM_nonneg.
  - unfold haversineM.
    pose proof (atan2_quadrant _ _ (sqrt_pos
      (sin ((lat2 - lat1) * PI / 180 / 2) ^ 2 +
       cos (lat1 * PI / 180) * cos (lat2 * PI / 180) *
       sin ((lon2 - lon1) * PI / 180 / 2) ^ 2))
      (sqrt_pos (1 - (sin ((lat2 - lat1) * PI / 180 / 2) ^ 2 +
       cos (lat1 * PI / 180) * cos (lat2 * PI / 180) *
       sin ((lon2 - lon1) * PI / 180 / 2) ^ 2)))).
    lra.
Qed.

(** ** The adjacency list of [buildGraph] *)

(** The two edge records that a segment [(a, b)] of a way contributes. *)
Definition segment_edge (nodes : gmap Z (R * R)) (way : Way) (u : Z) (e : Edge) : Prop :=
  ∃ a b na nb,
    (a, b) ∈ consecutive (w_nodes way) ∧ nodes !! a = Some na ∧ nodes !! b = Some nb ∧
    ((u = a ∧ e = {| e_to := b; e_dist := haversineM na.1 na.2 nb.1 nb.2;
                     e_name := w_name way |}) ∨
     (u = b ∧ e = {| e_to := a; e_dist := haversineM na.1 na.2 nb.1 nb.2;
                     e_name := w_name way |})).

Lemma segments_edge_in nodes name segs adj u e :
  edge_in (adj_edges (fold_left (add_segment nodes name) segs adj)) u e ↔
  edge_in (adj_edges adj) u e ∨
  ∃ a b na nb,
    (a, b) ∈ segs ∧ nodes !! a = Some na ∧ nodes !! b = Some nb ∧
    ((u = a ∧ e = {| e_to := b; e_dist := haversineM na.1 na.2 nb.1 nb.2;
                     e_name := name |}) ∨
     (u = b ∧ e = {| e_to := a; e_dist := haversineM na.1 na.2 nb.1 nb.2;
                     e_name := name |})).
Proof.
  revert adj. induction segs as [|[a b] segs IH]; intros adj; simpl.
  - split; [by left|]. intros [?|(a & b & na & nb & Hin & _)]; [done|].
    by apply elem_of_nil in Hin.
  - rewrite IH. split.
    + intros [He|(a' & b' & na & nb & Hin & Hrest)].
      * apply add_segment_edge_in in He as [He|(na & nb & Ha & Hb & He)]; [by left|].
        right. exists a, b, na, nb. split; [left|done].
      * right. exists a', b', na, nb. split; [by right|done].
    + intros [He|(a' & b' & na & nb & Hin & Ha & Hb & He)].
      * left. by apply add_segment_keeps.
      * apply elem_of_cons in Hin as [[= -> ->]|Hin].
        -- left. destruct (add_segment_adds nodes name adj (a, b) na nb Ha Hb) as [H1 H2].
           by destruct He as [[-> ->]|[-> ->]].
        -- right. exists a', b', na, nb. done.
Qed.

Lemma ways_edge_in nodes ways adj u e :
  edge_in (adj_edges (fold_left (add_way nodes) ways adj)) u e ↔
  edge_in (adj_edges adj) u e ∨ ∃ way, way ∈ ways ∧ segment_edge nodes way u e.
Proof.
  revert adj. induction ways as [|way ways IH]; intros adj; simpl.
  - split; [by left|]. intros [?|(way & Hin & _)]; [done|]. by apply elem_of_nil in Hin.
  - rewrite IH. unfold add_way at 1. rewrite segments_edge_in. split.
    + intros [[He|Hseg]|(way' & Hin & Hseg)]; [by left|right..].
      * exists way. split; [left|done].
      * exists way'. split; [by right|done].
    + intros [He|(way' & Hin & Hseg)]; [by left; left|].
      apply elem_of_cons in Hin as [->|Hin]; [by left; right|].
      right. by exists way'.
Qed.

Lemma build_adjacency_edge_in nodes ways u e :
  edge_in (adj_edges (build_adjacency nodes ways)) u e ↔
  ∃ way, way ∈ ways ∧ segment_edge nodes way u e.
Proof.
  unfold build_adjacency. rewrite ways_edge_in. split; [|by right].
  intros [(es & Hes & _)|?]; [|done]. simpl in Hes. by rewrite lookup_empty in Hes.
Qed.

Lemma read_ways_driveable elements way :
  way ∈ read_ways elements → w_highway way ∈ DRIVEABLE_TYPES.
Proof.
  unfold read_ways. intros (el & _ & Hel)%list_elem_of_omap.
  destruct el as [| nodes tags |]; try done.
  destruct (tag tags "highway") as [h|]; [|done].
  case_decide; [|done]. by injection Hel as <-.
Qed.

(** X2. The adjacency list of [buildGraph] holds exactly the edge records
    of the segments of the driveable ways whose two end nodes both have
    coordinates: for such a segment one record in each direction, with the
    great-circle distance between the two nodes and the name of the way,
    and no other record.  The ways that contribute have a highway type of
    [DRIVEABLE_TYPES]. *)
Theorem buildGraph_adjacency (elements : list Element) (u : Z) (e : Edge) :
  (edge_in (adj_edges (buildGraph elements).1.2) u e ↔
   ∃ way, way ∈ read_ways elements ∧
          segment_edge (buildGraph elements).1.1 way u e) ∧
  Forall (λ way, w_highway way ∈ DRIVEABLE_TYPES) (read_ways elements).
Proof.
  split.
  - unfold buildGraph. simpl. apply build_adjacency_edge_in.
  - apply Forall_forall. apply read_ways_driveable.
Qed.

(** *** The keys of the adjacency list *)

(** The keys in insertion order are the keys of the map, each once. *)
Definition keys_in_order (adj : AdjacencyList) : Prop :=
  NoDup (adj_order adj) ∧ ∀ id, id ∈ adj_order adj ↔ is_Some (adj_edges adj !! id).

(** Every key has at least one edge record and coordinates. *)
Definition keys_located (nodes : gmap Z (R * R)) (adj : AdjacencyList) : Prop :=
  ∀ id es, adj_edges adj !! id = Some es →
           is_Some (nodes !! id) ∧ ∃ e, e ∈ es.

Lemma addEdge_keys adj from to dist name :
  keys_in_order adj → keys_in_order (addEdge adj from to dist name).
Proof.
  intros [Hnd Hkeys]. unfold keys_in_order, addEdge.
  destruct (adj_edges adj !! from) as [es|] eqn:Hfrom; simpl; split.
  - done.
  - intros id. rewrite Hkeys. destruct (decide (id = from)) as [->|Hne].
    + rewrite lookup_alter_eq, Hfrom. done.
    + by rewrite lookup_alter_ne.
  - apply NoDup_app. split_and!; [done| |apply NoDup_singleton].
    intros id Hin ->%list_elem_of_singleton. apply Hkeys in Hin as [? Hin]. congruence.
  - intros id. rewrite elem_of_app, list_elem_of_singleton, Hkeys.
    destruct (decide (id = from)) as [->|Hne].
    + rewrite lookup_alter_eq, lookup_insert_eq. simpl. split; [eauto|by right].
    + rewrite lookup_alter_ne, lookup_insert_ne by done. split; [|by left].
      by intros [?|?].
Qed.

Lemma addEdge_located nodes adj from to dist name :
  is_Some (nodes !! from) → keys_located nodes adj →
  keys_located nodes (addEdge adj from to dist name).
Proof.
  intros Hfrom Hloc id es. unfold addEdge.
  destruct (adj_edges adj !! from) as [es0|] eqn:Hes0; simpl.
  - destruct (decide (id = from)) as [->|Hne].
    + rewrite lookup_alter_eq, Hes0. simpl. intros [= <-]. split; [done|].
      eexists. apply elem_of_app. right. by left.
    + rewrite lookup_alter_ne by done. apply Hloc.
  - destruct (decide (id = from)) as [->|Hne].
    + rewrite lookup_alter_eq, lookup_insert_eq. simpl. intros [= <-]. split; [done|].
      eexists. by left.
    + rewrite lookup_alter_ne, lookup_insert_ne by done. apply Hloc.
Qed.

Lemma build_adjacency_keys nodes ways :
  keys_in_order (build_adjacency nodes ways) ∧ keys_located nodes (build_adjacency nodes ways).
Proof.
  unfold build_adjacency.
  assert (Hseg : ∀ name ab adj,
            keys_in_order adj ∧ keys_located nodes adj →
            keys_in_order (add_segment nodes name adj ab) ∧
            keys_located nodes (add_segment nodes name adj ab)).
  { intros name ab adj [Hk Hl]. unfold add_segment.
    destruct (nodes !! ab.1) as [na|] eqn:Ha; [|done].
    destruct (nodes !! ab.2) as [nb|] eqn:Hb; [|done].
    split.
    - by apply addEdge_keys, addEdge_keys.
    - apply addEdge_located; [by rewrite Hb|]. apply addEdge_located; [by rewrite Ha|done]. }
  assert (Hways : ∀ adj,
            keys_in_order adj ∧ keys_located nodes adj →
            keys_in_order (fold_left (add_way nodes) ways adj) ∧
            keys_located nodes (fold_left (add_way nodes) ways adj)).
  { induction ways as [|way ways IH]; intros adj Hadj; [done|]. simpl. apply IH.
    unfold add_way. generalize (consecutive (w_nodes way)). intros l. revert adj Hadj.
    induction l as [|ab l IHl]; intros adj Hadj; [done|]. simpl. by apply IHl, Hseg. }
  apply Hways. split; [split|].
  - apply NoDup_nil_2.
  - intros id. simpl. rewrite lookup_empty. split; [by intros ?%elem_of_nil|by intros [? ?]].
  - intros id es. simpl. by rewrite lookup_empty.
Qed.

(** ** The nearest graph node *)

(** The state of the scan of [findNearestNode] after the keys [ids]. *)
Definition nearest_among (nodes : gmap Z (R * R)) (lat lon : R) (ids : list Z)
    (best : option (Z * R)) : Prop :=
  match best with
  | Some (id, d) =>
      id ∈ ids ∧
      ∃ n, nodes !! id = Some n ∧ d = haversineM lat lon n.1 n.2 ∧
           ∀ id' n', id' ∈ ids → nodes !! id' = Some n' →
                     d <= haversineM lat lon n'.1 n'.2
  | None => ∀ id, id ∈ ids → nodes !! id = None
  end.

Lemma nearer_among nodes lat lon ids best id :
  nearest_among nodes lat lon ids best →
  nearest_among nodes lat lon (ids ++ [id]) (nearer nodes lat lon best id).
Proof.
  intros Hbest. unfold nearer.
  destruct (nodes !! id) as [n|] eqn:Hn.
  - destruct best as [[bid bd]|]; simpl in *.
    + destruct Hbest as (Hin & nb & Hnb & -> & Hmin). case_decide as Hlt; simpl.
      * split; [apply elem_of_app; right; by left|].
        exists n. split_and!; [done..|].
        intros id' n' [Hin' | ->%list_elem_of_singleton]%elem_of_app Hn'.
        -- specialize (Hmin _ _ Hin' Hn'). lra.
        -- rewrite Hn in Hn'. injection Hn' as <-. lra.
      * split; [apply elem_of_app; by left|].
        exists nb. split_and!; [done..|].
        intros id' n' [Hin' | ->%list_elem_of_singleton]%elem_of_app Hn'.
        -- by apply (Hmin id').
        -- rewrite Hn in Hn'. injection Hn' as <-. lra.
    + split; [apply elem_of_app; right; by left|].
      exists n. split_and!; [done..|].
      intros id' n' [Hin' | ->%list_elem_of_singleton]%elem_of_app Hn'.
      * by rewrite (Hbest _ Hin') in Hn'.
      * rewrite Hn in Hn'. injection Hn' as <-. lra.
  - destruct best as [[bid bd]|]; simpl in *.
    + destruct Hbest as (Hin & nb & Hnb & -> & Hmin).
      split; [apply elem_of_app; by left|].
      exists nb. split_and!; [done..|].
      intros id' n' [Hin' | ->%list_elem_of_singleton]%elem_of_app Hn'.
      * by apply (Hmin id').
      * congruence.
    + intros id' [Hin' | ->%list_elem_of_singleton]%elem_of_app; [by apply Hbest|done].
Qed.

Lemma findNearestNode_among nodes adj lat lon :
  nearest_among nodes lat lon (adj_order adj) (findNearestNode nodes adj lat lon).
Proof.
  unfold findNearestNode.
  assert (Hfold : ∀ ids done best,
            nearest_among nodes lat lon done best →
            nearest_among nodes lat lon (done ++ ids)
              (fold_left (nearer nodes lat lon) ids best)).
  { induction ids as [|id ids IH]; intros done best Hbest; simpl.
    - by rewrite app_nil_r.
    - replace (done ++ id :: ids) with ((done ++ [id]) ++ ids) by by rewrite <- app_assoc.
      by apply IH, nearer_among. }
  apply (Hfold (adj_order adj) [] None). by intros id ?%elem_of_nil.
Qed.

(** X3. On the graph of [buildGraph], [findNearestNode] returns a node
    that has an adjacency entry, together with its great-circle distance
    from the given position, and no node with an adjacency entry is nearer.
    It returns [{ id: null }] only when the adjacency list is empty. *)
Theorem findNearestNode_nearest (elements : list Element) (lat lon : R) :
  let nodes := (buildGraph elements).1.1 in
  let adj := (buildGraph elements).1.2 in
  match findNearestNode nodes adj lat lon with
  | Some (id, d) =>
      is_Some (adj_edges adj !! id) ∧
      ∃ n, nodes !! id = Some n ∧ d = haversineM lat lon n.1 n.2 ∧
           ∀ id', is_Some (adj_edges adj !! id') →
                  ∃ n', nodes !! id' = Some n' ∧ d <= haversineM lat lon n'.1 n'.2
  | None => adj_edges adj = ∅
  end.
Proof.
  intros nodes adj.
  destruct (build_adjacency_keys nodes (read_ways elements)) as [[_ Hkeys] Hloc].
  fold adj in Hkeys, Hloc.
  pose proof (findNearestNode_among nodes adj lat lon) as Hbest.
  destruct (findNearestNode nodes adj lat lon) as [[id d]|]; simpl in Hbest.
  - destruct Hbest as (Hin & n & Hn & Hd & Hmin).
    split; [by apply Hkeys|]. exists n. split_and!; [done..|].
    intros id' Hid'. destruct (Hid') as [es Hes].
    destruct (Hloc _ _ Hes) as [[n' Hn'] _]. exists n'. split; [done|].
    apply (Hmin id'); [by apply Hkeys|done].
  - apply map_empty. intros id. destruct (adj_edges adj !! id) as [es|] eqn:Hes; [|done].
    destruct (Hloc _ _ Hes) as [[n Hn] _].
    rewrite (Hbest id) in Hn; [done|]. apply Hkeys. by exists es.
Qed.

(** ** Shortest paths, further *)

(** X4. On the adjacency list built from the ways the search of [dijkstra]
    always ends, and it returns [null] exactly when no walk along edge
    records leads from the start node to the end node. *)
Theorem dijkstra_null_iff_unreachable (nodes : gmap Z (R * R)) (ways : list Way)
    (startId endId : Z) :
  let adj := adj_edges (build_adjacency nodes ways) in
  search adj startId endId = Some (dijkstra adj startId endId) ∧
  (dijkstra adj startId endId = None ↔
   ∀ path W, ¬ walk adj startId endId path W).
Proof.
  intros adj. split; [apply dijkstra_total_built|].
  apply dijkstra_null_iff, build_adjacency_well_formed.
Qed.

(** X5. From a node to itself [dijkstra] returns the path of that single
    node, whatever the adjacency list holds (the node need not even occur
    in it). *)
Theorem dijkstra_same_node (adj : gmap Z (list Edge)) (a : Z) :
  dijkstra adj a a = Some [a].
Proof.
  unfold dijkstra, search. cbn [search_loop initial_state st_pq min_index scan_min].
  cbn [lookup list_lookup]. cbn [st_visited].
  rewrite decide_False by set_solver. rewrite decide_True by done.
  cbn [mbind option_bind st_prev]. rewrite decide_False.
  - cbn [unwind initial_state st_prev]. by rewrite lookup_empty.
  - by intros [_ ?].
Qed.

(** ** The stitched route *)

Lemma adjacent_app {A : Type} (P : A → A → Prop) (l k : list A) :
  adjacent P l → adjacent P k →
  (∀ a b, last l = Some a → head k = Some b → P a b) →
  adjacent P (l ++ k).
Proof.
  intros Hl Hk Hseam. revert l Hl Hseam.
  induction k as [|x k IH]; intros l Hl Hseam; [by rewrite app_nil_r|].
  replace (l ++ x :: k) with ((l ++ [x]) ++ k) by by rewrite <- app_assoc.
  apply IH.
  - intros i a b Ha Hb. apply (Hk (S i)); done.
  - apply adjacent_snoc; [done|]. intros a Ha. by apply Hseam.
  - intros a b Ha Hb. rewrite last_snoc in Ha. injection Ha as <-.
    apply (Hk 0%nat); [done|]. by destruct k.
Qed.

Lemma adjacent_drop {A : Type} (P : A → A → Prop) (n : nat) (l : list A) :
  adjacent P l → adjacent P (drop n l).
Proof.
  intros Hl i a b Ha Hb. rewrite lookup_drop in Ha, Hb.
  apply (Hl (n + i)%nat); [done|]. by replace (S (n + i)) with (n + S i)%nat by lia.
Qed.

(** The nodes and the labels that the loop "Append path" pushes. *)
Lemma push_node_fold adj name path s m i st :
  (s ≤ i)%nat → (i + m ≤ length path)%nat →
  (fold_left (push_node adj name path s) (seq i m) st).1 = st.1 ++ take m (drop i path) ∧
  length (fold_left (push_node adj name path s) (seq i m) st).2 = (length st.2 + m)%nat.
Proof.
  revert i st. induction m as [|m IH]; intros i st Hs Hlen.
  - simpl. by rewrite app_nil_r, Nat.add_0_r.
  - cbn [seq fold_left].
    destruct (lookup_lt_is_Some_2 path i ltac:(lia)) as [x Hx].
    destruct (IH (S i) (push_node adj name path s st i) ltac:(lia) ltac:(lia)) as [-> ->].
    rewrite (drop_S _ _ _ Hx). cbn [take].
    assert (Hnth : nth i path 0%Z = x) by by apply nth_lookup_Some.
    unfold push_node. rewrite Hnth.
    destruct (decide (0 < i)%nat) as [Hi|Hi]; [|rewrite decide_True by lia]; cbn [fst snd];
      rewrite <- app_assoc, length_app; simpl; split; done || lia.
Qed.

(** The index from which a path is appended. *)
Definition start_index (fullNodePath path : list Z) : nat :=
  match last fullNodePath, path !! 0%nat with
  | Some l, Some p0 => if decide (p0 = l) then 1%nat else 0%nat
  | _, _ => 0%nat
  end.

Lemma route_step_found adj rb from to path :
  dijkstra adj (gw_nodeId from) (gw_nodeId to) = Some path →
  rb_path (route_step adj rb (from, to)) =
    rb_path rb ++ drop (start_index (rb_path rb) path) path ∧
  length (rb_labels (route_step adj rb (from, to))) =
    (length (rb_labels rb) + (length path - start_index (rb_path rb) path))%nat ∧
  rb_errors (route_step adj rb (from, to)) = rb_errors rb.
Proof.
  intros Hd. unfold route_step. rewrite Hd. fold (start_index (rb_path rb) path).
  assert (Hs : (start_index (rb_path rb) path ≤ length path)%nat).
  { unfold start_index. destruct (last (rb_path rb)); [|lia].
    destruct (path !! 0%nat) eqn:Hp; [|lia]. apply lookup_lt_Some in Hp.
    case_decide; lia. }
  destruct (push_node_fold adj (gw_name from) path (start_index (rb_path rb) path)
              (length path - start_index (rb_path rb) path)
              (start_index (rb_path rb) path) (rb_path rb, rb_labels rb)
              ltac:(lia) ltac:(lia)) as [Hp Hl].
  destruct (fold_left _ _ _) as [p l]. simpl in *.
  rewrite Hp, Hl. split_and!; [|done..].
  by rewrite take_ge by (rewrite length_drop; lia).
Qed.

Lemma route_step_labels adj rb pair :
  length (rb_labels rb) = length (rb_path rb) →
  length (rb_labels (route_step adj rb pair)) = length (rb_path (route_step adj rb pair)).
Proof.
  intros Hlen. destruct pair as [from to].
  destruct (dijkstra adj (gw_nodeId from) (gw_nodeId to)) as [path|] eqn:Hd.
  - destruct (route_step_found adj rb from to path Hd) as (-> & -> & _).
    rewrite length_app, length_drop. lia.
  - unfold route_step. by rewrite Hd.
Qed.

(** X6. [buildRoute] keeps [streetLabels] aligned with [fullNodePath]:
    whatever the graph and the waypoints, the stitching loop pushes exactly
    one label for every node it pushes. *)
Theorem stitch_labels_aligned (adj : gmap Z (list Edge)) (gws : list GraphWaypoint) :
  length (rb_labels (stitch adj gws)) = length (rb_path (stitch adj gws)).
Proof.
  unfold stitch. generalize (waypoint_pairs gws). intros pairs.
  assert (Hfold : ∀ rb, length (rb_labels rb) = length (rb_path rb) →
            length (rb_labels (fold_left (route_step adj) pairs rb)) =
            length (rb_path (fold_left (route_step adj) pairs rb))).
  { induction pairs as [|pair pairs IH]; intros rb Hrb; [done|].
    simpl. by apply IH, route_step_labels. }
  by apply Hfold.
Qed.

(** *** The route as a closed walk *)

(** An edge record leads from [a] to [b]. *)
Definition link (adj : gmap Z (list Edge)) (a b : Z) : Prop :=
  ∃ e, edge_in adj a e ∧ e_to e = b.

(** The waypoint pairs form a chain that starts at node [c]. *)
Fixpoint chain_from (c : Z) (pairs : list (GraphWaypoint * GraphWaypoint)) : Prop :=
  match pairs with
  | [] => True
  | (from, to) :: rest => gw_nodeId from = c ∧ chain_from (gw_nodeId to) rest
  end.

Fixpoint chain_end (c : Z) (pairs : list (GraphWaypoint * GraphWaypoint)) : Z :=
  match pairs with
  | [] => c
  | (_, to) :: rest => chain_end (gw_nodeId to) rest
  end.

Lemma rotate_one {A : Type} (x : A) (l : list A) : rotate 1 (x :: l) = l ++ [x].
Proof.
  unfold rotate. destruct l as [|y l]; [done|].
  replace (1 `mod` length (x :: y :: l))%nat with 1%nat; [done|].
  symmetry. apply Nat.mod_small. simpl. lia.
Qed.

Lemma zip_chain x rest g0 :
  chain_from (gw_nodeId x) (zip (x :: rest) (rest ++ [g0])) ∧
  chain_end (gw_nodeId x) (zip (x :: rest) (rest ++ [g0])) = gw_nodeId g0 ∧
  ∀ g, g ∈ x :: rest → ∃ pair, pair ∈ zip (x :: rest) (rest ++ [g0]) ∧ pair.1 = g.
Proof.
  revert x. induction rest as [|y rest IH]; intros x.
  - split_and!; [done..|]. intros g ->%list_elem_of_singleton. exists (x, g0).
    split; [left|done].
  - destruct (IH y) as (Hc & He & Hin). split_and!; [done..|].
    intros g [->|Hg]%elem_of_cons.
    + exists (x, y). split; [left|done].
    + destruct (Hin g Hg) as (pair & Hpair & <-). exists pair. split; [by right|done].
Qed.

Lemma waypoint_pairs_chain g0 rest :
  chain_from (gw_nodeId g0) (waypoint_pairs (g0 :: rest)) ∧
  chain_end (gw_nodeId g0) (waypoint_pairs (g0 :: rest)) = gw_nodeId g0 ∧
  ∀ g, g ∈ g0 :: rest → ∃ pair, pair ∈ waypoint_pairs (g0 :: rest) ∧ pair.1 = g.
Proof. unfold waypoint_pairs. rewrite rotate_one. apply zip_chain. Qed.

Lemma dijkstra_links adj a b path :
  nonneg_weights adj → dijkstra adj a b = Some path →
  adjacent (link adj) path ∧ head path = Some a ∧ last path = Some b.
Proof.
  intros Hnn Hd. destruct (dijkstra_sound adj a Hnn b path Hd) as (W & Hwalk & _).
  destruct (walk_ends _ _ _ _ _ Hwalk) as [Hhead Hlast].
  split_and!; [|done..]. by apply walk_edges in Hwalk.
Qed.

(** The state of the stitching after a chain of pairs that ended at [c]:
    nothing was pushed yet, or the path is a chain of edges from [start]
    to [c]. *)
Definition stitched (adj : gmap Z (list Edge)) (start : option Z) (c : Z) (rb : RouteBuild)
    : Prop :=
  match start with
  | None => rb_path rb = []
  | Some s =>
      adjacent (link adj) (rb_path rb) ∧ head (rb_path rb) = Some s ∧
      last (rb_path rb) = Some c
  end.

Lemma route_step_stitched adj start rb from to path :
  nonneg_weights adj →
  dijkstra adj (gw_nodeId from) (gw_nodeId to) = Some path →
  stitched adj start (gw_nodeId from) rb →
  stitched adj (Some (default (gw_nodeId from) start)) (gw_nodeId to)
           (route_step adj rb (from, to)) ∧
  (∀ x, x ∈ rb_path rb → x ∈ rb_path (route_step adj rb (from, to))) ∧
  gw_nodeId from ∈ rb_path (route_step adj rb (from, to)).
Proof.
  intros Hnn Hd Hrb.
  destruct (route_step_found adj rb from to path Hd) as (Hpath & _ & _).
  destruct (dijkstra_links adj _ _ path Hnn Hd) as (Hadj & Hhead & Hlast).
  destruct path as [|p0 path]; [done|]. injection Hhead as ->.
  destruct start as [s|]; unfold stitched in Hrb |- *; cbn [default]; rewrite !Hpath.
  - destruct Hrb as (Hrb & Hs & Hc). unfold start_index. rewrite Hc.
    cbn [lookup list_lookup]. rewrite decide_True by done. cbn [drop]. rewrite drop_0. split_and!.
    + apply adjacent_app; [done|intros i a b Ha Hb; by apply (Hadj (S i))|].
      intros a b Ha Hb. rewrite Hc in Ha. injection Ha as <-.
      apply (Hadj 0%nat); [done|]. by destruct path.
    + by destruct (rb_path rb).
    + rewrite last_app. destruct path as [|p1 path]; simpl in Hlast |- *; [congruence|].
      by rewrite Hlast.
    + intros x Hx. apply elem_of_app. by left.
    + apply elem_of_app. left. rewrite last_lookup in Hc. by eapply list_elem_of_lookup_2.
  - rewrite Hrb. unfold start_index. cbn [last drop app]. split_and!; [done..| |left].
    intros x Hx. by apply elem_of_nil in Hx.
Qed.

Lemma stitch_fold_stitched adj pairs start c rb :
  nonneg_weights adj →
  chain_from c pairs → stitched adj start c rb →
  rb_errors (fold_left (route_step adj) pairs rb) = [] →
  pairs ≠ [] →
  stitched adj (Some (default c start)) (chain_end c pairs)
           (fold_left (route_step adj) pairs rb) ∧
  (∀ pair, pair ∈ pairs →
           gw_nodeId pair.1 ∈ rb_path (fold_left (route_step adj) pairs rb)).
Proof.
  intros Hnn. revert start c rb.
  induction pairs as [|[from to] pairs IH]; intros start c rb Hchain Hrb Herr Hne; [done|].
  destruct Hchain as [<- Hchain]. cbn [fold_left chain_end] in *.
  destruct (dijkstra adj (gw_nodeId from) (gw_nodeId to)) as [path|] eqn:Hd.
  - destruct (route_step_stitched adj start rb from to path Hnn Hd Hrb)
      as (Hstep & Hkeep & Hfrom).
    assert (Hmono : ∀ x, x ∈ rb_path (route_step adj rb (from, to)) →
                    x ∈ rb_path (fold_left (route_step adj) pairs
                                   (route_step adj rb (from, to)))).
    { clear -Hnn. generalize (route_step adj rb (from, to)). intros rb0.
      revert rb0. induction pairs as [|[f t] pairs IH]; intros rb0 x Hx; [done|].
      cbn [fold_left]. apply IH.
      destruct (dijkstra adj (gw_nodeId f) (gw_nodeId t)) as [p|] eqn:Hp.
      - destruct (route_step_found adj rb0 f t p Hp) as (-> & _). apply elem_of_app. by left.
      - unfold route_step. by rewrite Hp. }
    destruct pairs as [|pair pairs].
    + simpl in *. split; [done|]. intros pair ->%list_elem_of_singleton. done.
    + destruct (IH _ _ _ Hchain Hstep Herr ltac:(done)) as [Hfin Hall].
      split; [done|]. intros pr [->|Hpr]%elem_of_cons; [|by apply Hall].
      by apply Hmono.
  - exfalso.
    assert (Hin : (gw_name from, gw_name to) ∈
                  rb_errors (fold_left (route_step adj) pairs (route_step adj rb (from, to)))).
    { apply stitch_errors. unfold route_step. rewrite Hd. simpl.
      apply elem_of_app. right. by left. }
    rewrite Herr in Hin. by apply elem_of_nil in Hin.
Qed.

(** X7. When the stitching loop reports no error, the node path it builds
    is a closed walk: it starts and ends at the node of the first
    waypoint, every two consecutive nodes are joined by an edge record of
    the graph, and the node of every waypoint lies on it. *)
Theorem stitched_route_closed_walk (nodes : gmap Z (R * R)) (ways : list Way)
    (gws : list GraphWaypoint) (g0 : GraphWaypoint) :
  let adj := adj_edges (build_adjacency nodes ways) in
  head gws = Some g0 →
  rb_errors (stitch adj gws) = [] →
  head (rb_path (stitch adj gws)) = Some (gw_nodeId g0) ∧
  last (rb_path (stitch adj gws)) = Some (gw_nodeId g0) ∧
  (∀ i a b, rb_path (stitch adj gws) !! i = Some a →
            rb_path (stitch adj gws) !! S i = Some b →
            ∃ e, edge_in adj a e ∧ e_to e = b) ∧
  (∀ g, g ∈ gws → gw_nodeId g ∈ rb_path (stitch adj gws)).
Proof.
  intros adj Hhead Herr. destruct gws as [|g rest]; [done|]. injection Hhead as ->.
  destruct (build_adjacency_well_formed nodes ways) as [_ Hnn]. fold adj in Hnn.
  destruct (waypoint_pairs_chain g0 rest) as (Hchain & Hend & Hin).
  unfold stitch in *.
  destruct (stitch_fold_stitched adj (waypoint_pairs (g0 :: rest)) None (gw_nodeId g0)
              {| rb_path := []; rb_labels := []; rb_errors := [] |} Hnn Hchain
              ltac:(done) Herr) as [(Hadj & Hfirst & Hlast) Hall].
  { unfold waypoint_pairs. rewrite rotate_one. by destruct rest. }
  rewrite Hend in Hlast. simpl in Hfirst. split_and!; [done..|].
  intros g Hg. destruct (Hin g Hg) as (pair & Hpair & <-). by apply Hall.
Qed.

Definition bridge_south : GraphWaypoint :=
  {| gw_name := "Westminster Bridge (south)"; gw_nodeId := 1 |}.
Definition bridge_north : GraphWaypoint :=
  {| gw_name := "Westminster Bridge (north)"; gw_nodeId := 2 |}.
Definition bridge_waypoints : list GraphWaypoint := [bridge_south; bridge_north].

Lemma dijkstra_two_nodes_back :
  dijkstra (adj_edges (build_adjacency two_nodes one_way)) 2 1 = Some [2%Z; 1%Z].
Proof.
  unfold build_adjacency, one_way, add_way, consecutive. cbn -[add_segment two_nodes].
  unfold add_segment. cbn [fst snd].
  replace (two_nodes !! 1%Z) with (Some (51.5007, -0.1218)) by reflexivity.
  replace (two_nodes !! 2%Z) with (Some (51.5013, -0.1220)) by reflexivity.
  cbn [fst snd]. abstract_distances. vm_compute. reflexivity.
Qed.

Lemma bridge_no_errors :
  rb_errors (stitch (adj_edges (build_adjacency two_nodes one_way)) bridge_waypoints) = [].
Proof.
  unfold stitch, bridge_waypoints, waypoint_pairs. rewrite rotate_one.
  cbn [app zip zip_with fold_left].
  destruct (route_step_found (adj_edges (build_adjacency two_nodes one_way))
              (route_step (adj_edges (build_adjacency two_nodes one_way))
                 {| rb_path := []; rb_labels := []; rb_errors := [] |}
                 (bridge_south, bridge_north))
              bridge_north bridge_south [2%Z; 1%Z] dijkstra_two_nodes_back) as (_ & _ & ->).
  by destruct (route_step_found (adj_edges (build_adjacency two_nodes one_way))
                 {| rb_path := []; rb_labels := []; rb_errors := [] |}
                 bridge_south bridge_north [1%Z; 2%Z] dijkstra_two_nodes) as (_ & _ & ->).
Qed.

Lemma stitched_route_closed_walk_witness :
  let adj := adj_edges (build_adjacency two_nodes one_way) in
  head (rb_path (stitch adj bridge_waypoints)) = Some 1%Z ∧
  last (rb_path (stitch adj bridge_waypoints)) = Some 1%Z ∧
  (∀ i a b, rb_path (stitch adj bridge_waypoints) !! i = Some a →
            rb_path (stitch adj bridge_waypoints) !! S i = Some b →
            ∃ e, edge_in adj a e ∧ e_to e = b) ∧
  (∀ g, g ∈ bridge_waypoints → gw_nodeId g ∈ rb_path (stitch adj bridge_waypoints)).
Proof.
  exact (stitched_route_closed_walk two_nodes one_way bridge_waypoints bridge_south
           eq_refl bridge_no_errors).
Defined.

(** *** Coordinates of the route nodes *)

Lemma walk_nodes adj u v path W :
  walk adj u v path W → ∀ x, x ∈ path → x = u ∨ ∃ y e, edge_in adj y e ∧ e_to e = x.
Proof.
  induction 1 as [|v path W e Hw IH He]; intros x Hx.
  - apply list_elem_of_singleton in Hx. by left.
  - apply elem_of_app in Hx as [Hx | ->%list_elem_of_singleton]; [by apply IH|].
    right. by exists v, e.
Qed.

Lemma built_edge_located nodes ways y e :
  edge_in (adj_edges (build_adjacency nodes ways)) y e →
  is_Some (nodes !! y) ∧ is_Some (nodes !! e_to e).
Proof.
  intros (way & _ & a & b & na & nb & _ & Ha & Hb & [[-> ->]|[-> ->]])%build_adjacency_edge_in;
    simpl; by rewrite Ha, Hb.
Qed.

Lemma stitch_located nodes ways pairs rb :
  let adj := adj_edges (build_adjacency nodes ways) in
  Forall (λ pair : GraphWaypoint * GraphWaypoint, is_Some (nodes !! gw_nodeId pair.1)) pairs →
  Forall (λ id, is_Some (nodes !! id)) (rb_path rb) →
  Forall (λ id, is_Some (nodes !! id)) (rb_path (fold_left (route_step adj) pairs rb)).
Proof.
  intros adj Hpairs. revert rb.
  destruct (build_adjacency_well_formed nodes ways) as [_ Hnn]. fold adj in Hnn.
  induction Hpairs as [|[from to] pairs Hfrom Hpairs IH]; intros rb Hrb; [done|].
  cbn [fold_left]. apply IH. cbn [fst] in Hfrom.
  destruct (dijkstra adj (gw_nodeId from) (gw_nodeId to)) as [path|] eqn:Hd.
  - destruct (route_step_found adj rb from to path Hd) as (-> & _).
    apply Forall_app. split; [done|]. apply Forall_forall. intros x Hx.
    destruct (dijkstra_sound adj _ Hnn _ _ Hd) as (W & Hwalk & _).
    assert (Hx' : x ∈ path) by (by eapply elem_of_sublist; [|apply sublist_drop]).
    destruct (walk_nodes _ _ _ _ _ Hwalk x Hx') as [-> | (y & e & He & <-)]; [done|].
    by apply built_edge_located in He as [_ ?].
  - unfold route_step. by rewrite Hd.
Qed.

Lemma omap_located_length (nodes : gmap Z (R * R)) (path : list Z) :
  Forall (λ id, is_Some (nodes !! id)) path →
  length (omap (λ id, nodes !! id) path) = length path.
Proof.
  induction 1 as [|id path [n Hn] _ IH]; [done|].
  change (omap (λ id, nodes !! id) (id :: path))
    with (match nodes !! id with
          | Some y => y :: omap (λ id, nodes !! id) path
          | None => omap (λ id, nodes !! id) path
          end).
  rewrite Hn. simpl. by rewrite IH.
Qed.

(** X8. On the graph of [buildGraph], every node of the route that
    [buildRoute] stitches has coordinates, so that [routeLatLng] has an
    entry for each node of [fullNodePath] and none of them is [undefined].
    [buildRoute] maps the waypoints to [null] only when the adjacency list
    is empty. *)
Theorem route_nodes_have_coordinates (elements : list Element) :
  let nodes := (buildGraph elements).1.1 in
  let adj := (buildGraph elements).1.2 in
  match buildRoute nodes adj with
  | Some rb =>
      Forall (λ id, is_Some (nodes !! id)) (rb_path rb) ∧
      length (omap (λ id, nodes !! id) (rb_path rb)) = length (rb_path rb)
  | None => adj_edges adj = ∅
  end.
Proof.
  intros nodes adj. unfold buildRoute.
  pose proof (findNearestNode_among nodes adj) as Hnear.
  destruct (build_adjacency_keys nodes (read_ways elements)) as [[_ Hkeys] Hloc].
  fold adj in Hkeys, Hloc.
  destruct (map_waypoints nodes adj LOOP_WAYPOINTS) as [gws|] eqn:Hgws; simpl.
  - assert (Hall : Forall (λ id, is_Some (nodes !! id))
                     (rb_path (stitch (adj_edges adj) gws))).
    { unfold stitch. apply (stitch_located nodes (read_ways elements)); [|done].
      unfold map_waypoints in Hgws. apply mapM_Some in Hgws.
      assert (Hg : Forall (λ g, is_Some (nodes !! gw_nodeId g)) gws).
      { induction Hgws as [|wp g wps gws Hwp _ IH]; [done|]. constructor; [|done].
        specialize (Hnear (wp_lat wp) (wp_lon wp)).
        destruct (findNearestNode nodes adj (wp_lat wp) (wp_lon wp)) as [[id d]|];
          [|done].
        simpl in Hwp. injection Hwp as <-. simpl.
        destruct Hnear as (_ & n & -> & _). done. }
      unfold waypoint_pairs. clear -Hg. revert Hg. generalize (rotate 1 gws).
      induction gws as [|g gws IH]; intros l Hg; [done|].
      destruct l as [|x l]; [done|]. simpl.
      apply Forall_cons in Hg as [Hg Hgws]. constructor; [done|]. by apply IH. }
    split; [done|]. by apply omap_located_length.
  - unfold map_waypoints in Hgws. apply mapM_None in Hgws.
    apply Exists_exists in Hgws as (wp & _ & Hwp).
    specialize (Hnear (wp_lat wp) (wp_lon wp)).
    destruct (findNearestNode nodes adj (wp_lat wp) (wp_lon wp)) as [[id d]|]; [done|].
    apply map_empty. intros id. destruct (adj_edges adj !! id) as [es|] eqn:Hes; [|done].
    destruct (Hloc _ _ Hes) as [[n Hn] _].
    rewrite (Hnear id) in Hn; [done|]. apply Hkeys. by exists es.
Qed.

(** ** Projection to game coordinates *)

Lemma fold_min_spec (l : list R) (m : R) :
  let r := fold_left (λ m x, if decide (x < m) then x else m) l m in
  (r = m ∨ r ∈ l) ∧ r <= m ∧ ∀ x, x ∈ l → r <= x.
Proof.
  revert m. induction l as [|y l IH]; intros m; simpl.
  - split_and!; [by left|lra|]. by intros x ?%elem_of_nil.
  - destruct (IH (if decide (y < m) then y else m)) as (Hin & Hle & Hall).
    case_decide as Hlt.
    + split_and!.
      * destruct Hin as [->|Hin]; right; [left|by right].
      * lra.
      * intros x [->|Hx]%elem_of_cons; [done|by apply Hall].
    + split_and!.
      * destruct Hin as [->|Hin]; [by left|right; by right].
      * done.
      * intros x [->|Hx]%elem_of_cons; [lra|by apply Hall].
Qed.

Lemma fold_max_spec (l : list R) (m : R) :
  let r := fold_left (λ m x, if decide (m < x) then x else m) l m in
  (r = m ∨ r ∈ l) ∧ m <= r ∧ ∀ x, x ∈ l → x <= r.
Proof.
  revert m. induction l as [|y l IH]; intros m; simpl.
  - split_and!; [by left|lra|]. by intros x ?%elem_of_nil.
  - destruct (IH (if decide (m < y) then y else m)) as (Hin & Hle & Hall).
    case_decide as Hlt.
    + split_and!.
      * destruct Hin as [->|Hin]; right; [left|by right].
      * lra.
      * intros x [->|Hx]%elem_of_cons; [done|by apply Hall].
    + split_and!.
      * destruct Hin as [->|Hin]; [by left|right; by right].
      * done.
      * intros x [->|Hx]%elem_of_cons; [lra|by apply Hall].
Qed.

(** On a non-empty list the running minimum and maximum are elements of
    the list that bound all of it. *)
Lemma list_min_spec (l : list R) :
  l ≠ [] → list_min l ∈ l ∧ ∀ x, x ∈ l → list_min l <= x.
Proof.
  destruct l as [|y l]; [done|]. intros _. unfold list_min. simpl.
  destruct (fold_min_spec l y) as (Hin & Hle & Hall). split.
  - destruct Hin as [->|Hin]; [left|by right].
  - intros x [->|Hx]%elem_of_cons; [done|by apply Hall].
Qed.

Lemma list_max_spec (l : list R) :
  l ≠ [] → list_max l ∈ l ∧ ∀ x, x ∈ l → x <= list_max l.
Proof.
  destruct l as [|y l]; [done|]. intros _. unfold list_max. simpl.
  destruct (fold_max_spec l y) as (Hin & Hle & Hall). split.
  - destruct Hin as [->|Hin]; [left|by right].
  - intros x [->|Hx]%elem_of_cons; [done|by apply Hall].
Qed.

(** Rounding to one decimal place never crosses a multiple of 0.1. *)
Lemma round1_between (v : R) (n m : Z) :
  IZR n / 10 <= v <= IZR m / 10 → IZR n / 10 <= round1 v <= IZR m / 10.
Proof.
  intros [Hn Hm]. unfold round1, round, floor.
  destruct (base_Int_part (v * 10 + / 2)) as [H1 H2].
  assert (Hlo : (n <= Int_part (v * 10 + / 2))%Z).
  { apply Z.lt_succ_r, lt_IZR. rewrite succ_IZR. lra. }
  assert (Hhi : (Int_part (v * 10 + / 2) <= m)%Z).
  { apply Z.lt_succ_r, lt_IZR. rewrite succ_IZR. lra. }
  apply IZR_le in Hlo, Hhi. lra.
Qed.

Lemma round1_within (v : R) : -250 <= v <= 250 → -250 <= round1 v <= 250.
Proof. intros Hv. destruct (round1_between v (-2500) 2500); lra. Qed.

(** The scaled coordinate of a raw coordinate [x] between [lo] and [hi],
    when the span [hi - lo] is at most [maxSpan]. *)
Lemma scaled_within (x lo hi maxSpan : R) :
  lo <= x <= hi → hi - lo <= maxSpan → 0 < maxSpan →
  -250 <= (x - (lo + hi) / 2) * (TARGET_SPAN / maxSpan) <= 250.
Proof.
  intros Hx Hspan Hpos. unfold TARGET_SPAN.
  assert (Hinv : 0 < / maxSpan) by by apply Rinv_0_lt_compat.
  assert (Hone : maxSpan * / maxSpan = 1) by (apply Rinv_r; lra).
  replace ((x - (lo + hi) / 2) * (500 / maxSpan))
    with (500 * ((x - (lo + hi) / 2) * / maxSpan)) by (unfold Rdiv; ring).
  assert (- (maxSpan / 2) * / maxSpan <= (x - (lo + hi) / 2) * / maxSpan
          <= (maxSpan / 2) * / maxSpan).
  { split; apply Rmult_le_compat_r; lra. }
  replace (- (maxSpan / 2) * / maxSpan) with (- ((maxSpan * / maxSpan) / 2)) in H
    by (unfold Rdiv; ring).
  replace ((maxSpan / 2) * / maxSpan) with ((maxSpan * / maxSpan) / 2) in H
    by (unfold Rdiv; ring).
  rewrite Hone in H. lra.
Qed.

Lemma scaled_ends (lo hi : R) :
  0 < hi - lo →
  (lo - (lo + hi) / 2) * (TARGET_SPAN / (hi - lo)) = -250 ∧
  (hi - (lo + hi) / 2) * (TARGET_SPAN / (hi - lo)) = 250.
Proof. intros Hpos. unfold TARGET_SPAN. split; field; lra. Qed.

(** X9. When two points of the route project to different positions,
    [projectToGameCoords] scales by a positive factor and centres the
    route on the origin: every coordinate of the game route lies between
    -250 and 250, and along the axis of the larger extent the route spans
    exactly [TARGET_SPAN], from -250 to 250.  The game route has one point
    for each route point. *)
Theorem projected_route_fits (routeLatLng : list (R * R)) (busStops : list BusStop) :
  let pr := projectToGameCoords routeLatLng busStops in
  (∃ p q, p ∈ routeLatLng ∧ q ∈ routeLatLng ∧
          project (pr_lat0 pr) (pr_lng0 pr) (pr_cosLat pr) p.1 p.2 ≠
          project (pr_lat0 pr) (pr_lng0 pr) (pr_cosLat pr) q.1 q.2) →
  0 < pr_scale pr ∧
  length (pr_gameRoute pr) = length routeLatLng ∧
  (∀ g, g ∈ pr_gameRoute pr → -250 <= g.1 <= 250 ∧ -250 <= g.2 <= 250) ∧
  ((∃ g h, g ∈ pr_gameRoute pr ∧ h ∈ pr_gameRoute pr ∧ g.1 = -250 ∧ h.1 = 250) ∨
   (∃ g h, g ∈ pr_gameRoute pr ∧ h ∈ pr_gameRoute pr ∧ g.2 = -250 ∧ h.2 = 250)).
Proof.
  cbv zeta. intros (p & q & Hp & Hq & Hne).
  unfold projectToGameCoords in *.
  cbn [pr_lat0 pr_lng0 pr_cosLat pr_scale pr_gameRoute] in *.
  set (lat0 := mean (fst <$> routeLatLng)) in *.
  set (lng0 := mean (snd <$> routeLatLng)) in *.
  set (cosLat := cos (lat0 * PI / 180)) in *.
  set (raw := (λ p, project lat0 lng0 cosLat p.1 p.2) <$> routeLatLng) in *.
  assert (Hraw : ∀ r, r ∈ routeLatLng → project lat0 lng0 cosLat r.1 r.2 ∈ raw).
  { intros r Hr. unfold raw. apply list_elem_of_fmap. by exists r. }
  assert (Hxs : fst <$> raw ≠ []).
  { intros Hnil. apply fmap_nil_inv in Hnil. specialize (Hraw p Hp).
    rewrite Hnil in Hraw. by apply elem_of_nil in Hraw. }
  assert (Hzs : snd <$> raw ≠ []).
  { intros Hnil. apply fmap_nil_inv in Hnil. specialize (Hraw p Hp).
    rewrite Hnil in Hraw. by apply elem_of_nil in Hraw. }
  destruct (list_min_spec _ Hxs) as [HminX_in HminX].
  destruct (list_max_spec _ Hxs) as [HmaxX_in HmaxX].
  destruct (list_min_spec _ Hzs) as [HminZ_in HminZ].
  destruct (list_max_spec _ Hzs) as [HmaxZ_in HmaxZ].
  set (minX := list_min (fst <$> raw)) in *. set (maxX := list_max (fst <$> raw)) in *.
  set (minZ := list_min (snd <$> raw)) in *. set (maxZ := list_max (snd <$> raw)) in *.
  assert (HX : ∀ r, r ∈ raw → minX <= r.1 <= maxX).
  { intros r Hr. split; [apply HminX|apply HmaxX]; apply list_elem_of_fmap; by exists r. }
  assert (HZ : ∀ r, r ∈ raw → minZ <= r.2 <= maxZ).
  { intros r Hr. split; [apply HminZ|apply HmaxZ]; apply list_elem_of_fmap; by exists r. }
  set (maxSpan := Rmax (maxX - minX) (maxZ - minZ)).
  assert (HspanX : maxX - minX <= maxSpan) by apply Rmax_l.
  assert (HspanZ : maxZ - minZ <= maxSpan) by apply Rmax_r.
  assert (Hpos : 0 < maxSpan).
  { pose proof (HX _ (Hraw p Hp)) as HpX. pose proof (HX _ (Hraw q Hq)) as HqX.
    pose proof (HZ _ (Hraw p Hp)) as HpZ. pose proof (HZ _ (Hraw q Hq)) as HqZ.
    destruct (Rlt_dec 0 maxSpan) as [|Hzero]; [done|]. exfalso. apply Hne.
    destruct (project lat0 lng0 cosLat p.1 p.2) as [px pz].
    destruct (project lat0 lng0 cosLat q.1 q.2) as [qx qz]. simpl in *.
    f_equal; lra. }
  split_and!.
  - apply Rdiv_lt_0_compat; [unfold TARGET_SPAN; lra|done].
  - unfold raw. by rewrite !length_fmap.
  - intros g (r & -> & Hr)%list_elem_of_fmap. unfold to_game. simpl.
    split.
    + apply round1_within, scaled_within; [by apply HX|done..].
    + apply round1_within, scaled_within; [by apply HZ|done..].
  - destruct (Rle_dec (maxZ - minZ) (maxX - minX)) as [Hwide|Htall].
    + left. assert (Hspan : maxSpan = maxX - minX) by by apply Rmax_left.
      apply list_elem_of_fmap in HminX_in as (a & Ha & Hain).
      apply list_elem_of_fmap in HmaxX_in as (b & Hb & Hbin).
      destruct (scaled_ends minX maxX ltac:(lra)) as [Hlo Hhi].
      exists (to_game ((minX + maxX) / 2) ((minZ + maxZ) / 2) (TARGET_SPAN / maxSpan) a),
             (to_game ((minX + maxX) / 2) ((minZ + maxZ) / 2) (TARGET_SPAN / maxSpan) b).
      split_and!; [apply list_elem_of_fmap; by eexists..| |]; unfold to_game; simpl.
      * rewrite <- Ha, Hspan, Hlo. apply (round1_int _ (-250)). lra.
      * rewrite <- Hb, Hspan, Hhi. by apply (round1_int _ 250).
    + right. assert (Hspan : maxSpan = maxZ - minZ) by (apply Rmax_right; lra).
      apply list_elem_of_fmap in HminZ_in as (a & Ha & Hain).
      apply list_elem_of_fmap in HmaxZ_in as (b & Hb & Hbin).
      destruct (scaled_ends minZ maxZ ltac:(lra)) as [Hlo Hhi].
      exists (to_game ((minX + maxX) / 2) ((minZ + maxZ) / 2) (TARGET_SPAN / maxSpan) a),
             (to_game ((minX + maxX) / 2) ((minZ + maxZ) / 2) (TARGET_SPAN / maxSpan) b).
      split_and!; [apply list_elem_of_fmap; by eexists..| |]; unfold to_game; simpl.
      * rewrite <- Ha, Hspan, Hlo. apply (round1_int _ (-250)). lra.
      * rewrite <- Hb, Hspan, Hhi. by apply (round1_int _ 250).
Qed.

(** Two route points on the same meridian. *)
Definition meridian_route : list (R * R) := [ (51.5, -0.12); (51.51, -0.12) ].

Lemma projected_route_fits_witness :
  let pr := projectToGameCoords meridian_route [] in
  0 < pr_scale pr ∧
  length (pr_gameRoute pr) = length meridian_route ∧
  (∀ g, g ∈ pr_gameRoute pr → -250 <= g.1 <= 250 ∧ -250 <= g.2 <= 250) ∧
  ((∃ g h, g ∈ pr_gameRoute pr ∧ h ∈ pr_gameRoute pr ∧ g.1 = -250 ∧ h.1 = 250) ∨
   (∃ g h, g ∈ pr_gameRoute pr ∧ h ∈ pr_gameRoute pr ∧ g.2 = -250 ∧ h.2 = 250)).
Proof.
  apply (projected_route_fits meridian_route []).
  exists (51.5, -0.12), (51.51, -0.12).
  split; [left|]. split; [right; left|].
  unfold project. cbn [fst snd].
  generalize (pr_lat0 (projectToGameCoords meridian_route [])).
  intros lat0 Heq. apply (f_equal snd) in Heq. cbn [snd] in Heq. lra.
Defined.

(** ** Topology cleanup, further *)

Lemma with_labels_cons p rest labels :
  with_labels (p :: rest) labels = (p, label_index labels 0) :: with_labels rest (tail labels).
Proof.
  unfold with_labels. rewrite imap_cons. f_equal. apply imap_ext.
  intros j q _. simpl. f_equal. unfold label_index.
  destruct labels; [by destruct j|done].
Qed.

Lemma with_labels_fst route labels : (with_labels route labels).*1 = route.
Proof.
  revert labels. induction route as [|p rest IH]; intros labels; [done|].
  rewrite with_labels_cons. simpl. by rewrite IH.
Qed.

Lemma with_labels_length route labels : length (with_labels route labels) = length route.
Proof. unfold with_labels. apply length_imap. Qed.

Lemma filter_out_sublist {A : Type} (T : gset nat) (i : nat) (l : list A) :
  filter_out T i l `sublist_of` l.
Proof.
  revert i. induction l as [|x l IH]; intros i; simpl; [done|].
  case_decide; [by apply sublist_cons|by apply sublist_skip].
Qed.

Lemma filter_out_head {A : Type} (T : gset nat) (l : list A) :
  0%nat ∉ T → head (filter_out T 0 l) = head l.
Proof. intros H0. destruct l as [|x l]; simpl; [done|]. by rewrite decide_False. Qed.

Lemma filter_out_last {A : Type} (T : gset nat) (i : nat) (l : list A) :
  (i + length l - 1)%nat ∉ T → last (filter_out T i l) = last l.
Proof.
  revert i. induction l as [|x l IH]; intros i Hlast; [done|].
  destruct l as [|y l].
  - simpl in *. rewrite decide_False; [done|]. by replace i with (i + 1 - 1)%nat by lia.
  - specialize (IH (S i)). cbn [length] in IH, Hlast.
    replace (S i + S (length l) - 1)%nat with (i + S (S (length l)) - 1)%nat in IH by lia.
    specialize (IH Hlast).
    change (filter_out T i (x :: y :: l))
      with (if decide (i ∈ T) then filter_out T (S i) (y :: l)
            else x :: filter_out T (S i) (y :: l)).
    case_decide; [done|].
    by rewrite (last_cons x (filter_out _ _ _)), (last_cons x (y :: l)), IH.
Qed.

Lemma with_labels_filter (T : gset nat) (i : nat) route labels :
  with_labels (filter_out T i route) (filter_out T i labels) =
  filter_out T i (with_labels route labels).
Proof.
  revert i labels. induction route as [|p rest IH]; intros i labels; [done|].
  rewrite with_labels_cons. simpl. case_decide as Hi.
  - rewrite <- IH. f_equal. destruct labels as [|l ls]; simpl; [done|].
    by rewrite decide_True.
  - rewrite with_labels_cons, <- IH. destruct labels as [|l ls]; simpl; [done|].
    by rewrite decide_False.
Qed.

(** What the cleanup keeps of a route and its labels: the points in their
    order, each with its own label, and the two end points. *)
Definition keeps (route : list point) (labels : list string)
    (route' : list point) (labels' : list string) : Prop :=
  with_labels route' labels' `sublist_of` with_labels route labels ∧
  head route' = head route ∧ last route' = last route.

Lemma clean_pass_keeps route labels :
  keeps route labels (clean_pass route labels).1.1 (clean_pass route labels).1.2.
Proof.
  unfold clean_pass. destruct (scan_spec route) as [_ Hmem].
  destruct (scan route) as [toRemove cleanPass]. simpl in *.
  case_decide; simpl; [|done]. split_and!.
  - rewrite with_labels_filter. apply filter_out_sublist.
  - apply filter_out_head. rewrite Hmem. lia.
  - apply filter_out_last. rewrite Hmem. lia.
Qed.

Lemma keeps_trans route labels r1 l1 r2 l2 :
  keeps route labels r1 l1 → keeps r1 l1 r2 l2 → keeps route labels r2 l2.
Proof.
  intros (H1 & H2 & H3) (H4 & H5 & H6). split_and!; [|congruence..].
  by transitivity (with_labels r1 l1).
Qed.

Lemma clean_loop_keeps fuel route labels route' labels' :
  clean_loop fuel route labels = Some (route', labels') → keeps route labels route' labels'.
Proof.
  revert route labels. induction fuel as [|fuel IH]; intros route labels; [done|].
  simpl. pose proof (clean_pass_keeps route labels) as Hpass.
  destruct (clean_pass route labels) as [[r l] cleanPass]. simpl in Hpass.
  destruct cleanPass.
  - intros Hloop. eapply keeps_trans; [done|]. by apply IH.
  - by intros [= <- <-].
Qed.

(** Two points more than 0.5 apart. *)
Definition apart (a b : point) : Prop := 0.5 < pdist b a.

(** The state of the collapse after the labelled points [done]. *)
Definition collapsed (p0 : point) (done : list (point * string))
    (st : list point * list string) : Prop :=
  length st.1 = length st.2 ∧
  zip st.1 st.2 `sublist_of` done ∧
  head st.1 = Some p0 ∧
  adjacent apart st.1 ∧
  ∀ a b, last st.1 = Some a → last done = Some b → pdist b.1 a <= 0.5.

Lemma collapse_step_collapsed p0 done st pl :
  collapsed p0 done st → collapsed p0 (done ++ [pl]) (collapse_step st pl).
Proof.
  destruct st as [ps ls]. unfold collapsed. cbn [fst snd].
  intros (Hlen & Hsub & Hhead & Hadj & Hlast). unfold collapse_step. cbn [fst snd].
  destruct (last ps) as [q|] eqn:Hq; [|by apply last_None in Hq as ->].
  change (hypot (pl.1.1 - q.1) (pl.1.2 - q.2)) with (pdist pl.1 q).
  case_decide as Hfar; cbn [fst snd].
  - split_and!.
    + rewrite !length_app. simpl. lia.
    + rewrite (zip_with_app pair ps [pl.1] ls [pl.2] Hlen). destruct pl as [p l]. simpl.
      by apply sublist_app.
    + by destruct ps.
    + apply adjacent_snoc; [done|]. intros a Ha. rewrite Hq in Ha. by injection Ha as <-.
    + intros a b. rewrite !last_snoc. intros [= <-] [= <-].
      rewrite pdist_refl. lra.
  - split_and!; [done| |done..|].
    + by apply sublist_inserts_r.
    + intros a b Ha. rewrite last_snoc. intros [= <-]. rewrite Hq in Ha.
      injection Ha as <-. lra.
Qed.

Lemma collapse_fold_collapsed p0 rest done st :
  collapsed p0 done st → collapsed p0 (done ++ rest) (fold_left collapse_step rest st).
Proof.
  revert done st. induction rest as [|pl rest IH]; intros done st Hst; simpl.
  - by rewrite app_nil_r.
  - replace (done ++ pl :: rest) with ((done ++ [pl]) ++ rest) by by rewrite <- app_assoc.
    by apply IH, collapse_step_collapsed.
Qed.

Lemma collapse_spec route labels p0 :
  head route = Some p0 → collapsed p0 (with_labels route labels) (collapse route labels).
Proof.
  intros Hhead. destruct route as [|p rest]; [done|]. injection Hhead as ->.
  unfold collapse. rewrite with_labels_cons.
  apply (collapse_fold_collapsed p0 _ [(p0, label_index labels 0)]).
  split_and!; [done..|apply adjacent_singleton|].
  intros a b [= <-] [= <-]. rewrite pdist_refl. lra.
Qed.

Lemma cleanRoute_spec gameRoute rawStreetLabels p0 :
  head gameRoute = Some p0 →
  ∃ r l route labels,
    cleanRoute gameRoute rawStreetLabels = Some (r, l) ∧
    keeps gameRoute rawStreetLabels route labels ∧
    collapsed p0 (with_labels route labels) (r, l).
Proof.
  intros Hhead. unfold cleanRoute.
  destruct (clean_loop_terminates (S (length gameRoute)) gameRoute rawStreetLabels
              ltac:(lia)) as (route & labels & Hloop & _).
  rewrite Hloop. simpl.
  pose proof (clean_loop_keeps _ _ _ _ _ Hloop) as Hkeeps.
  destruct (collapse route labels) as [r l] eqn:Hcol.
  exists r, l, route, labels. split_and!; [done..|].
  rewrite <- Hcol. apply collapse_spec. destruct Hkeeps as (_ & -> & _). done.
Qed.

(** X10. Step 5a never reorders or invents anything: on a non-empty route
    it returns points of the route in their order, each with the label it
    had, with as many labels as points; the first point is kept, and the
    last point returned lies within 0.5 of the last point of the route. *)
Theorem cleanRoute_keeps_order (gameRoute : list point) (rawStreetLabels : list string)
    (p0 : point) :
  head gameRoute = Some p0 →
  ∃ r l,
    cleanRoute gameRoute rawStreetLabels = Some (r, l) ∧
    zip r l `sublist_of` with_labels gameRoute rawStreetLabels ∧
    r `sublist_of` gameRoute ∧
    length l = length r ∧
    head r = Some p0 ∧
    ∀ a b, last r = Some a → last gameRoute = Some b → pdist b a <= 0.5.
Proof.
  intros Hhead.
  destruct (cleanRoute_spec gameRoute rawStreetLabels p0 Hhead)
    as (r & l & route & labels & Hclean & (Hsub & _ & Hlast) & Hcol).
  destruct Hcol as (Hlen & Hzip & Hfirst & _ & Hend). simpl in *.
  exists r, l. split_and!; [done| | |done..|].
  - by transitivity (with_labels route labels).
  - rewrite <- (with_labels_fst gameRoute rawStreetLabels).
    rewrite <- (fst_zip r l) by lia.
    apply (fmap_sublist fst). by transitivity (with_labels route labels).
  - intros a b Ha Hb. rewrite <- Hlast in Hb.
    assert (Hlab : last (with_labels route labels) = Some (b, label_index labels (length route - 1))).
    { rewrite last_lookup, with_labels_length. unfold with_labels.
      rewrite list_lookup_imap. rewrite last_lookup in Hb. rewrite Hb. simpl.
      do 3 f_equal. lia. }
    apply (Hend a _ Ha Hlab).
Qed.

Lemma cleanRoute_keeps_order_witness :
  ∃ r l,
    cleanRoute straight straight_labels = Some (r, l) ∧
    zip r l `sublist_of` with_labels straight straight_labels ∧
    r `sublist_of` straight ∧
    length l = length r ∧
    head r = Some (0, 0) ∧
    ∀ a b, last r = Some a → last straight = Some b → pdist b a <= 0.5.
Proof. exact (cleanRoute_keeps_order straight straight_labels (0, 0) eq_refl). Defined.

(** X11. In the route that step 5a returns for a non-empty route, every
    two consecutive points are more than 0.5 apart. *)
Theorem cleanRoute_points_apart (gameRoute : list point) (rawStreetLabels : list string) :
  gameRoute ≠ [] →
  ∃ r l,
    cleanRoute gameRoute rawStreetLabels = Some (r, l) ∧
    ∀ i a b, r !! i = Some a → r !! S i = Some b → 0.5 < pdist b a.
Proof.
  intros Hne. destruct gameRoute as [|p0 rest]; [done|].
  destruct (cleanRoute_spec (p0 :: rest) rawStreetLabels p0 eq_refl)
    as (r & l & route & labels & Hclean & _ & Hcol).
  destruct Hcol as (_ & _ & _ & Hadj & _). by exists r, l.
Qed.

Lemma cleanRoute_points_apart_witness :
  ∃ r l,
    cleanRoute kinked kinked_labels = Some (r, l) ∧
    ∀ i a b, r !! i = Some a → r !! S i = Some b → 0.5 < pdist b a.
Proof. apply (cleanRoute_points_apart kinked kinked_labels). discriminate. Defined.

(** ** Resampling, further *)

(** The entry of index [j] is, up to rounding, the point of the route at
    arc length [SAMPLE_INTERVAL * j]. *)
Definition on_grid (route finalRoute : list point) : Prop :=
  ∀ j e, finalRoute !! j = Some e → near_path route (SAMPLE_INTERVAL * INR j) e.

Lemma sample_loop_grid route fuel d k acc :
  (2 ≤ length route)%nat →
  totalLen route < d + SAMPLE_INTERVAL * INR fuel →
  d = SAMPLE_INTERVAL * INR (length acc) →
  (1 ≤ length acc)%nat →
  d - SAMPLE_INTERVAL <= totalLen route →
  (k + 2 ≤ length route)%nat →
  cum_at (cumLen route) k <= d →
  on_grid route acc →
  ∃ out,
    sample_loop fuel route (cumLen route) (totalLen route) d k acc = Some out ∧
    on_grid route out ∧ head out = head acc ∧ (1 ≤ length out)%nat ∧
    SAMPLE_INTERVAL * (INR (length out) - 1) <= totalLen route
      <= SAMPLE_INTERVAL * INR (length out).
Proof.
  intros Hn. revert d k acc.
  induction fuel as [|fuel IH]; intros d k acc Hfuel Hd Hlen Hprev Hk Hcum Hgrid.
  - simpl in *. rewrite decide_False by lra. exists acc. split_and!; [done..|lra|lra].
  - simpl. case_decide as Hlt.
    + rewrite S_INR in Hfuel.
      set (k' := find_segment (cumLen route) (length route) d k).
      destruct (advance_spec (length route - k) (cumLen route) (length route) d k
                  ltac:(lia)) as (Hle & Hk' & Hcum' & Hexit).
      fold (find_segment (cumLen route) (length route) d k) in Hle, Hk', Hcum', Hexit.
      fold k' in Hle, Hk', Hcum', Hexit.
      specialize (Hk' Hk). specialize (Hcum' Hcum).
      assert (Hhi : d <= cum_at (cumLen route) (k' + 1)).
      { destruct (decide (k' + 2 < length route)%nat) as [Hlt'|Hge].
        - apply Rnot_lt_le. tauto.
        - rewrite totalLen_eq in Hlt.
          replace (k' + 1)%nat with (length route - 1)%nat by lia. lra. }
      pose proof (interpolate_near route d k' Hk' (conj Hcum' Hhi)) as Hnew.
      destruct (IH (d + SAMPLE_INTERVAL) k'
                  (acc ++ [interpolate route (cumLen route) k' d]))
        as (out & Hout & Hgrid' & Hhead & Hlen' & Hbounds).
      * lra.
      * rewrite length_app, plus_INR. simpl. lra.
      * rewrite length_app. simpl. lia.
      * lra.
      * done.
      * unfold SAMPLE_INTERVAL. lra.
      * intros j e Hj. apply lookup_app_Some in Hj as [Hj|[Hge Hj]]; [by apply Hgrid|].
        apply list_lookup_singleton_Some in Hj as [Hj <-].
        replace j with (length acc) by lia. rewrite <- Hd. exact Hnew.
      * exists out. split_and!; [done|done| |done|lra|lra]. rewrite Hhead.
        destruct acc; [simpl in Hlen; lia|done].
    + exists acc. split_and!; [done..|lra|lra].
Qed.

(** X12. Resampling a route of at least two points samples it at uniform
    arc length: for some [n], the first [n] points returned are, up to the
    rounding of their coordinates to one decimal place, the points of the
    polyline at arc lengths 0, 25, 50, ...; the total length of the
    polyline lies between [25 * (n - 1)] and [25 * n]; and the only other
    point returned, if any, is the last point of the route, appended at
    the end. *)
Theorem resample_uniform (route : list point) :
  (2 ≤ length route)%nat →
  ∃ finalRoute sampled,
    resample route = Some finalRoute ∧
    (finalRoute = sampled ∨
     finalRoute = sampled ++ [at_index route (length route - 1)]) ∧
    (1 ≤ length sampled)%nat ∧
    SAMPLE_INTERVAL * (INR (length sampled) - 1) <= totalLen route
      <= SAMPLE_INTERVAL * INR (length sampled) ∧
    ∀ j e, sampled !! j = Some e →
           ∃ k x, at_arc route k (SAMPLE_INTERVAL * INR j) x ∧
                  -0.05 <= e.1 - x.1 <= 0.05 ∧ -0.05 <= e.2 - x.2 <= 0.05.
Proof.
  intros Hn. unfold resample.
  destruct (sample_loop_grid route (sample_fuel (totalLen route)) SAMPLE_INTERVAL 0
              [at_index route 0] Hn) as (out & -> & Hgrid & _ & Hlen & Hbounds).
  - apply sample_fuel_enough.
  - simpl. lra.
  - simpl. lia.
  - rewrite totalLen_eq.
    pose proof (cum_mono route 0 (length route - 1) ltac:(lia) ltac:(lia)).
    rewrite cum_at_zero in *. lra.
  - lia.
  - rewrite cum_at_zero. unfold SAMPLE_INTERVAL. lra.
  - intros j e [-> <-]%list_lookup_singleton_Some.
    simpl. rewrite Rmult_0_r. rewrite <- (cum_at_zero route).
    apply (near_path_exact _ 0), at_arc_vertex. lia.
  - simpl. exists (include_last route out), out.
    split_and!; [done| |done|lra|lra|exact Hgrid].
    unfold include_last. case_decide; [by right|by left].
Qed.

Lemma resample_uniform_witness :
  ∃ finalRoute sampled,
    resample straight = Some finalRoute ∧
    (finalRoute = sampled ∨
     finalRoute = sampled ++ [at_index straight (length straight - 1)]) ∧
    (1 ≤ length sampled)%nat ∧
    SAMPLE_INTERVAL * (INR (length sampled) - 1) <= totalLen straight
      <= SAMPLE_INTERVAL * INR (length sampled) ∧
    ∀ j e, sampled !! j = Some e →
           ∃ k x, at_arc straight k (SAMPLE_INTERVAL * INR j) x ∧
                  -0.05 <= e.1 - x.1 <= 0.05 ∧ -0.05 <= e.2 - x.2 <= 0.05.
Proof. apply (resample_uniform straight). simpl. lia. Defined.

Lemma sample_loop_head fuel route cum total d k acc out :
  sample_loop fuel route cum total d k acc = Some out →
  acc ≠ [] → head out = head acc ∧ out ≠ [].
Proof.
  revert d k acc. induction fuel as [|fuel IH]; intros d k acc; simpl.
  - case_decide; [done|]. by intros [= <-].
  - case_decide; [|by intros [= <-]]. intros Hout Hne.
    destruct (IH _ _ _ Hout ltac:(by destruct acc)) as [-> Hne'].
    split; [by destruct acc|done].
Qed.

(** The sampling loop always ends within its bound. *)
Lemma sample_loop_total route :
  ∃ sampled,
    sample_loop (sample_fuel (totalLen route)) route (cumLen route) (totalLen route)
      SAMPLE_INTERVAL 0 [at_index route 0] = Some sampled.
Proof.
  destruct (decide (2 ≤ length route)%nat) as [Hn|Hn].
  - destruct (sample_loop_grid route (sample_fuel (totalLen route)) SAMPLE_INTERVAL 0
                [at_index route 0] Hn) as (out & Hout & _); [..|by exists out].
    + apply sample_fuel_enough.
    + simpl. lra.
    + simpl. lia.
    + rewrite totalLen_eq.
      pose proof (cum_mono route 0 (length route - 1) ltac:(lia) ltac:(lia)).
      rewrite cum_at_zero in *. lra.
    + lia.
    + rewrite cum_at_zero. unfold SAMPLE_INTERVAL. lra.
    + intros j e [-> <-]%list_lookup_singleton_Some.
      simpl. rewrite Rmult_0_r. rewrite <- (cum_at_zero route).
      apply (near_path_exact _ 0), at_arc_vertex. lia.
  - assert (Htotal : totalLen route = 0).
    { unfold totalLen. destruct route as [|p [|q rest]]; simpl in *; [done..|lia]. }
    rewrite Htotal. exists [at_index route 0]. apply sample_loop_stop.
    unfold SAMPLE_INTERVAL. lra.
Qed.

(** X13. The resampled route of a non-empty route starts at the first
    point of the route, and it ends within 1 of the last point of the
    route. *)
Theorem resample_ends (route : list point) (p0 : point) :
  head route = Some p0 →
  ∃ finalRoute,
    resample route = Some finalRoute ∧
    head finalRoute = Some p0 ∧
    ∀ a b, last finalRoute = Some a → last route = Some b → pdist b a <= 1.
Proof.
  intros Hhead. unfold resample.
  destruct (sample_loop_total route) as [sampled Hloop]. rewrite Hloop. simpl.
  eexists. split; [done|].
  destruct (sample_loop_head _ _ _ _ _ _ _ _ Hloop ltac:(done)) as [Hfirst Hne].
  assert (H0 : at_index route 0 = p0) by (by destruct route; simplify_eq/=).
  simpl in Hfirst. rewrite H0 in Hfirst.
  unfold include_last. split.
  - case_decide; [|done]. by destruct sampled.
  - intros a b Ha Hb.
    assert (HlastFull : at_index route (length route - 1) = b).
    { unfold at_index. rewrite last_lookup in Hb.
      replace (length route - 1)%nat with (pred (length route)) by lia.
      by apply nth_lookup_Some. }
    case_decide as Hfar.
    + rewrite last_snoc in Ha. injection Ha as <-. rewrite HlastFull, pdist_refl. lra.
    + assert (HlastSampled : at_index sampled (length sampled - 1) = a).
      { unfold at_index. rewrite last_lookup in Ha.
        replace (length sampled - 1)%nat with (pred (length sampled)) by lia.
        by apply nth_lookup_Some. }
      rewrite HlastFull, HlastSampled in Hfar.
      change (hypot (b.1 - a.1) (b.2 - a.2)) with (pdist b a) in Hfar. lra.
Qed.

Lemma resample_ends_witness :
  ∃ finalRoute,
    resample straight = Some finalRoute ∧
    head finalRoute = Some (0, 0) ∧
    ∀ a b, last finalRoute = Some a → last straight = Some b → pdist b a <= 1.
Proof. exact (resample_ends straight (0, 0) eq_refl). Defined.

(** ** Loop closure, further *)

(** X14. [closeLoop] on a non-empty route appends at most one point, a
    copy of the first; afterwards the first and the last point of the
    route are at most 5 apart, and closing the loop once more changes
    nothing. *)
Theorem closeLoop_closes (route : list point) (p0 : point) :
  head route = Some p0 →
  (closeLoop route = route ∨ closeLoop route = route ++ [p0]) ∧
  head (closeLoop route) = Some p0 ∧
  (∀ b, last (closeLoop route) = Some b → pdist p0 b <= 5) ∧
  closeLoop (closeLoop route) = closeLoop route.
Proof.
  intros Hhead.
  assert (H0 : ∀ l, head l = Some p0 → at_index l 0 = p0).
  { intros l Hl. by destruct l; simplify_eq/=. }
  assert (Hlast : ∀ l b, last l = Some b → at_index l (length l - 1) = b).
  { intros l b Hb. unfold at_index. rewrite last_lookup in Hb.
    replace (length l - 1)%nat with (pred (length l)) by lia. by apply nth_lookup_Some. }
  assert (Hclosed : ∀ l b, head l = Some p0 → last l = Some b → pdist p0 b <= 5 →
                           closeLoop l = l).
  { intros l b Hl Hb Hgap. unfold closeLoop. rewrite (H0 l Hl), (Hlast l b Hb).
    change (hypot (p0.1 - b.1) (p0.2 - b.2)) with (pdist p0 b).
    by rewrite decide_False by lra. }
  destruct (last route) as [b|] eqn:Hb; [|by apply last_None in Hb as ->].
  assert (Heq : closeLoop route = if decide (5 < pdist p0 b) then route ++ [p0] else route).
  { unfold closeLoop. rewrite (H0 route Hhead), (Hlast route b Hb).
    change (hypot (p0.1 - b.1) (p0.2 - b.2)) with (pdist p0 b). by destruct p0. }
  rewrite Heq. case_decide as Hgap.
  - split_and!.
    + by right.
    + by destruct route.
    + intros b'. rewrite last_snoc. intros [= <-]. rewrite pdist_refl. lra.
    + apply (Hclosed _ p0); [by destruct route|apply last_snoc|].
      rewrite pdist_refl. lra.
  - split_and!.
    + by left.
    + done.
    + intros b' Hb'. rewrite Hb in Hb'. injection Hb' as <-. lra.
    + apply (Hclosed _ b); [done..|lra].
Qed.

Lemma closeLoop_closes_witness :
  (closeLoop straight = straight ∨ closeLoop straight = straight ++ [(0, 0)]) ∧
  head (closeLoop straight) = Some (0, 0) ∧
  (∀ b, last (closeLoop straight) = Some b → pdist (0, 0) b <= 5) ∧
  closeLoop (closeLoop straight) = closeLoop straight.
Proof. exact (closeLoop_closes straight (0, 0) eq_refl). Defined.

(** ** Stop matching, further *)

(** [(j, d)] is the first point of [route] at the least distance [d] from
    [(px, pz)]. *)
Definition first_nearest (px pz : R) (route : list point) (j : nat) (d : R) : Prop :=
  ∃ q, route !! j = Some q ∧ d = dist2d px pz q.1 q.2 ∧
       ∀ j' q', route !! j' = Some q' →
                d <= dist2d px pz q'.1 q'.2 ∧ ((j' < j)%nat → d < dist2d px pz q'.1 q'.2).

Lemma nearest_from_spec px pz route done best :
  match best with
  | Some (j, d) => first_nearest px pz done j d
  | None => done = []
  end →
  match nearest_from px pz route (length done) best with
  | Some (j, d) => first_nearest px pz (done ++ route) j d
  | None => done ++ route = []
  end.
Proof.
  revert done best. induction route as [|q route IH]; intros done best Hbest.
  - simpl. rewrite app_nil_r. exact Hbest.
  - cbn [nearest_from].
    replace (done ++ q :: route) with ((done ++ [q]) ++ route) by by rewrite <- app_assoc.
    replace (S (length done)) with (length (done ++ [q]))
      by (rewrite length_app; simpl; lia).
    apply IH. destruct best as [[j d]|].
    + destruct Hbest as (qb & Hqb & Hd & Hmin).
      assert (Hj : (j < length done)%nat) by by eapply lookup_lt_Some.
      case_decide as Hlt.
      * exists q. split_and!; [by apply list_lookup_middle|done|].
        intros j' q' Hq'. apply lookup_app_Some in Hq' as [Hq'|[Hge Hq']].
        -- destruct (Hmin j' q' Hq'). split; [lra|]. intros _. lra.
        -- apply list_lookup_singleton_Some in Hq' as [Hz <-]. split; [by right|].
           intros Hj'. exfalso. unfold point in *. lia.
      * exists qb. split_and!; [by apply lookup_app_l_Some|done|].
        intros j' q' Hq'. apply lookup_app_Some in Hq' as [Hq'|[Hge Hq']].
        -- by apply Hmin.
        -- apply list_lookup_singleton_Some in Hq' as [Hz <-]. split; [lra|].
           intros Hj'. exfalso. unfold point in *. lia.
    + subst done. simpl. exists q. split_and!; [done..|].
      intros j' q' Hq'. apply list_lookup_singleton_Some in Hq' as [-> <-].
      split; [by right|intros Hj'; exfalso; unfold point in *; lia].
Qed.

Lemma nearest_spec px pz route :
  match nearest px pz route with
  | Some (j, d) => first_nearest px pz route j d
  | None => route = []
  end.
Proof. apply (nearest_from_spec px pz route [] None). done. Qed.

(** Candidate [c] is the match of [stop]: it carries the name and the
    position of the stop, the index of the first route point nearest to
    it, and the distance to that point, which is within the radius. *)
Definition matches (route : list point) (matchRadius : R) (stop : GameStop)
    (c : Candidate) : Prop :=
  c_name c = gs_name stop ∧ c_lat c = gs_lat stop ∧ c_lon c = gs_lon stop ∧
  c_dist c <= matchRadius ∧
  ∃ q, route !! c_idx c = Some q ∧
       c_dist c = pdist (gs_gamePos stop) q ∧
       ∀ j q', route !! j = Some q' →
               c_dist c <= pdist (gs_gamePos stop) q' ∧
               ((j < c_idx c)%nat → c_dist c < pdist (gs_gamePos stop) q').

Definition matched (route : list point) (gameStops : list GameStop) (matchRadius : R)
    (c : Candidate) : Prop :=
  ∃ stop, stop ∈ gameStops ∧ matches route matchRadius stop c.

Lemma candidate_of_matches route matchRadius stop c :
  candidate_of route matchRadius stop = Some c → matches route matchRadius stop c.
Proof.
  unfold candidate_of.
  pose proof (nearest_spec (gs_gamePos stop).1 (gs_gamePos stop).2 route) as Hn.
  destruct (nearest _ _ route) as [[j d]|]; [|done].
  case_decide as Hr; [|done]. intros [= <-]. unfold matches. simpl.
  destruct Hn as (q & Hq & Hd & Hmin). split_and!; [done..|]. by exists q.
Qed.

Lemma dedup_step_elem deduped c x :
  x ∈ dedup_step deduped c → x ∈ deduped ∨ x = c.
Proof.
  assert (Hins : ∀ i, x ∈ <[i := c]> deduped → x ∈ deduped ∨ x = c).
  { intros i (j & Hj)%list_elem_of_lookup_1.
    apply list_lookup_insert_Some in Hj as [(_ & -> & _)|[_ Hj]]; [by right|].
    left. by eapply list_elem_of_lookup_2. }
  unfold dedup_step. destruct (list_find _ _) as [[i nearby]|].
  - repeat case_match; eauto.
  - intros [? | ->%list_elem_of_singleton]%elem_of_app; eauto.
Qed.

Lemma dedup_fold_elem candidates deduped x :
  x ∈ fold_left dedup_step candidates deduped → x ∈ deduped ∨ x ∈ candidates.
Proof.
  revert deduped. induction candidates as [|c cs IH]; intros deduped; simpl; [by left|].
  intros [[?| ->]%dedup_step_elem|?]%IH; [by left|right; left|right; by right].
Qed.

Lemma matchBusStops_elem route gameStops matchRadius c :
  c ∈ matchBusStops route gameStops matchRadius → matched route gameStops matchRadius c.
Proof.
  unfold matchBusStops. intros Hc.
  apply elem_of_take in Hc as (i & Hc & _). apply list_elem_of_lookup_2 in Hc.
  destruct (spacing_fold c_idx route
              (dedup (sort_by c_idx (collect_candidates route gameStops matchRadius))) [])
    as (kept & Hkept & Hsub).
  rewrite Hkept in Hc. simpl in Hc. apply (elem_of_sublist _ _ _ Hc) in Hsub.
  apply dedup_fold_elem in Hsub as [Hnil|Hsort]; [by apply elem_of_nil in Hnil|].
  rewrite sort_by_perm in Hsort. unfold collect_candidates in Hsort.
  apply list_elem_of_omap in Hsort as (stop & Hstop & Hcand).
  exists stop. split; [done|]. by apply candidate_of_matches.
Qed.

(** X15. Every candidate that [matchBusStops] returns is the match of one
    of the given stops: it carries that stop's name and position, its
    index is that of the first route point nearest to the stop, its
    distance is the distance to that point, and this distance is within
    the match radius.  In particular every index is a valid index of the
    route, and nothing is returned for an empty route. *)
Theorem matchBusStops_nearest_within_radius (route : list point)
    (gameStops : list GameStop) (matchRadius : R) :
  Forall (λ c, (c_idx c < length route)%nat ∧
               ∃ stop, stop ∈ gameStops ∧ matches route matchRadius stop c)
         (matchBusStops route gameStops matchRadius) ∧
  matchBusStops [] gameStops matchRadius = [].
Proof.
  assert (Hall : Forall (λ c, (c_idx c < length route)%nat ∧
                              ∃ stop, stop ∈ gameStops ∧ matches route matchRadius stop c)
                        (matchBusStops route gameStops matchRadius)).
  { apply Forall_forall. intros c Hc.
    destruct (matchBusStops_elem _ _ _ _ Hc) as (stop & Hstop & Hm).
    split; [|by exists stop].
    destruct Hm as (_ & _ & _ & _ & q & Hq & _). by eapply lookup_lt_Some. }
  split; [done|].
  assert (Hnone : collect_candidates [] gameStops matchRadius = []).
  { clear Hall. unfold collect_candidates. induction gameStops as [|stop l IH]; [done|].
    change (omap (candidate_of [] matchRadius) (stop :: l))
      with (omap (candidate_of [] matchRadius) l).
    exact IH. }
  unfold matchBusStops. by rewrite Hnone.
Qed.

(** ** Naming the stops, further *)

Lemma street_label_truthy labels idx : truthy (Some (street_label labels idx)) = true.
Proof.
  unfold street_label. destruct (labels !! _) as [l|]; [|done].
  destruct (String.eqb l "") eqn:E; [done|]. simpl. by rewrite E.
Qed.

Lemma keeps_name_truthy n : keeps_name n = true → truthy n = true.
Proof. destruct n as [s|]; [|done]. simpl. by intros [? _]%andb_true_iff. Qed.

Lemma assignStreetNames_truthy stops labels :
  Forall (λ s, truthy (s_name s) = true) (assignStreetNames stops labels).
Proof.
  unfold assignStreetNames. change (map ?f stops) with (f <$> stops).
  apply Forall_forall. intros s (s0 & -> & _)%list_elem_of_fmap.
  destruct (keeps_name (s_name s0)) eqn:E; [by apply keeps_name_truthy|].
  apply street_label_truthy.
Qed.

Lemma assignStreetNames_lookup stops labels i s :
  stops !! i = Some s →
  assignStreetNames stops labels !! i =
  Some (if keeps_name (s_name s) then s
        else {| s_idx := s_idx s; s_name := Some (street_label labels (s_idx s)) |}).
Proof.
  intros Hs. unfold assignStreetNames.
  change (map ?f stops) with (f <$> stops). by rewrite list_lookup_fmap, Hs.
Qed.

(** X16. [assignStreetNames] changes no index and no real name (a
    non-empty name that does not start with "Stop "); it leaves every stop
    with a non-empty name; a stop whose index is past the labels takes the
    last label, and with no labels at all the name is "Unknown"; and
    applying it a second time changes nothing. *)
Theorem assignStreetNames_names (stops : list Stop) (streetLabels : list string) :
  s_idx <$> assignStreetNames stops streetLabels = s_idx <$> stops ∧
  Forall (λ s, truthy (s_name s) = true) (assignStreetNames stops streetLabels) ∧
  (∀ i s, stops !! i = Some s → keeps_name (s_name s) = true →
          assignStreetNames stops streetLabels !! i = Some s) ∧
  (∀ idx, (length streetLabels - 1 ≤ idx)%nat →
          street_label streetLabels idx = street_label streetLabels (length streetLabels - 1)) ∧
  (∀ idx, street_label [] idx = "Unknown"%string) ∧
  assignStreetNames (assignStreetNames stops streetLabels) streetLabels =
    assignStreetNames stops streetLabels.
Proof.
  split_and!.
  - apply assignStreetNames_idx.
  - apply assignStreetNames_truthy.
  - intros i s Hs Hkeep. rewrite (assignStreetNames_lookup _ _ _ _ Hs). by rewrite Hkeep.
  - intros idx Hidx. unfold street_label.
    by replace (idx `min` (length streetLabels - 1))%nat
      with ((length streetLabels - 1) `min` (length streetLabels - 1))%nat by lia.
  - done.
  - apply list_eq. intros i.
    destruct (stops !! i) as [s|] eqn:Hs.
    + rewrite (assignStreetNames_lookup _ _ _ _ (assignStreetNames_lookup _ _ _ _ Hs)).
      rewrite (assignStreetNames_lookup _ _ _ _ Hs).
      destruct (keeps_name (s_name s)) eqn:E; [by rewrite E|]. simpl.
      by destruct (_ && _).
    + assert (Hnone : assignStreetNames stops streetLabels !! i = None).
      { unfold assignStreetNames. change (map ?f stops) with (f <$> stops).
        by rewrite list_lookup_fmap, Hs. }
      rewrite Hnone. unfold assignStreetNames at 1.
      change (map ?f ?l) with (f <$> l). by rewrite list_lookup_fmap, Hnone.
Qed.

(** *** Unique names *)

(** How many of the first [i] stops bear the name [n]. *)
Definition earlier (stops : list Stop) (i : nat) (n : option string) : nat :=
  length (filter (λ t, s_name t = n) (take i stops)).

(** The stop [s] when [k] earlier stops bear its name. *)
Definition suffixed (s : Stop) (k : nat) : Stop :=
  if decide (k = 0)%nat then s
  else {| s_idx := s_idx s;
          s_name := Some (stop_text s +:+ " " +:+ nth ((k - 1) `mod` 5) suffixes "") |}.

Lemma dedup_names_fold rest done out seen :
  (∀ n, default 0%nat (seen !! n) = length (filter (λ t, s_name t = n) done)) →
  out = imap (λ i s, suffixed s (earlier (done ++ rest) i (s_name s))) done →
  (fold_left dedup_name_step rest (out, seen)).1 =
  imap (λ i s, suffixed s (earlier (done ++ rest) i (s_name s))) (done ++ rest).
Proof.
  revert done out seen. induction rest as [|s rest IH]; intros done out seen Hseen Hout.
  - simpl. by rewrite app_nil_r in *.
  - cbn [fold_left].
    replace (done ++ s :: rest) with ((done ++ [s]) ++ rest) in * by by rewrite <- app_assoc.
    set (k := length (filter (λ t, s_name t = s_name s) done)).
    assert (Hnew : dedup_name_step (out, seen) s =
                   (out ++ [suffixed s k], <[s_name s := S k]> seen)).
    { unfold dedup_name_step. cbn [fst snd]. rewrite Hseen. fold k.
      replace (k + 1)%nat with (S k) by lia. unfold suffixed.
      destruct k as [|k'].
      - rewrite decide_False by lia. by rewrite decide_True.
      - rewrite decide_True by lia. rewrite decide_False by lia.
        by replace (S (S k') - 2)%nat with (S k' - 1)%nat by lia. }
    rewrite Hnew. apply IH.
    + intros n. rewrite filter_app, length_app.
      destruct (decide (s_name s = n)) as [<-|Hne].
      * rewrite lookup_insert_eq. simpl. rewrite filter_cons_True by done. simpl.
        unfold k. lia.
      * rewrite lookup_insert_ne by done. rewrite filter_cons_False by done.
        simpl. rewrite Hseen. lia.
    + rewrite imap_app. simpl. rewrite <- Hout. do 3 f_equal. unfold earlier, k.
      rewrite Nat.add_0_r, <- (app_assoc done), take_app_length. done.
Qed.

Lemma deduplicateStopNames_imap stops :
  deduplicateStopNames stops =
  imap (λ i s, suffixed s (earlier stops i (s_name s))) stops.
Proof.
  unfold deduplicateStopNames.
  apply (dedup_names_fold stops [] [] ∅); [|done].
  intros n. by rewrite lookup_empty.
Qed.

(** X17. [deduplicateStopNames] changes names only, and by position: a
    stop whose name no earlier stop bears is left as it is, and a stop
    with [k >= 1] earlier bearers of its name gets that name followed by a
    space and the suffix of index [(k - 1) mod 5] of North, South, East,
    West, Central. *)
Theorem deduplicateStopNames_by_position (stops : list Stop) :
  deduplicateStopNames stops =
    imap (λ i s, suffixed s (earlier stops i (s_name s))) stops ∧
  length (deduplicateStopNames stops) = length stops ∧
  s_idx <$> deduplicateStopNames stops = s_idx <$> stops ∧
  head (deduplicateStopNames stops) = head stops.
Proof.
  split_and!.
  - apply deduplicateStopNames_imap.
  - rewrite deduplicateStopNames_imap. apply length_imap.
  - apply deduplicateStopNames_idx.
  - rewrite deduplicateStopNames_imap. by destruct stops.
Qed.

(** *** The stops that are written *)

(** A stop that [writeRouteData] can write: its index is one of the route
    and its name is a non-empty string. *)
Definition writable (route : list point) (s : Stop) : Prop :=
  (s_idx s < length route)%nat ∧ truthy (s_name s) = true.

Lemma suffixed_writable route s k : writable route s → writable route (suffixed s k).
Proof.
  intros [Hidx Hname]. unfold suffixed. case_decide; [done|]. split; [done|].
  simpl. by destruct (stop_text s).
Qed.

Lemma deduplicateStopNames_writable route stops :
  Forall (writable route) stops → Forall (writable route) (deduplicateStopNames stops).
Proof.
  rewrite deduplicateStopNames_imap, !Forall_forall. intros Hall s Hs.
  apply elem_of_lookup_imap in Hs as (i & t & -> & Ht).
  apply suffixed_writable, Hall. by eapply list_elem_of_lookup_2.
Qed.

Lemma synthetic_loop_idx fuel routeLen interval i acc out :
  synthetic_loop fuel routeLen interval i acc = Some out →
  Forall (λ s, s_idx s + 1 < routeLen)%nat acc →
  Forall (λ s, s_idx s + 1 < routeLen)%nat out.
Proof.
  revert i acc. induction fuel as [|fuel IH]; intros i acc; cbn [synthetic_loop];
    case_decide as Hi; try done; try (by intros [= <-]).
  intros Hout Hacc. apply (IH _ _ Hout). apply Forall_app. split; [done|].
  by repeat constructor.
Qed.

Lemma merge_fold_elem synthetic acc seen x :
  x ∈ (fold_left merge_step synthetic (acc, seen)).1 → x ∈ acc ∨ x ∈ synthetic.
Proof.
  revert acc seen. induction synthetic as [|s l IH]; intros acc seen; simpl; [by left|].
  unfold merge_step at 2. cbn [fst snd]. case_decide.
  - intros [?|?]%IH; [by left|right; by right].
  - intros [[?| ->%list_elem_of_singleton]%elem_of_app|?]%IH;
      [by left|right; left|right; by right].
Qed.

Lemma synthesize_writable finalRoute labels matchedStops stops :
  Forall (writable finalRoute) matchedStops →
  synthesize finalRoute labels matchedStops = Done stops →
  stops ≠ [] ∧ Forall (writable finalRoute) stops.
Proof.
  intros Hm. unfold synthesize. case_decide; [done|].
  destruct (synthetic_loop _ _ _ _ _) as [synthetic|] eqn:Hsyn; [|done].
  apply synthetic_loop_idx in Hsyn; [|done].
  assert (Hnamed : Forall (writable finalRoute) (assignStreetNames synthetic labels)).
  { pose proof (assignStreetNames_truthy synthetic labels) as Ht.
    pose proof (assignStreetNames_idx synthetic labels) as Hi.
    rewrite Forall_forall in *. intros s Hs. split; [|by apply Ht].
    assert (Hin : s_idx s ∈ s_idx <$> synthetic).
    { rewrite <- Hi. by apply list_elem_of_fmap_2. }
    apply list_elem_of_fmap in Hin as (t & -> & Ht'). specialize (Hsyn t Ht'). lia. }
  set (merged := (fold_left merge_step _ _).1).
  assert (Hmerged : Forall (writable finalRoute) merged).
  { rewrite Forall_forall in *. intros s [?|?]%merge_fold_elem; auto. }
  assert (Hsorted : Forall (writable finalRoute) (sort_by s_idx merged)).
  { by rewrite sort_by_perm. }
  destruct (sort_by s_idx merged) as [|first rest]; [done|].
  intros [= <-].
  destruct (spacing_fold s_idx finalRoute rest [first]) as (kept & -> & Hsub).
  split; [done|]. apply Forall_take. simpl.
  apply Forall_cons in Hsorted as [Hfirst Hrest]. constructor; [done|].
  rewrite Forall_forall in *. intros s Hs. apply Hrest. by eapply elem_of_sublist.
Qed.

Lemma matched_stops_writable route gameStops matchRadius labels :
  Forall (writable route)
    (assignStreetNames (map stop_of_candidate (matchBusStops route gameStops matchRadius))
       labels).
Proof.
  pose proof (assignStreetNames_truthy
                (map stop_of_candidate (matchBusStops route gameStops matchRadius)) labels)
    as Ht.
  pose proof (assignStreetNames_idx
                (map stop_of_candidate (matchBusStops route gameStops matchRadius)) labels)
    as Hi.
  rewrite Forall_forall in *. intros s Hs. split; [|by apply Ht].
  assert (Hin : s_idx s ∈ s_idx <$> map stop_of_candidate
                                     (matchBusStops route gameStops matchRadius)).
  { rewrite <- Hi. by apply list_elem_of_fmap_2. }
  apply list_elem_of_fmap in Hin as (t & -> & Ht').
  change (map stop_of_candidate ?l) with (stop_of_candidate <$> l) in Ht'.
  apply list_elem_of_fmap in Ht' as (c & -> & Hc).
  destruct (matchBusStops_elem _ _ _ _ Hc) as (stop & _ & _ & _ & _ & _ & q & Hq & _).
  simpl. by eapply lookup_lt_Some.
Qed.

(** X18. Whenever the stop stage of [main] produces a stop list, the list
    is not empty and every stop in it can be written: its index is a valid
    index of the final route and its name is a non-empty string.  This
    holds whether the stops were matched or synthesized. *)
Theorem stop_stage_writable (finalRoute : list point) (gameStops : list GameStop)
    (labels : list string) :
  stage_holds (λ stops, stops ≠ [] ∧
                        Forall (λ s, (s_idx s < length finalRoute)%nat ∧
                                     truthy (s_name s) = true) stops)
              (stop_stage finalRoute gameStops labels).
Proof.
  unfold stop_stage.
  pose proof (matched_stops_writable finalRoute gameStops STOP_MATCH_RADIUS labels) as Hm.
  set (named := assignStreetNames _ _) in *.
  case_decide as Hfew.
  - destruct (synthesize finalRoute labels named) as [stops| |] eqn:Hsyn; [|done..].
    destruct (synthesize_writable _ _ _ _ Hm Hsyn) as [Hne Hall]. simpl. split.
    + intros Hnil. apply Hne. apply (f_equal length) in Hnil.
      rewrite <- (length_fmap s_idx), deduplicateStopNames_idx, length_fmap in Hnil.
      by destruct stops.
    + by apply deduplicateStopNames_writable.
  - simpl. split.
    + intros Hnil. apply (f_equal length) in Hnil.
      rewrite <- (length_fmap s_idx), deduplicateStopNames_idx, length_fmap in Hnil.
      simpl in Hnil. lia.
    + by apply deduplicateStopNames_writable.
Qed.

(** ** Junctions and side-road stubs, further *)

Lemma fmod_range (a m : R) : 0 <= a → 0 < m → 0 <= fmod a m < m.
Proof.
  intros Ha Hm. unfold fmod, floor.
  destruct (base_Int_part (a / m)) as [H1 H2].
  assert (Hdiv : m * (a / m) = a) by (field; lra).
  assert (Hlo : m * IZR (Int_part (a / m)) <= m * (a / m)).
  { apply Rmult_le_compat_l; lra. }
  assert (Hhi : m * (a / m - 1) < m * IZR (Int_part (a / m))).
  { apply Rmult_lt_compat_l; lra. }
  rewrite Hdiv in Hlo. replace (m * (a / m - 1)) with (m * (a / m) - m) in Hhi by ring.
  rewrite Hdiv in Hhi. lra.
Qed.

Lemma round_range (x : R) (n : Z) :
  0 <= x < IZR n → ∃ k : Z, round x = IZR k ∧ (0 <= k <= n)%Z.
Proof.
  intros [Hlo Hhi]. unfold round, floor. exists (Int_part (x + / 2)). split; [done|].
  destruct (base_Int_part (x + / 2)) as [H1 H2]. split.
  - apply Z.lt_succ_r, lt_IZR. rewrite succ_IZR. lra.
  - apply Z.lt_succ_r, lt_IZR. rewrite succ_IZR. lra.
Qed.

Lemma existsb_false {A : Type} (f : A → bool) (l : list A) :
  existsb f l = false → ∀ x, x ∈ l → f x = false.
Proof.
  induction l as [|y l IH]; simpl; [by intros _ x ?%elem_of_nil|].
  intros [Hy Hl]%orb_false_iff x [->|Hx]%elem_of_cons; [done|by apply IH].
Qed.

(** Rounding a position to one decimal place moves it by less than 0.1. *)
Lemma rounded_position_far (fx fz x z bound : R) :
  bound <= hypot (fx - x) (fz - z) →
  bound - 0.1 <= hypot (round1 fx - x) (round1 fz - z).
Proof.
  intros Hfar.
  pose proof (pdist_triangle (fx, fz) (round1 fx, round1 fz) (x, z)) as Htri.
  pose proof (round1_close fx) as Hx. pose proof (round1_close fz) as Hz.
  assert (Hround : pdist (fx, fz) (round1 fx, round1 fz) <= hypot 0.05 0.05).
  { rewrite pdist_sym. apply pdist_rounded; simpl; lra. }
  assert (Hslack : hypot 0.05 0.05 < 0.1) by (apply hypot_lt_iff; lra).
  unfold pdist, dist2d in Htri, Hround. simpl in Htri, Hround. lra.
Qed.

(** A stub that the loop may have pushed: its length is a whole number
    from 20 to 35, and it lies outside the zone of every junction, up to
    the rounding of its position. *)
Definition stub_ok (junctions : list Junction) (s : SideRoad) : Prop :=
  (∃ n : Z, sr_length s = IZR n ∧ (20 <= n <= 35)%Z) ∧
  ∀ j, j ∈ junctions →
       j_radius j + 5 - 0.1 <= hypot (sr_x s - j_x j) (sr_z s - j_z j).

(** Any two stubs are [MIN_STUB_SPACING] apart, up to the rounding of the
    position of the later one. *)
Definition stubs_apart (stubs : list SideRoad) : Prop :=
  ∀ i j a b, (i < j)%nat → stubs !! i = Some a → stubs !! j = Some b →
             MIN_STUB_SPACING - 0.1 <= hypot (sr_x b - sr_x a) (sr_z b - sr_z a).

Lemma stub_step_ok nodes routeNodeSet pr junctions routeNode stubs edge :
  Forall (stub_ok junctions) stubs ∧ stubs_apart stubs →
  Forall (stub_ok junctions)
    (stub_step nodes routeNodeSet pr junctions routeNode stubs edge) ∧
  stubs_apart (stub_step nodes routeNodeSet pr junctions routeNode stubs edge).
Proof.
  intros [Hok Hapart]. unfold stub_step.
  case_decide; [done|]. destruct (nodes !! e_to edge) as [targetNode|]; [|done].
  set (from := game_pos pr routeNode). set (to := game_pos pr targetNode).
  cbv zeta. case_decide; [done|].
  destruct (existsb _ stubs) eqn:Hclose; [done|].
  destruct (existsb _ junctions) eqn:Hzone; [done|].
  pose proof (existsb_false _ _ Hclose) as Hfar.
  pose proof (existsb_false _ _ Hzone) as Hout.
  split.
  - apply Forall_app. split; [done|]. constructor; [|done]. split; cbn [sr_length sr_x sr_z].
    + destruct (fmod_range (Rabs (from.1 * 7 + from.2 * 13)) 15) as [Hlo Hhi];
        [apply Rabs_pos|lra|].
      destruct (round_range (fmod (Rabs (from.1 * 7 + from.2 * 13)) 15) 15 (conj Hlo Hhi))
        as (k & -> & Hk).
      exists (20 + k)%Z. rewrite plus_IZR. split; [done|lia].
    + intros j Hj. specialize (Hout j Hj). apply bool_decide_eq_false in Hout.
      apply rounded_position_far. lra.
  - intros i j a b Hij Ha Hb.
    apply lookup_app_Some in Hb as [Hb|[Hge Hb]].
    + rewrite lookup_app_l in Ha by (apply lookup_lt_Some in Hb; lia). by eapply Hapart.
    + apply list_lookup_singleton_Some in Hb as [Hz <-].
      rewrite lookup_app_l in Ha by lia. cbn [sr_x sr_z].
      assert (Hin : a ∈ stubs) by by eapply list_elem_of_lookup_2.
      specialize (Hfar a Hin). apply bool_decide_eq_false in Hfar.
      apply rounded_position_far. unfold MIN_STUB_SPACING in *. lra.
Qed.

Lemma stub_fold_ok nodes routeNodeSet pr junctions routeNode edges stubs :
  Forall (stub_ok junctions) stubs ∧ stubs_apart stubs →
  Forall (stub_ok junctions)
    (fold_left (stub_step nodes routeNodeSet pr junctions routeNode) edges stubs) ∧
  stubs_apart (fold_left (stub_step nodes routeNodeSet pr junctions routeNode) edges stubs).
Proof.
  revert stubs. induction edges as [|edge edges IH]; intros stubs Hinv; [done|].
  simpl. by apply IH, stub_step_ok.
Qed.

Lemma stub_path_ok nodes (adj : gmap Z (list Edge)) routeNodeSet pr junctions path stubs :
  Forall (stub_ok junctions) stubs ∧ stubs_apart stubs →
  Forall (stub_ok junctions)
    (fold_left (λ stubs nodeId,
                  match adj !! nodeId, nodes !! nodeId with
                  | Some edges, Some routeNode =>
                      fold_left (stub_step nodes routeNodeSet pr junctions routeNode)
                                edges stubs
                  | _, _ => stubs
                  end) path stubs) ∧
  stubs_apart
    (fold_left (λ stubs nodeId,
                  match adj !! nodeId, nodes !! nodeId with
                  | Some edges, Some routeNode =>
                      fold_left (stub_step nodes routeNodeSet pr junctions routeNode)
                                edges stubs
                  | _, _ => stubs
                  end) path stubs).
Proof.
  revert stubs. induction path as [|nodeId path IH]; intros stubs Hinv; [done|].
  simpl. apply IH.
  destruct (adj !! nodeId) as [edges|]; [|done].
  destruct (nodes !! nodeId) as [routeNode|]; [|done].
  by apply stub_fold_ok.
Qed.

(** X19. [detectJunctionsAndStubs] returns one junction of four arms for
    each manual roundabout and at most 20 side-road stubs.  Every stub has
    a whole-number length from 20 to 35; no stub lies within a junction's
    radius plus 5, and any two stubs are at least [MIN_STUB_SPACING] = 15
    apart, both up to the 0.1 by which rounding can move a stub. *)
Theorem side_road_stubs_placed (nodes : gmap Z (R * R)) (adj : gmap Z (list Edge))
    (fullNodePath : list Z) (pr : Projection) :
  let junctions := (detectJunctionsAndStubs nodes adj fullNodePath pr).1 in
  let sideRoads := (detectJunctionsAndStubs nodes adj fullNodePath pr).2 in
  j_name <$> junctions = ra_name <$> MANUAL_ROUNDABOUTS ∧
  Forall (λ j, j_arms j = 4%nat) junctions ∧
  (length sideRoads ≤ 20)%nat ∧
  Forall (λ s, (∃ n : Z, sr_length s = IZR n ∧ (20 <= n <= 35)%Z) ∧
               ∀ j, j ∈ junctions →
                    j_radius j + 5 - 0.1 <= hypot (sr_x s - j_x j) (sr_z s - j_z j))
         sideRoads ∧
  ∀ i j a b, (i < j)%nat → sideRoads !! i = Some a → sideRoads !! j = Some b →
             15 - 0.1 <= hypot (sr_x b - sr_x a) (sr_z b - sr_z a).
Proof.
  unfold detectJunctionsAndStubs. cbn [fst snd].
  set (junctions := junction_of pr <$> MANUAL_ROUNDABOUTS).
  set (routeNodeSet := list_to_set fullNodePath : gset Z).
  match goal with
  | |- context [take 20 ?l] => set (stubs := l)
  end.
  assert (Hinv : Forall (stub_ok junctions) stubs ∧ stubs_apart stubs).
  { unfold stubs. apply stub_path_ok. split; [constructor|].
    intros i j a b _ Ha. by rewrite lookup_nil in Ha. }
  destruct Hinv as [Hok Hapart]. split_and!.
  - done.
  - by repeat constructor.
  - rewrite length_take. lia.
  - by apply Forall_take.
  - intros i j a b Hij Ha Hb.
    apply lookup_take_Some in Ha as [Ha _]. apply lookup_take_Some in Hb as [Hb _].
    by apply (Hapart i j).
Qed.

(** ** The emitted file, further *)

Lemma ceil5_step (n : nat) :
  (1 ≤ n)%nat → ((n + 4) / 5 = S ((n - 5 + 4) / 5))%nat.
Proof.
  intros Hn. destruct (le_lt_dec n 5) as [Hshort|Hlong].
  - replace (n - 5)%nat with 0%nat by lia.
    rewrite (Nat.div_small (0 + 4) 5) by lia.
    symmetry. apply (Nat.div_unique _ 5 1 (n - 1)); lia.
  - replace (n + 4)%nat with (n - 5 + 4 + 1 * 5)%nat at 1 by lia.
    rewrite Nat.div_add by lia. lia.
Qed.

Lemma chunks5_spec (fuel : nat) (route : list point) :
  (length route ≤ fuel)%nat →
  concat (chunks5 fuel route) = route ∧
  Forall (λ chunk, 1 ≤ length chunk ≤ 5)%nat (chunks5 fuel route) ∧
  length (chunks5 fuel route) = ((length route + 4) / 5)%nat.
Proof.
  revert route. induction fuel as [|fuel IH]; intros route Hfuel.
  - destruct route; [done|simpl in Hfuel; lia].
  - destruct route as [|p rest]; [done|].
    cbn [chunks5].
    destruct (IH (drop 5 (p :: rest))) as (Hcat & Hall & Hlen).
    { rewrite length_drop. simpl in *. lia. }
    split_and!.
    + cbn [concat]. rewrite Hcat. apply take_drop.
    + constructor; [|done]. rewrite length_take. cbn [length]. lia.
    + cbn [length]. rewrite Hlen, length_drop. cbn [length].
      symmetry. apply ceil5_step. lia.
Qed.

(** X20. [writeRouteData] writes the route five points to a line: the
    chunks it cuts are, in order, the whole route with no point lost or
    repeated; every chunk has from one to five points; and there are
    [ceil (n / 5)] lines for [n] points, whatever text the numbers are
    converted to. *)
Theorem route_lines_cover_route (numToString : R → string) (route : list point) :
  concat (chunks5 (length route) route) = route ∧
  Forall (λ chunk, 1 ≤ length chunk ≤ 5)%nat (chunks5 (length route) route) ∧
  length (routeLines numToString route) = ((length route + 4) / 5)%nat.
Proof.
  destruct (chunks5_spec (length route) route ltac:(lia)) as (Hcat & Hall & Hlen).
  split_and!; [done..|]. unfold routeLines. by rewrite length_fmap.
Qed.

(** *** Quoting of names *)

(** In [s] every apostrophe comes right after a backslash; [escaped] tells
    whether the character before [s] is a backslash. *)
Fixpoint quotes_escaped (escaped : bool) (s : string) : bool :=
  match s with
  | EmptyString => true
  | String c rest =>
      if Ascii.eqb c "'" then escaped && quotes_escaped false rest
      else quotes_escaped (Ascii.eqb c "\") rest
  end.

Fixpoint has_quote (s : string) : bool :=
  match s with
  | EmptyString => false
  | String c rest => Ascii.eqb c "'" || has_quote rest
  end.

Lemma escape_quotes_escaped (s : string) (escaped : bool) :
  quotes_escaped escaped (escape_quotes s) = true.
Proof.
  revert escaped. induction s as [|c rest IH]; intros escaped; [done|].
  simpl. destruct (Ascii.eqb c "'") eqn:E.
  - simpl. apply IH.
  - simpl. rewrite E. apply IH.
Qed.

Lemma escape_quotes_head (s : string) (rest : string) :
  escape_quotes s ≠ String "'" rest.
Proof.
  destruct s as [|c s]; [done|]. simpl. destruct (Ascii.eqb c "'") eqn:E; [done|].
  intros [= -> _]. done.
Qed.

Lemma escape_quotes_inj (s t : string) :
  escape_quotes s = escape_quotes t → s = t.
Proof.
  revert t. induction s as [|c s IH]; intros t.
  - destruct t as [|d t]; [done|]. simpl. by destruct (Ascii.eqb d "'").
  - destruct t as [|d t].
    + simpl. by destruct (Ascii.eqb c "'").
    + simpl. destruct (Ascii.eqb c "'") eqn:Ec, (Ascii.eqb d "'") eqn:Ed.
      * apply Ascii.eqb_eq in Ec as ->. apply Ascii.eqb_eq in Ed as ->.
        intros [= H]. by rewrite (IH t H).
      * intros [= <- H]. symmetry in H. by apply escape_quotes_head in H.
      * intros [= -> H]. by apply escape_quotes_head in H.
      * intros [= -> H]. by rewrite (IH t H).
Qed.

(** X21. The quoting of a name for a string literal only inserts a
    backslash before each apostrophe: a name without apostrophe is written
    unchanged; in the quoted text every apostrophe comes right after a
    backslash; and two different names never get the same quoted text. *)
Theorem escape_quotes_faithful (s t : string) :
  quotes_escaped false (escape_quotes s) = true ∧
  (has_quote s = false → escape_quotes s = s) ∧
  (escape_quotes s = escape_quotes t → s = t).
Proof.
  split_and!.
  - apply escape_quotes_escaped.
  - induction s as [|c rest IH]; [done|]. simpl.
    destruct (Ascii.eqb c "'"); [done|]. simpl. intros H. by rewrite IH.
  - apply escape_quotes_inj.
Qed.

(** *** The bounding box *)

Lemma floor_spec (x : R) : floor x <= x < floor x + 1.
Proof. unfold floor. destruct (base_Int_part x). lra. Qed.

(** X22. The bounds that [writeRouteData] computes are whole numbers that
    enclose the route with a margin of at least [BOUNDS_PADDING] = 100 on
    every side and of less than 101 beyond the outermost points. *)
Theorem bounds_enclose_route (route : list point) (p : point) :
  p ∈ route →
  let b := bounds route in
  (b_minX b <= p.1 - 100 ∧ p.1 + 100 <= b_maxX b ∧
   b_minZ b <= p.2 - 100 ∧ p.2 + 100 <= b_maxZ b) ∧
  (∃ x0 x1 z0 z1 : Z,
     b_minX b = IZR x0 ∧ b_maxX b = IZR x1 ∧ b_minZ b = IZR z0 ∧ b_maxZ b = IZR z1) ∧
  (∃ q, q ∈ route ∧ q.1 - 101 < b_minX b) ∧
  (∃ q, q ∈ route ∧ b_maxX b < q.1 + 101) ∧
  (∃ q, q ∈ route ∧ q.2 - 101 < b_minZ b) ∧
  (∃ q, q ∈ route ∧ b_maxZ b < q.2 + 101).
Proof.
  intros Hp b. unfold b, bounds, BOUNDS_PADDING. cbn [b_minX b_maxX b_minZ b_maxZ].
  assert (Hxs : fst <$> route ≠ []).
  { intros Hnil. apply fmap_nil_inv in Hnil. subst. by apply elem_of_nil in Hp. }
  assert (Hzs : snd <$> route ≠ []).
  { intros Hnil. apply fmap_nil_inv in Hnil. subst. by apply elem_of_nil in Hp. }
  destruct (list_min_spec _ Hxs) as [HminX_in HminX].
  destruct (list_max_spec _ Hxs) as [HmaxX_in HmaxX].
  destruct (list_min_spec _ Hzs) as [HminZ_in HminZ].
  destruct (list_max_spec _ Hzs) as [HmaxZ_in HmaxZ].
  specialize (HminX p.1 ltac:(by apply list_elem_of_fmap_2)).
  specialize (HmaxX p.1 ltac:(by apply list_elem_of_fmap_2)).
  specialize (HminZ p.2 ltac:(by apply list_elem_of_fmap_2)).
  specialize (HmaxZ p.2 ltac:(by apply list_elem_of_fmap_2)).
  apply list_elem_of_fmap in HminX_in as (qa & Hqa & Hqa_in).
  apply list_elem_of_fmap in HmaxX_in as (qb & Hqb & Hqb_in).
  apply list_elem_of_fmap in HminZ_in as (qc & Hqc & Hqc_in).
  apply list_elem_of_fmap in HmaxZ_in as (qd & Hqd & Hqd_in).
  pose proof (floor_spec (list_min (fst <$> route) - 100)) as F1.
  pose proof (floor_spec (- (list_max (fst <$> route) + 100))) as F2.
  pose proof (floor_spec (list_min (snd <$> route) - 100)) as F3.
  pose proof (floor_spec (- (list_max (snd <$> route) + 100))) as F4.
  split_and!; try lra.
  - exists (Int_part (list_min (fst <$> route) - 100)),
           (- Int_part (- (list_max (fst <$> route) + 100)))%Z,
           (Int_part (list_min (snd <$> route) - 100)),
           (- Int_part (- (list_max (snd <$> route) + 100)))%Z.
    unfold floor. rewrite !opp_IZR. done.
  - exists qa. split; [done|]. lra.
  - exists qb. split; [done|]. lra.
  - exists qc. split; [done|]. lra.
  - exists qd. split; [done|]. lra.
Qed.

Lemma bounds_enclose_route_witness :
  let b := bounds straight in
  (b_minX b <= (0, 0).1 - 100 ∧ (0, 0).1 + 100 <= b_maxX b ∧
   b_minZ b <= (0, 0).2 - 100 ∧ (0, 0).2 + 100 <= b_maxZ b) ∧
  (∃ x0 x1 z0 z1 : Z,
     b_minX b = IZR x0 ∧ b_maxX b = IZR x1 ∧ b_minZ b = IZR z0 ∧ b_maxZ b = IZR z1) ∧
  (∃ q, q ∈ straight ∧ q.1 - 101 < b_minX b) ∧
  (∃ q, q ∈ straight ∧ b_maxX b < q.1 + 101) ∧
  (∃ q, q ∈ straight ∧ q.2 - 101 < b_minZ b) ∧
  (∃ q, q ∈ straight ∧ b_maxZ b < q.2 + 101).
Proof. apply (bounds_enclose_route straight (0, 0)). left. Defined.

(** ** Douglas-Peucker simplification, properties *)

(** The point at parameter [t] of the segment from [(ax, az)] to
    [(bx, bz)] lies at this distance from [(px, pz)]. *)
Definition dist_at (px pz ax az bx bz t : R) : R :=
  hypot (px - (ax + t * (bx - ax))) (pz - (az + t * (bz - az))).

Lemma clamp_cases (ts : R) :
  (ts <= 0 ∧ Rmax 0 (Rmin 1 ts) = 0) ∨
  (0 <= ts <= 1 ∧ Rmax 0 (Rmin 1 ts) = ts) ∨
  (1 <= ts ∧ Rmax 0 (Rmin 1 ts) = 1).
Proof.
  unfold Rmax, Rmin. destruct (Rle_dec 1 ts), (Rle_dec 0 1), (Rle_dec 0 ts); lra.
Qed.

Lemma perpDist_at (px pz ax az bx bz : R) :
  ∃ t, 0 <= t <= 1 ∧ perpDist px pz ax az bx bz = dist_at px pz ax az bx bz t.
Proof.
  unfold perpDist, dist_at. cbv zeta. case_decide as Hlen.
  - exists 0. split; [lra|]. f_equal; ring.
  - eexists. split; [|done].
    destruct (clamp_cases (((px - ax) * (bx - ax) + (pz - az) * (bz - az)) /
                           ((bx - ax) * (bx - ax) + (bz - az) * (bz - az))))
      as [[_ ->]|[[? ->]|[_ ->]]]; lra.
Qed.

Lemma perpDist_least (px pz ax az bx bz t : R) :
  0 <= t <= 1 → perpDist px pz ax az bx bz <= dist_at px pz ax az bx bz t.
Proof.
  intros Ht. unfold perpDist, dist_at. cbv zeta.
  set (dx := bx - ax). set (dz := bz - az). set (vx := px - ax). set (vz := pz - az).
  case_decide as Hlen.
  - assert (Hdx : dx = 0) by nra. assert (Hdz : dz = 0) by nra.
    rewrite Hdx, Hdz. apply hypot_le_hypot_iff. unfold vx, vz. nra.
  - set (L := dx * dx + dz * dz) in *.
    assert (HL : 0 < L) by (unfold L in *; nra).
    set (ts := (vx * dx + vz * dz) / L).
    assert (Hdot : vx * dx + vz * dz = ts * L) by (unfold ts; field; lra).
    apply hypot_le_hypot_iff.
    replace (px - (ax + Rmax 0 (Rmin 1 ts) * dx)) with (vx - Rmax 0 (Rmin 1 ts) * dx)
      by (unfold vx; ring).
    replace (pz - (az + Rmax 0 (Rmin 1 ts) * dz)) with (vz - Rmax 0 (Rmin 1 ts) * dz)
      by (unfold vz; ring).
    replace (px - (ax + t * dx)) with (vx - t * dx) by (unfold vx; ring).
    replace (pz - (az + t * dz)) with (vz - t * dz) by (unfold vz; ring).
    assert (Hdiff : ∀ tc,
              (vx - t * dx) * (vx - t * dx) + (vz - t * dz) * (vz - t * dz) -
              ((vx - tc * dx) * (vx - tc * dx) + (vz - tc * dz) * (vz - tc * dz)) =
              L * ((t - tc) * (t + tc - 2 * ts))).
    { intros tc. unfold L.
      replace ((vx - t * dx) * (vx - t * dx) + (vz - t * dz) * (vz - t * dz) -
               ((vx - tc * dx) * (vx - tc * dx) + (vz - tc * dz) * (vz - tc * dz)))
        with ((t * t - tc * tc) * (dx * dx + dz * dz) - 2 * (t - tc) * (vx * dx + vz * dz))
        by ring.
      rewrite Hdot. unfold L. ring. }
    specialize (Hdiff (Rmax 0 (Rmin 1 ts))).
    assert (Hsign : 0 <= (t - Rmax 0 (Rmin 1 ts)) * (t + Rmax 0 (Rmin 1 ts) - 2 * ts)).
    { destruct (clamp_cases ts) as [[? ->]|[[? ->]|[? ->]]].
      - apply Rmult_le_pos; lra.
      - replace ((t - ts) * (t + ts - 2 * ts)) with ((t - ts) * (t - ts)) by ring.
        apply Rle_0_sqr.
      - replace ((t - 1) * (t + 1 - 2 * ts)) with ((1 - t) * (2 * ts - (t + 1))) by ring.
        apply Rmult_le_pos; lra. }
    assert (0 <= L * ((t - Rmax 0 (Rmin 1 ts)) * (t + Rmax 0 (Rmin 1 ts) - 2 * ts))).
    { apply Rmult_le_pos; lra. }
    lra.
Qed.

(** X23. [perpDist] is the distance from a point to a segment: it is the
    distance to some point of the segment, and no point of the segment is
    nearer.  So it is at most the distance to either end, it is 0 at both
    ends, and for a segment of length 0 it is the distance to its one
    point. *)
Theorem perpDist_segment_distance (px pz ax az bx bz : R) :
  (∃ t, 0 <= t <= 1 ∧ perpDist px pz ax az bx bz = dist_at px pz ax az bx bz t) ∧
  (∀ t, 0 <= t <= 1 → perpDist px pz ax az bx bz <= dist_at px pz ax az bx bz t) ∧
  0 <= perpDist px pz ax az bx bz ∧
  perpDist px pz ax az bx bz <= hypot (px - ax) (pz - az) ∧
  perpDist px pz ax az bx bz <= hypot (px - bx) (pz - bz) ∧
  perpDist ax az ax az bx bz = 0 ∧
  perpDist bx bz ax az bx bz = 0 ∧
  perpDist px pz ax az ax az = hypot (px - ax) (pz - az).
Proof.
  assert (Hnn : ∀ x z, 0 <= perpDist x z ax az bx bz).
  { intros x z. destruct (perpDist_at x z ax az bx bz) as (t & _ & ->). apply hypot_nonneg. }
  assert (Hstart : ∀ x z, perpDist x z ax az bx bz <= hypot (x - ax) (z - az)).
  { intros x z. pose proof (perpDist_least x z ax az bx bz 0 ltac:(lra)) as H.
    unfold dist_at in H. by rewrite !Rmult_0_l, !Rplus_0_r in H. }
  assert (Hend : ∀ x z, perpDist x z ax az bx bz <= hypot (x - bx) (z - bz)).
  { intros x z. pose proof (perpDist_least x z ax az bx bz 1 ltac:(lra)) as H.
    unfold dist_at in H.
    replace (ax + 1 * (bx - ax)) with bx in H by ring.
    by replace (az + 1 * (bz - az)) with bz in H by ring. }
  assert (Hzero : ∀ x z, hypot (x - x) (z - z) = 0).
  { intros x z. apply hypot_eq; [lra|ring]. }
  split_and!.
  - apply perpDist_at.
  - apply perpDist_least.
  - apply Hnn.
  - apply Hstart.
  - apply Hend.
  - specialize (Hstart ax az). specialize (Hnn ax az). rewrite Hzero in Hstart. lra.
  - specialize (Hend bx bz). specialize (Hnn bx bz). rewrite Hzero in Hend. lra.
  - unfold perpDist. cbv zeta. rewrite decide_True; [done|]. ring.
Qed.

(** *** The scan for the farthest point *)

(** The distance of the point of index [i] from the chord of [points],
    the segment from its first to its last point. *)
Definition chord_dist (points : list point) (i : nat) : R :=
  perpDist (at_index points i).1 (at_index points i).2
           (at_index points 0).1 (at_index points 0).2
           (at_index points (length points - 1)).1
           (at_index points (length points - 1)).2.

Lemma perpDist_nonneg (px pz ax az bx bz : R) : 0 <= perpDist px pz ax az bx bz.
Proof. destruct (perpDist_at px pz ax az bx bz) as (t & _ & ->). apply hypot_nonneg. Qed.

Lemma perpDist_start (ax az bx bz : R) : perpDist ax az ax az bx bz = 0.
Proof.
  pose proof (perpDist_least ax az ax az bx bz 0 ltac:(lra)) as H.
  pose proof (perpDist_nonneg ax az ax az bx bz) as Hnn.
  unfold dist_at in H. rewrite !Rmult_0_l, !Rplus_0_r in H.
  rewrite (hypot_eq (ax - ax) (az - az) 0) in H; [lra|lra|ring].
Qed.

Lemma perpDist_end (ax az bx bz : R) : perpDist bx bz ax az bx bz = 0.
Proof.
  pose proof (perpDist_least bx bz ax az bx bz 1 ltac:(lra)) as H.
  pose proof (perpDist_nonneg bx bz ax az bx bz) as Hnn.
  unfold dist_at in H.
  rewrite (hypot_eq (bx - (ax + 1 * (bx - ax))) (bz - (az + 1 * (bz - az))) 0) in H;
    [lra|lra|ring].
Qed.

Lemma farthest_fold (points : list point) (l : list nat) (st : R * nat) :
  let r := fold_left (farthest_step points) l st in
  st.1 <= r.1 ∧
  (r = st ∨ (r.2 ∈ l ∧ r.1 = chord_dist points r.2 ∧ st.1 < r.1)) ∧
  ∀ j, j ∈ l → chord_dist points j <= r.1.
Proof.
  revert st. induction l as [|i l IH]; intros st; cbn [fold_left].
  - split_and!; [lra|by left|]. by intros j ?%elem_of_nil.
  - specialize (IH (farthest_step points st i)). cbv zeta in IH.
    destruct IH as (Hmono & Hcase & Hall).
    assert (Hstep : (farthest_step points st i = st ∧ chord_dist points i <= st.1) ∨
                    (farthest_step points st i = (chord_dist points i, i) ∧
                     st.1 < chord_dist points i)).
    { unfold farthest_step. cbv zeta. fold (chord_dist points i).
      case_decide; [right|left]; split; [done|lra|done|lra]. }
    destruct Hstep as [[Hst Hle]|[Hst Hlt]]; rewrite Hst in *; cbn [fst snd] in *.
    + split_and!; [done| |].
      * destruct Hcase as [?|(? & ? & ?)]; [by left|right].
        split_and!; [by right|done..].
      * intros j [->|Hj]%elem_of_cons; [lra|by apply Hall].
    + split_and!; [lra| |].
      * right. destruct Hcase as [->|(? & ? & ?)]; cbn [fst snd].
        -- split_and!; [by left|done..].
        -- split_and!; [by right|done|lra].
      * intros j [->|Hj]%elem_of_cons; [lra|by apply Hall].
Qed.

Lemma farthest_spec (points : list point) :
  let r := farthest points in
  (r = (0, 0%nat) ∨
   (0 < r.1 ∧ (1 ≤ r.2)%nat ∧ (r.2 + 1 < length points)%nat ∧
    r.1 = chord_dist points r.2)) ∧
  ∀ j, (1 ≤ j)%nat → (j + 1 < length points)%nat → chord_dist points j <= r.1.
Proof.
  cbv zeta. unfold farthest.
  destruct (farthest_fold points (seq 1 (length points - 2)) (0, 0%nat))
    as (Hmono & Hcase & Hall).
  cbn [fst snd] in *. split.
  - destruct Hcase as [?|(Hin & ? & ?)]; [by left|right].
    apply elem_of_seq in Hin. split_and!; [done|lia|lia|done].
  - intros j Hlo Hhi. apply Hall, elem_of_seq. lia.
Qed.

(** *** The simplified line *)

(** Every point of [points] is within [ε] of a segment between two
    consecutive points of [out]. *)
Definition within (ε : R) (points out : list point) : Prop :=
  ∀ p, p ∈ points →
       ∃ i a b, out !! i = Some a ∧ out !! S i = Some b ∧
                perpDist p.1 p.2 a.1 a.2 b.1 b.2 <= ε.

Definition simplifies (ε : R) (points out : list point) : Prop :=
  out `sublist_of` points ∧ head out = head points ∧ last out = last points ∧
  (2 ≤ length out)%nat ∧ within ε points out.

Lemma at_index_lookup (points : list point) (i : nat) (p : point) :
  points !! i = Some p → at_index points i = p.
Proof. apply nth_lookup_Some. Qed.

Lemma at_index_last (points : list point) (z : point) :
  last points = Some z → at_index points (length points - 1) = z.
Proof.
  rewrite last_lookup. replace (pred (length points)) with (length points - 1)%nat by lia.
  apply at_index_lookup.
Qed.

Lemma simplifies_two (ε : R) (points : list point) :
  0 <= ε → length points = 2%nat → simplifies ε points points.
Proof.
  intros Heps Hlen. destruct points as [|a [|b [|c rest]]]; try done.
  split_and!; [done..|].
  intros p Hp. exists 0%nat, a, b. split_and!; [done..|].
  apply elem_of_cons in Hp as [->|Hp].
  - rewrite perpDist_start. lra.
  - apply list_elem_of_singleton in Hp as ->. rewrite perpDist_end. lra.
Qed.

Lemma simplifies_chord (ε : R) (points : list point) :
  (3 ≤ length points)%nat →
  (∀ j, (1 ≤ j)%nat → (j + 1 < length points)%nat → chord_dist points j <= ε) →
  0 <= ε →
  simplifies ε points [at_index points 0; at_index points (length points - 1)].
Proof.
  intros Hlen Hall Heps.
  destruct points as [|a rest]; [simpl in Hlen; lia|].
  destruct (last rest) as [z|] eqn:Hlast;
    [|apply last_None in Hlast; subst; simpl in Hlen; lia].
  assert (Hz : last (a :: rest) = Some z).
  { rewrite last_cons, Hlast. done. }
  pose proof (at_index_last _ _ Hz) as Hend.
  assert (Hstart : at_index (a :: rest) 0 = a) by done.
  unfold within. revert Hall. unfold chord_dist. rewrite Hend, Hstart. intros Hall.
  split_and!.
  - apply last_Some in Hlast as [mid ->].
    apply sublist_skip. by apply sublist_inserts_l.
  - done.
  - by rewrite Hz.
  - done.
  - intros p Hp. exists 0%nat, a, z. split_and!; [done..|].
    apply list_elem_of_lookup_1 in Hp as [j Hj].
    pose proof (lookup_lt_Some _ _ _ Hj) as Hjlt.
    destruct (decide (j = 0%nat)) as [->|Hj0].
    { injection Hj as <-. rewrite perpDist_start. lra. }
    destruct (decide (j = length (a :: rest) - 1)%nat) as [Hjn|Hjn].
    { assert (p = z) as ->.
      { transitivity (at_index (a :: rest) j);
          [symmetry; by apply at_index_lookup|by rewrite Hjn]. }
      rewrite perpDist_end. lra. }
    unfold point in *. specialize (Hall j ltac:(lia) ltac:(lia)).
    by rewrite (at_index_lookup _ _ _ Hj) in Hall.
Qed.

Lemma simplifies_join (ε : R) (points left right : list point) (m : nat) :
  (1 ≤ m)%nat → (m + 1 < length points)%nat →
  simplifies ε (take (m + 1) points) left →
  simplifies ε (drop m points) right →
  simplifies ε points (take (length left - 1) left ++ right).
Proof.
  intros Hm1 Hm2 (HLsub & HLhead & HLlast & HLlen & HLin)
                 (HRsub & HRhead & HRlast & HRlen & HRin).
  unfold simplifies, within, point in *.
  destruct (lookup_lt_is_Some_2 points m ltac:(lia)) as [x Hx].
  replace (m + 1)%nat with (S m) in * by lia.
  assert (Hhead : head (take (S m) points) = head points) by by destruct points.
  rewrite Hhead in HLhead.
  rewrite (take_S_r _ _ _ Hx) in HLsub, HLlast, HLin.
  rewrite last_snoc in HLlast. apply last_Some in HLlast as [l' ->].
  rewrite length_app. cbn [length].
  replace (length l' + 1 - 1)%nat with (length l') by lia.
  rewrite take_app_length.
  rewrite (drop_S _ _ _ Hx) in HRsub, HRhead, HRin.
  assert (HlastR : last (drop m points) = last points).
  { rewrite !last_lookup, lookup_drop, length_drop. f_equal. lia. }
  rewrite HlastR in HRlast.
  destruct right as [|x' r']; [done|]. injection HRhead as ->.
  apply sublist_app_inv_r in HLsub.
  split_and!.
  - rewrite <- (take_drop m points), (drop_S _ _ _ Hx). by apply sublist_app.
  - destruct l' as [|p l']; [|done]. done.
  - rewrite last_app, <- HRlast.
    destruct (last (x :: r')) eqn:E; [done|]. by apply last_None in E.
  - rewrite length_app. lia.
  - intros p Hp. rewrite <- (take_drop m points), (drop_S _ _ _ Hx) in Hp.
    apply elem_of_app in Hp as [Hp|Hp].
    + destruct (HLin p) as (i & a & b & Ha & Hb & Hd).
      { apply elem_of_app. by left. }
      pose proof (lookup_lt_Some _ _ _ Hb) as Hi. rewrite length_app in Hi. cbn [length] in Hi.
      exists i, a, b. split_and!; [| |done].
      * rewrite lookup_app_l in Ha by lia. by rewrite lookup_app_l by lia.
      * destruct (decide (S i < length l')%nat) as [Hin|Hout].
        -- rewrite lookup_app_l in Hb by lia. by rewrite lookup_app_l by lia.
        -- rewrite lookup_app_r in Hb by lia. rewrite lookup_app_r by lia.
           replace (S i - length l')%nat with 0%nat in * by lia.
           done.
    + destruct (HRin p Hp) as (i & a & b & Ha & Hb & Hd).
      exists (length l' + i)%nat, a, b. split_and!; [| |done].
      * rewrite lookup_app_r by lia. by replace (length l' + i - length l')%nat with i by lia.
      * rewrite lookup_app_r by lia.
        by replace (S (length l' + i) - length l')%nat with (S i) by lia.
Qed.

Lemma douglasPeucker_spec (fuel : nat) (points : list point) (ε : R) :
  0 <= ε → (2 ≤ length points)%nat → (length points ≤ fuel + 2)%nat →
  ∃ out, douglasPeucker fuel points ε = Some out ∧ simplifies ε points out.
Proof.
  intros Heps. revert points. induction fuel as [|fuel IH]; intros points Hlo Hhi.
  - exists points. cbn [douglasPeucker]. rewrite decide_True by lia.
    split; [done|]. apply simplifies_two; [done|lia].
  - cbn [douglasPeucker]. case_decide as Hlen.
    { exists points. split; [done|]. apply simplifies_two; [done|lia]. }
    pose proof (farthest_spec points) as Hspec. cbv zeta in Hspec.
    destruct (farthest points) as [d m]. cbn [fst snd] in Hspec.
    destruct Hspec as [Hcase Hall].
    case_decide as Hcut.
    + destruct Hcase as [[= -> ->]|(Hd & Hm1 & Hm2 & Hdm)]; [lra|].
      destruct (IH (take (m + 1) points)) as (left & -> & HL).
      { rewrite length_take. lia. }
      { rewrite length_take. lia. }
      destruct (IH (drop m points)) as (right & -> & HR).
      { rewrite length_drop. lia. }
      { rewrite length_drop. lia. }
      eexists. split; [done|]. by apply (simplifies_join ε points left right m).
    + eexists. split; [done|]. apply simplifies_chord; [lia| |done].
      intros j Hj1 Hj2. specialize (Hall j Hj1 Hj2). lra.
Qed.

(** X24. With a tolerance [epsilon] of at least 0, [douglasPeucker]
    returns (a recursion of depth [length points - 2] at most is enough).
    What it returns is a selection of the points in their order that keeps
    the first and the last point; it has at least two points when the
    input has; and an input of at most two points is returned as it is,
    whatever the tolerance. *)
Theorem douglasPeucker_selects (fuel : nat) (points : list point) (epsilon : R) :
  0 <= epsilon → (length points ≤ fuel + 2)%nat →
  (∃ out, douglasPeucker fuel points epsilon = Some out ∧
          out `sublist_of` points ∧
          head out = head points ∧ last out = last points ∧
          ((2 ≤ length points)%nat → (2 ≤ length out)%nat)) ∧
  ∀ fuel' epsilon', (length points ≤ 2)%nat →
                    douglasPeucker fuel' points epsilon' = Some points.
Proof.
  intros Heps Hfuel. split.
  - destruct (decide (2 ≤ length points)%nat) as [Hlen|Hlen].
    + destruct (douglasPeucker_spec fuel points epsilon Heps Hlen Hfuel)
        as (out & Hout & Hsub & Hhead & Hlast & Hlen' & _).
      by exists out.
    + exists points. split_and!; [|done..|lia].
      destruct fuel; cbn [douglasPeucker]; by rewrite decide_True by lia.
  - intros fuel' epsilon' Hlen.
    destruct fuel'; cbn [douglasPeucker]; by rewrite decide_True by lia.
Qed.

Lemma douglasPeucker_selects_witness :
  (∃ out, douglasPeucker 8 kinked 1 = Some out ∧
          out `sublist_of` kinked ∧
          head out = head kinked ∧ last out = last kinked ∧
          ((2 ≤ length kinked)%nat → (2 ≤ length out)%nat)) ∧
  ∀ fuel' epsilon', (length kinked ≤ 2)%nat →
                    douglasPeucker fuel' kinked epsilon' = Some kinked.
Proof. apply (douglasPeucker_selects 8 kinked 1); [lra|simpl; lia]. Defined.

(** X25. With a tolerance [epsilon] of at least 0, the line that
    [douglasPeucker] returns for two points or more stays within [epsilon]
    of the input: every input point is at most [epsilon] away, by
    [perpDist], from a segment between two consecutive points of the
    result. *)
Theorem douglasPeucker_within_epsilon (fuel : nat) (points : list point) (epsilon : R) :
  0 <= epsilon → (2 ≤ length points)%nat → (length points ≤ fuel + 2)%nat →
  ∃ out, douglasPeucker fuel points epsilon = Some out ∧
         ∀ p, p ∈ points →
              ∃ i a b, out !! i = Some a ∧ out !! S i = Some b ∧
                       perpDist p.1 p.2 a.1 a.2 b.1 b.2 <= epsilon.
Proof.
  intros Heps Hlen Hfuel.
  destruct (douglasPeucker_spec fuel points epsilon Heps Hlen Hfuel)
    as (out & Hout & _ & _ & _ & _ & Hin).
  by exists out.
Qed.

Lemma douglasPeucker_within_epsilon_witness :
  ∃ out, douglasPeucker 8 kinked 1 = Some out ∧
         ∀ p, p ∈ kinked →
              ∃ i a b, out !! i = Some a ∧ out !! S i = Some b ∧
                       perpDist p.1 p.2 a.1 a.2 b.1 b.2 <= 1.
Proof. apply (douglasPeucker_within_epsilon 8 kinked 1); [lra|simpl; lia..]. Defined.

(** X26. With a negative tolerance, [douglasPeucker] does not return on
    three points or more of which no inner one is off the chord (all on the
    segment from the first to the last, or all the same): the farthest
    distance stays 0 at index 0, which still exceeds the tolerance, and the
    second recursive call is on [points.slice(0)], the same points again. *)
Theorem douglasPeucker_negative_epsilon (fuel : nat) (points : list point) (epsilon : R) :
  epsilon < 0 → (3 ≤ length points)%nat →
  (∀ j, (1 ≤ j)%nat → (j + 1 < length points)%nat → chord_dist points j = 0) →
  douglasPeucker fuel points epsilon = None.
Proof.
  intros Heps Hlen Hflat.
  assert (Hfar : farthest points = (0, 0%nat)).
  { pose proof (farthest_spec points) as [Hcase _]. cbv zeta in Hcase.
    destruct Hcase as [?|(Hd & Hm1 & Hm2 & Hdm)]; [done|].
    rewrite (Hflat _ Hm1 Hm2) in Hdm. lra. }
  induction fuel as [|fuel IH]; cbn [douglasPeucker].
  - by rewrite decide_False by lia.
  - rewrite decide_False by lia. rewrite Hfar.
    rewrite decide_True by lra.
    rewrite drop_0, IH. destruct (douglasPeucker fuel (take (0 + 1) points) epsilon); reflexivity.
Qed.

Lemma douglasPeucker_negative_epsilon_witness :
  douglasPeucker 5 [(0, 0); (0, 0); (0, 0)] (-1) = None.
Proof.
  apply (douglasPeucker_negative_epsilon 5 [(0, 0); (0, 0); (0, 0)] (-1));
    [lra|simpl; lia|].
  intros j Hj1 Hj2. simpl in Hj2.
  assert (j = 1%nat) as -> by lia.
  unfold chord_dist. simpl. apply perpDist_start.
Defined.

(** *** Maximum gap *)

Lemma closest_from_bound (x z : R) (fullRoute : list point) (j : nat)
    (best : nat * option R) :
  (closest_from x z fullRoute j best).1 = best.1 ∨
  (j ≤ (closest_from x z fullRoute j best).1 < j + length fullRoute)%nat.
Proof.
  revert j best. induction fullRoute as [|q rest IH]; intros j best;
    cbn [closest_from]; [by left|].
  cbv zeta.
  match goal with
  | |- context [closest_from x z rest (S j) ?b] => set (best' := b)
  end.
  assert (Hbest : best'.1 = best.1 ∨ best'.1 = j).
  { unfold best'. destruct (best.2); [case_decide|]; cbn [fst]; auto. }
  destruct (IH (S j) best') as [H|H]; cbn [length].
  - rewrite H. destruct Hbest as [->| ->]; [by left|right; lia].
  - right. lia.
Qed.

Lemma closest_index_bound (fullRoute : list point) (p : point) :
  closest_index fullRoute p = 0%nat ∨ (closest_index fullRoute p < length fullRoute)%nat.
Proof.
  unfold closest_index.
  destruct (closest_from_bound p.1 p.2 fullRoute 0 (0%nat, None)) as [H|H];
    [by left|right; lia].
Qed.

Lemma gap_fill_fold (fullRoute : list point) (maxGap : R) (js : list nat)
    (st : list point * R) :
  Forall (λ j, j < length fullRoute)%nat js →
  ∃ fills, (fold_left (gap_fill_step fullRoute maxGap) js st).1 = st.1 ++ fills ∧
           Forall (λ p, p ∈ fullRoute) fills.
Proof.
  revert st. induction js as [|j js IH]; intros st Hjs; cbn [fold_left].
  - exists []. by rewrite app_nil_r.
  - apply Forall_cons in Hjs as [Hj Hjs].
    destruct (IH (gap_fill_step fullRoute maxGap st j) Hjs) as (fills & -> & Hfills).
    unfold gap_fill_step. cbv zeta. case_decide; cbn [fst].
    + exists (at_index fullRoute j :: fills). split; [by rewrite <- app_assoc|].
      constructor; [|done].
      destruct (lookup_lt_is_Some_2 fullRoute j Hj) as [q Hq].
      rewrite (at_index_lookup _ _ _ Hq). by eapply list_elem_of_lookup_2.
    + by exists fills.
Qed.

Lemma gap_step_shape (simplified : list point) (simToFull : list nat)
    (fullRoute : list point) (maxGap : R) (result : list point) (i : nat) :
  (∀ k, nth k simToFull 0%nat = 0%nat ∨ (nth k simToFull 0%nat < length fullRoute)%nat) →
  ∃ fills,
    gap_step simplified simToFull fullRoute maxGap result i =
      result ++ fills ++ [at_index simplified i] ∧
    Forall (λ p, p ∈ fullRoute) fills ∧
    (hypot ((at_index simplified i).1 - (at_index result (length result - 1)).1)
           ((at_index simplified i).2 - (at_index result (length result - 1)).2)
       <= maxGap → fills = []).
Proof.
  intros Hidx. unfold gap_step. cbv zeta. case_decide as Hgap.
  - case_decide as Hspan.
    + destruct (gap_fill_fold fullRoute maxGap
                  (seq (nth (i - 1) simToFull 0%nat + 1)
                       (nth i simToFull 0%nat - (nth (i - 1) simToFull 0%nat + 1)))
                  (result, 0)) as (fills & -> & Hfills).
      { apply Forall_forall. intros j Hj%elem_of_seq.
        destruct (Hidx i) as [H0|Hlt]; lia. }
      exists fills. cbn [fst]. split_and!; [by rewrite <- app_assoc|done|lra].
    + exists []. split_and!; [done|constructor|done].
  - exists []. split_and!; [done|constructor|done].
Qed.

Lemma gap_fold_shape (simplified : list point) (simToFull : list nat)
    (fullRoute : list point) (maxGap : R) (m k : nat) (result : list point) :
  (∀ k, nth k simToFull 0%nat = 0%nat ∨ (nth k simToFull 0%nat < length fullRoute)%nat) →
  (k + m = length simplified)%nat → (1 ≤ k)%nat →
  take k simplified `sublist_of` result →
  last result = simplified !! (k - 1)%nat →
  head result = head simplified →
  (∀ p, p ∈ result → p ∈ simplified ∨ p ∈ fullRoute) →
  let r := fold_left (gap_step simplified simToFull fullRoute maxGap) (seq k m) result in
  simplified `sublist_of` r ∧ head r = head simplified ∧ last r = last simplified ∧
  ∀ p, p ∈ r → p ∈ simplified ∨ p ∈ fullRoute.
Proof.
  intros Hidx. cbv zeta. revert k result.
  induction m as [|m IH]; intros k result Hkm Hk Hsub Hlast Hhead Hin; cbn [seq fold_left].
  - split_and!; [|done| |done].
    + by rewrite take_ge in Hsub by lia.
    + rewrite Hlast, last_lookup. f_equal. lia.
  - destruct (gap_step_shape simplified simToFull fullRoute maxGap result k Hidx)
      as (fills & -> & Hfills & _).
    destruct (lookup_lt_is_Some_2 simplified k ltac:(lia)) as [curr Hcurr].
    rewrite (at_index_lookup _ _ _ Hcurr).
    apply IH.
    + lia.
    + lia.
    + rewrite (take_S_r _ _ _ Hcurr). apply sublist_app; [done|].
      by apply sublist_inserts_l.
    + rewrite !app_assoc, last_snoc. rewrite <- Hcurr. f_equal. lia.
    + rewrite <- Hhead. destruct result; [|done].
      cbn [last] in Hlast. symmetry in Hlast. apply lookup_ge_None in Hlast. lia.
    + intros p [Hp|[Hp|Hp]%elem_of_app]%elem_of_app.
      * by apply Hin.
      * right. by eapply Forall_forall in Hfills.
      * apply list_elem_of_singleton in Hp as ->. left.
        by eapply list_elem_of_lookup_2.
Qed.

Lemma gap_fold_same (simplified : list point) (simToFull : list nat)
    (fullRoute : list point) (maxGap : R) (m k : nat) :
  (∀ k, nth k simToFull 0%nat = 0%nat ∨ (nth k simToFull 0%nat < length fullRoute)%nat) →
  (∀ i a b, simplified !! i = Some a → simplified !! S i = Some b →
            hypot (b.1 - a.1) (b.2 - a.2) <= maxGap) →
  (k + m = length simplified)%nat → (1 ≤ k)%nat →
  fold_left (gap_step simplified simToFull fullRoute maxGap) (seq k m) (take k simplified) =
    simplified.
Proof.
  intros Hidx Hgaps. revert k.
  induction m as [|m IH]; intros k Hkm Hk; cbn [seq fold_left].
  - apply take_ge. lia.
  - destruct (gap_step_shape simplified simToFull fullRoute maxGap (take k simplified) k Hidx)
      as (fills & -> & _ & Hnone).
    destruct (lookup_lt_is_Some_2 simplified k ltac:(lia)) as [curr Hcurr].
    destruct (lookup_lt_is_Some_2 simplified (k - 1) ltac:(lia)) as [prev Hprev].
    rewrite (at_index_lookup _ _ _ Hcurr) in *.
    assert (Hlast : at_index (take k simplified) (length (take k simplified) - 1) = prev).
    { apply at_index_lookup. rewrite length_take, lookup_take_lt by lia.
      rewrite <- Hprev. f_equal. lia. }
    rewrite Hlast in Hnone. rewrite Hnone.
    + cbn [app]. rewrite <- (take_S_r _ _ _ Hcurr). apply IH; lia.
    + apply (Hgaps (k - 1)%nat); [done|]. by replace (S (k - 1)) with k by lia.
Qed.

(** X27. [enforceMaxGap] only adds points: for a simplified route that is
    not empty, the result keeps every simplified point in its order, with
    the same first and last point, and every point it has comes from the
    simplified route or from the full route; when no two consecutive
    simplified points are more than [maxGap] apart, the result is the
    simplified route itself.  For an empty simplified route the result is
    the one-element array [[undefined]]. *)
Theorem enforceMaxGap_only_adds (simplified fullRoute : list point) (maxGap : R) :
  match simplified with
  | [] => enforceMaxGap simplified fullRoute maxGap = [None]
  | _ :: _ =>
      ∃ r, enforceMaxGap simplified fullRoute maxGap = Some <$> r ∧
           simplified `sublist_of` r ∧
           head r = head simplified ∧ last r = last simplified ∧
           (∀ p, p ∈ r → p ∈ simplified ∨ p ∈ fullRoute) ∧
           ((∀ i a b, simplified !! i = Some a → simplified !! S i = Some b →
                      hypot (b.1 - a.1) (b.2 - a.2) <= maxGap) →
            r = simplified)
  end.
Proof.
  destruct simplified as [|first rest]; [done|].
  set (simplified := first :: rest).
  assert (Hidx : ∀ k, nth k (closest_index fullRoute <$> simplified) 0%nat = 0%nat ∨
                      (nth k (closest_index fullRoute <$> simplified) 0%nat
                       < length fullRoute)%nat).
  { intros k. destruct (decide (k < length simplified)%nat) as [Hk|Hk].
    - destruct (lookup_lt_is_Some_2 simplified k Hk) as [p Hp].
      rewrite (nth_lookup_Some _ _ _ (closest_index fullRoute p));
        [apply closest_index_bound|].
      by rewrite list_lookup_fmap, Hp.
    - left. apply nth_overflow. rewrite length_fmap. lia. }
  eexists. split; [reflexivity|].
  destruct (gap_fold_shape simplified (closest_index fullRoute <$> simplified) fullRoute
              maxGap (length simplified - 1) 1 [first] Hidx)
    as (Hsub & Hhead & Hlast & Hin).
  { simpl. lia. }
  { lia. }
  { done. }
  { done. }
  { done. }
  { intros p ->%list_elem_of_singleton. left. by left. }
  split_and!; [done..|].
  intros Hgaps.
  apply (gap_fold_same simplified (closest_index fullRoute <$> simplified) fullRoute
           maxGap (length simplified - 1) 1 Hidx Hgaps); simpl; lia.
Qed.

(** ** Fetching the extract, properties *)

(** The reply asks to retry later: status 429 or 504. *)
Definition reply_busy {D : Type} (r : FetchReply D) : bool :=
  match r with
  | FetchFails => false
  | Response status _ => bool_decide (status = 429 ∨ status = 504)%Z
  end.

(** The reply is a response that [fetchOverpass] returns the body of;
    [Some body] tells what its [json()] comes to. *)
Definition reply_success {D : Type} (r : FetchReply D) : option (option D) :=
  match r with
  | FetchFails => None
  | Response status body =>
      if bool_decide (status = 429 ∨ status = 504)%Z then None
      else if response_ok status then Some body else None
  end.

Section Fetch.
Context {D : Type} (server : nat → FetchReply D) (retries : nat).

(** One turn of the loop, by the kind of the reply. *)
Lemma fetch_attempts_step (left attempt : nat) (waits : list Z) :
  fetch_attempts server retries (S left) attempt waits =
    match reply_success (server attempt) with
    | Some body =>
        {| fr_result := match body with
                        | Some data => Resolves (Some data)
                        | None => Rejects
                        end;
           fr_requests := attempt; fr_waits := waits |}
    | None =>
        if reply_busy (server attempt)
        then fetch_attempts server retries left (S attempt)
               (waits ++ [(Z.of_nat attempt * 5000)%Z])
        else if decide (attempt = retries)
        then {| fr_result := Rejects; fr_requests := attempt; fr_waits := waits |}
        else fetch_attempts server retries left (S attempt)
               (waits ++ [(Z.of_nat attempt * 3000)%Z])
    end.
Proof.
  cbn [fetch_attempts]. unfold reply_success, reply_busy.
  destruct (server attempt) as [|status body]; [done|].
  case_decide as Hbusy.
  - by rewrite bool_decide_eq_true_2.
  - rewrite bool_decide_eq_false_2 by done. by destruct (response_ok status).
Qed.

Lemma fetch_attempts_data (left attempt : nat) (waits : list Z) (d : D) :
  (attempt + left = retries + 1)%nat →
  fr_result (fetch_attempts server retries left attempt waits) = Resolves (Some d) ↔
  ∃ k, (attempt ≤ k ≤ retries)%nat ∧
       reply_success (server k) = Some (Some d) ∧
       ∀ j, (attempt ≤ j < k)%nat → reply_success (server j) = None.
Proof.
  revert attempt waits. induction left as [|left IH]; intros attempt waits Hsum.
  - cbn [fetch_attempts fr_result]. split; [done|]. intros (k & Hk & _). lia.
  - rewrite fetch_attempts_step.
    assert (Hlater : ∀ waits',
              reply_success (server attempt) = None →
              fr_result (fetch_attempts server retries left (S attempt) waits')
                = Resolves (Some d) ↔
              ∃ k, (attempt ≤ k ≤ retries)%nat ∧
                   reply_success (server k) = Some (Some d) ∧
                   ∀ j, (attempt ≤ j < k)%nat → reply_success (server j) = None).
    { intros waits' Hnone. rewrite IH by lia. split.
      - intros (k & Hk & Hok & Hbefore). exists k. split; [lia|]. split; [done|].
        intros j Hj. destruct (decide (j = attempt)) as [->|]; [done|]. apply Hbefore. lia.
      - intros (k & Hk & Hok & Hbefore). exists k.
        assert (k ≠ attempt) by (intros ->; congruence).
        split; [lia|]. split; [done|]. intros j Hj. apply Hbefore. lia. }
    destruct (reply_success (server attempt)) as [body|] eqn:Hreply.
    + cbn [fr_result]. split.
      * intros Hres. exists attempt. split; [lia|]. split; [|intros j Hj; lia].
        destruct body; [|done]. by injection Hres as ->.
      * intros (k & Hk & Hok & Hbefore).
        assert (k = attempt) as ->.
        { destruct (decide (k = attempt)); [done|].
          specialize (Hbefore attempt ltac:(lia)). congruence. }
        rewrite Hreply in Hok. by injection Hok as ->.
    + destruct (reply_busy (server attempt)); [by apply Hlater|].
      case_decide as Hlast; [|by apply Hlater].
      cbn [fr_result]. split; [done|]. intros (k & Hk & Hok & _).
      assert (k = attempt) as -> by lia. congruence.
Qed.

Lemma reply_busy_no_success (r : FetchReply D) :
  reply_busy r = true → reply_success r = None.
Proof.
  destruct r as [|status body]; [done|]. cbn. intros Hbusy. by rewrite Hbusy.
Qed.

Lemma fetch_attempts_undefined (left attempt : nat) (waits : list Z) :
  (attempt + left = retries + 1)%nat →
  fr_result (fetch_attempts server retries left attempt waits) = Resolves None ↔
  left = 0%nat ∨
  (reply_busy (server retries) = true ∧
   ∀ j, (attempt ≤ j < retries)%nat → reply_success (server j) = None).
Proof.
  revert attempt waits. induction left as [|left IH]; intros attempt waits Hsum.
  - cbn [fetch_attempts fr_result]. split; [by left|done].
  - rewrite fetch_attempts_step.
    assert (Hlater : ∀ waits',
              reply_success (server attempt) = None →
              (attempt = retries → reply_busy (server attempt) = true) →
              fr_result (fetch_attempts server retries left (S attempt) waits')
                = Resolves None ↔
              S left = 0%nat ∨
              (reply_busy (server retries) = true ∧
               ∀ j, (attempt ≤ j < retries)%nat → reply_success (server j) = None)).
    { intros waits' Hnone Hend. rewrite IH by lia. split.
      - intros [->|[Hbusy Hbefore]]; right.
        + assert (attempt = retries) as <- by lia.
          split; [by apply Hend|]. intros j Hj. lia.
        + split; [done|]. intros j Hj.
          destruct (decide (j = attempt)) as [->|]; [done|]. apply Hbefore. lia.
      - intros [?|[Hbusy Hbefore]]; [done|]. right. split; [done|].
        intros j Hj. apply Hbefore. lia. }
    destruct (reply_success (server attempt)) as [body|] eqn:Hreply.
    + cbn [fr_result]. split; [by destruct body|].
      intros [?|[Hbusy Hbefore]]; [done|].
      destruct (decide (attempt = retries)) as [->|].
      * apply reply_busy_no_success in Hbusy. congruence.
      * specialize (Hbefore attempt ltac:(lia)). congruence.
    + destruct (reply_busy (server attempt)) eqn:Hbusy; [by apply Hlater|].
      case_decide as Hlast; [|by apply Hlater; [|lia]].
      cbn [fr_result]. split; [done|]. intros [?|[Hb _]]; [done|].
      rewrite <- Hlast in Hb. congruence.
Qed.

Lemma fetch_attempts_budget (left attempt : nat) (waits : list Z) :
  (attempt + left = retries + 1)%nat → (1 ≤ attempt)%nat →
  ∃ extra,
    fr_waits (fetch_attempts server retries left attempt waits) = waits ++ extra ∧
    (attempt - 1 ≤ fr_requests (fetch_attempts server retries left attempt waits)
     ≤ retries)%nat ∧
    (attempt - 1 + length extra
     ≤ fr_requests (fetch_attempts server retries left attempt waits))%nat ∧
    ∀ i w, extra !! i = Some w →
           w = (Z.of_nat (attempt + i) * 5000)%Z ∧
             reply_busy (server (attempt + i)) = true ∨
           w = (Z.of_nat (attempt + i) * 3000)%Z ∧
             reply_busy (server (attempt + i)) = false.
Proof.
  revert attempt waits. induction left as [|left IH]; intros attempt waits Hsum Hpos.
  - exists []. cbn [fetch_attempts fr_waits fr_requests length].
    rewrite app_nil_r. split_and!; [done|lia|lia|lia|]. intros i w Hi. by rewrite lookup_nil in Hi.
  - rewrite fetch_attempts_step.
    assert (Hlater : ∀ w0,
              (w0 = (Z.of_nat attempt * 5000)%Z ∧ reply_busy (server attempt) = true ∨
               w0 = (Z.of_nat attempt * 3000)%Z ∧ reply_busy (server attempt) = false) →
              ∃ extra,
                fr_waits (fetch_attempts server retries left (S attempt) (waits ++ [w0]))
                  = waits ++ extra ∧
                (attempt - 1
                 ≤ fr_requests (fetch_attempts server retries left (S attempt) (waits ++ [w0]))
                 ≤ retries)%nat ∧
                (attempt - 1 + length extra
                 ≤ fr_requests (fetch_attempts server retries left (S attempt)
                                  (waits ++ [w0])))%nat ∧
                ∀ i w, extra !! i = Some w →
                       w = (Z.of_nat (attempt + i) * 5000)%Z ∧
                         reply_busy (server (attempt + i)) = true ∨
                       w = (Z.of_nat (attempt + i) * 3000)%Z ∧
                         reply_busy (server (attempt + i)) = false).
    { intros w0 Hw0.
      destruct (IH (S attempt) (waits ++ [w0]) ltac:(lia) ltac:(lia)) as (extra & -> & Hreq & Hlen & Hws).
      exists (w0 :: extra). cbn [length]. split_and!; [by rewrite <- app_assoc|lia|lia|lia|].
      intros [|i] w Hi.
      - injection Hi as <-. by rewrite Nat.add_0_r.
      - replace (attempt + S i)%nat with (S attempt + i)%nat by lia. by apply Hws. }
    assert (Hstop : ∃ extra : list Z,
              waits = waits ++ extra ∧ (attempt - 1 ≤ attempt ≤ retries)%nat ∧
              (attempt - 1 + length extra ≤ attempt)%nat ∧
              ∀ i w, extra !! i = Some w →
                     w = (Z.of_nat (attempt + i) * 5000)%Z ∧
                       reply_busy (server (attempt + i)) = true ∨
                     w = (Z.of_nat (attempt + i) * 3000)%Z ∧
                       reply_busy (server (attempt + i)) = false).
    { exists []. rewrite app_nil_r. cbn [length]. split_and!; [done|lia|lia|lia|].
      intros i w Hi. by rewrite lookup_nil in Hi. }
    destruct (reply_success (server attempt)) as [body|]; [exact Hstop|].
    destruct (reply_busy (server attempt)) eqn:Hbusy; [apply Hlater; by left|].
    case_decide; [exact Hstop|]. apply Hlater. by right.
Qed.

End Fetch.

(** X28. [fetchOverpass] resolves to the body of the first response that
    is OK, whatever errors, bad statuses or rate limits came before it: it
    resolves to [d] exactly when, at one of the attempts 1 to [retries],
    the response has a status from 200 to 299 and [d] as its parsed body,
    and no earlier attempt got an OK response. *)
Theorem fetchOverpass_first_success {D : Type} (server : nat → FetchReply D)
    (retries : nat) (d : D) :
  fr_result (fetchOverpass server retries) = Resolves (Some d) ↔
  ∃ k, (1 ≤ k ≤ retries)%nat ∧
       (∃ status, server k = Response status (Some d) ∧ (200 <= status <= 299)%Z) ∧
       ∀ j, (1 ≤ j < k)%nat →
            ¬ ∃ status body, server j = Response status body ∧ (200 <= status <= 299)%Z.
Proof.
  assert (Hsuccess : ∀ (r : FetchReply D) body,
            reply_success r = Some body ↔
            ∃ status, r = Response status body ∧ (200 <= status <= 299)%Z).
  { intros r body. destruct r as [|status body']; cbn.
    - split; [done|]. by intros (? & ? & _).
    - unfold response_ok. case_bool_decide as Hbusy.
      + split; [done|]. intros (? & [= <- <-] & ?). lia.
      + destruct (200 <=? status)%Z eqn:Hlo, (status <=? 299)%Z eqn:Hhi; cbn.
        * split; [intros [= ->]; exists status; split; [done|lia]|].
          by intros (? & [= <- <-] & _).
        * split; [done|]. intros (? & [= <- <-] & ?). lia.
        * split; [done|]. intros (? & [= <- <-] & ?). lia.
        * split; [done|]. intros (? & [= <- <-] & ?). lia. }
  unfold fetchOverpass. rewrite fetch_attempts_data by lia.
  split; intros (k & Hk & Hok & Hbefore); exists k; (split; [done|]; split).
  - by apply Hsuccess.
  - intros j Hj (status & body & Hreply). specialize (Hbefore j Hj).
    assert (reply_success (server j) = Some body) by (apply Hsuccess; by exists status).
    congruence.
  - by apply Hsuccess.
  - intros j Hj. destruct (reply_success (server j)) as [body|] eqn:Hreply; [|done].
    apply Hsuccess in Hreply as (status & ? & ?).
    destruct (Hbefore j Hj). by exists status, body.
Qed.

(** X29. [fetchOverpass] resolves to [undefined], without an error, in
    two cases only: [retries] is 0, or the last attempt is answered with
    status 429 or 504 and no attempt before it got an OK response.  A
    server that keeps answering 429 therefore gives [undefined], not a
    rejection. *)
Theorem fetchOverpass_undefined {D : Type} (server : nat → FetchReply D) (retries : nat) :
  fr_result (fetchOverpass server retries) = Resolves None ↔
  retries = 0%nat ∨
  ((∃ body, server retries = Response 429 body ∨ server retries = Response 504 body) ∧
   ∀ j, (1 ≤ j < retries)%nat →
        ¬ ∃ status body, server j = Response status body ∧ (200 <= status <= 299)%Z).
Proof.
  assert (Hbusy : ∀ r : FetchReply D,
            reply_busy r = true ↔ ∃ body, r = Response 429 body ∨ r = Response 504 body).
  { intros r. destruct r as [|status body]; cbn.
    - split; [done|]. by intros (? & [?|?]).
    - rewrite bool_decide_eq_true. split.
      + intros [-> | ->]; exists body; auto.
      + intros (? & [[= -> _]|[= -> _]]); auto. }
  assert (Hnone : ∀ r : FetchReply D,
            reply_success r = None ↔
            ¬ ∃ status body, r = Response status body ∧ (200 <= status <= 299)%Z).
  { intros r. destruct r as [|status body]; cbn.
    - split; [|done]. by intros _ (? & ? & ? & _).
    - unfold response_ok. case_bool_decide as Hb.
      + split; [|done]. intros _ (? & ? & [= <- <-] & ?). lia.
      + destruct (200 <=? status)%Z eqn:Hlo, (status <=? 299)%Z eqn:Hhi; cbn.
        * split; [done|]. intros Hno. destruct Hno. exists status, body. split; [done|lia].
        * split; [|done]. intros _ (? & ? & [= <- <-] & ?). lia.
        * split; [|done]. intros _ (? & ? & [= <- <-] & ?). lia.
        * split; [|done]. intros _ (? & ? & [= <- <-] & ?). lia. }
  unfold fetchOverpass. rewrite fetch_attempts_undefined by lia.
  split; (intros [?|[Hlast Hbefore]]; [by left|right]).
  - split; [by apply Hbusy|]. intros j Hj. by apply Hnone, Hbefore.
  - split; [by apply Hbusy|]. intros j Hj. by apply Hnone, Hbefore.
Qed.

(** X30. [fetchOverpass] sends at most [retries] requests.  It waits
    only between requests already sent, never more often than it sent
    requests, and the wait after attempt [k] is [5000 k] milliseconds when
    the status was 429 or 504 and [3000 k] after any other failure. *)
Theorem fetchOverpass_budget {D : Type} (server : nat → FetchReply D) (retries : nat) :
  let run := fetchOverpass server retries in
  (fr_requests run ≤ retries)%nat ∧
  (length (fr_waits run) ≤ fr_requests run)%nat ∧
  ∀ i w, fr_waits run !! i = Some w →
         w = (Z.of_nat (i + 1) * 5000)%Z ∧
           (∃ body, server (i + 1)%nat = Response 429 body ∨
                    server (i + 1)%nat = Response 504 body) ∨
         w = (Z.of_nat (i + 1) * 3000)%Z ∧
           ¬ (∃ body, server (i + 1)%nat = Response 429 body ∨
                      server (i + 1)%nat = Response 504 body).
Proof.
  assert (Hbusy : ∀ r : FetchReply D,
            reply_busy r = true ↔ ∃ body, r = Response 429 body ∨ r = Response 504 body).
  { intros r. destruct r as [|status body]; cbn.
    - split; [done|]. by intros (? & [?|?]).
    - rewrite bool_decide_eq_true. split.
      + intros [-> | ->]; exists body; auto.
      + intros (? & [[= -> _]|[= -> _]]); auto. }
  cbv zeta. unfold fetchOverpass.
  destruct (fetch_attempts_budget server retries retries 1 [] ltac:(lia) ltac:(lia))
    as (extra & Hwaits & Hreq & Hlen & Hws).
  rewrite Hwaits. cbn [app]. split_and!; [lia|lia|].
  intros i w Hi. replace (i + 1)%nat with (1 + i)%nat by lia.
  destruct (Hws i w Hi) as [[-> Hb]|[-> Hb]]; [left|right]; (split; [done|]).
  - by apply Hbusy.
  - intros Hex. apply Hbusy in Hex. congruence.
Qed.
